(** * DanCache: a two-level cache (sync.Map in front of Redis)

    Shallow embedding of [cache.go] and [strategy.go] and the properties
    stated about them.

    Conventions of the embedding.
    - [int64] values are integers of [Z]; every [+], [-], [*] and [++] the
      source performs on them is written with its 64-bit wrap-around
      ([add64], [sub64], [mul64]).
    - [itemCount] is a Go [int].  It moves by one per map operation and
      would need 2^63 steps to wrap, so it is kept as an unbounded [Z].
    - [sync.Map] is a finite map [gmap string CacheItem].  The map holds
      pointers; in a sequential run every key has an item of its own and
      [Get] writes the item back under the same key, so a map of values
      has the same behaviour.
    - [time.Now().Unix()] is the parameter [now] of an operation; all the
      readings taken during one call return that same second.
    - Redis is outside the program.  The replies of the server are
      parameters of the operations, and the commands a call sends are
      appended to the log carried by the client.
    - [sync.Map.Range] and [sort.Slice] promise no order among equal
      elements; both are taken from a [Runtime] that is only assumed to
      satisfy their contracts. *)

From stdpp Require Import gmap strings list fin_maps sorting.
From Stdlib Require Import ZArith Lia.

Local Open Scope Z_scope.

(** ** 64-bit integers *)

Definition min_int64 : Z := - 2 ^ 63.
Definition max_int64 : Z := 2 ^ 63 - 1.

Definition int64_ok (z : Z) : Prop := min_int64 ≤ z ≤ max_int64.

Definition int64_okb (z : Z) : bool := (min_int64 <=? z) && (z <=? max_int64).

Definition wrap64 (z : Z) : Z := (z + 2 ^ 63) mod 2 ^ 64 - 2 ^ 63.

Definition add64 (a b : Z) : Z := wrap64 (a + b).
Definition sub64 (a b : Z) : Z := wrap64 (a - b).
Definition mul64 (a b : Z) : Z := wrap64 (a * b).

(** [time.Second], in nanoseconds. *)
Definition Second : Z := 1000000000.

(** [time.Duration(s) * time.Second] *)
Definition seconds_to_Duration (s : Z) : Z := mul64 s Second.

(** [int64(d.Seconds())].  [Seconds] goes through float64; for a whole
    number of seconds, which is all the callers pass, the conversion is
    exact and equals the quotient. *)
Definition Duration_Seconds (d : Z) : Z := Z.quot d Second.

(** ** Values behind [interface{}] and their JSON form

    [encoding/json] belongs to the Go library.  It is described here by
    its documented behaviour on a fragment of the values a caller can
    put behind [interface{}]: nil, booleans, machine integers, float64
    numbers with an integral value, strings (any sequence of bytes), and
    channels (which have no JSON form).  A float64 with a fractional
    part, NaN and the infinities are outside the fragment, and so are
    number literals with a fraction. *)

Inductive GoValue : Type :=
  | VNil
  | VBool (b : bool)
  | VInt (n : Z)
  | VFloat64 (n : Z)
  | VString (s : string)
  | VChan (id : nat).

#[global] Instance GoValue_eq_dec : EqDecision GoValue.
Proof. solve_decision. Defined.

Inductive JValue : Type :=
  | JNull
  | JBool (b : bool)
  | JNumber (lit : Z)
  | JString (s : string).

(** The float64 nearest to an integer literal (round half to even), as
    [strconv.ParseFloat] computes it. *)
Definition round_float64 (n : Z) : Z :=
  let a := Z.abs n in
  if a <? 2 ^ 53 then n
  else
    let e := Z.log2 a - 52 in
    let q := a / 2 ^ e in
    let r := a mod 2 ^ e in
    let half := 2 ^ (e - 1) in
    let q' := if (half <? r) || ((r =? half) && Z.odd q) then q + 1 else q in
    Z.sgn n * (q' * 2 ^ e).

(** A float64 is finite below 2^1024; a literal that rounds to that or
    beyond is a range error of [strconv.ParseFloat]. *)
Definition float64_finite (n : Z) : bool := Z.abs n <? 2 ^ 1024.

(** *** Strings and UTF-8

    A Go string is a sequence of bytes.  Both directions of
    [encoding/json] walk it with [utf8.DecodeRune]: a well-formed
    sequence of one to four bytes is copied, and a byte that starts none
    is replaced by U+FFFD (the bytes EF BF BD) before the walk moves on
    by one byte.  The ranges are those of the [unicode/utf8] tables. *)

Definition byte_in (lo hi : N) (a : Ascii.ascii) : bool :=
  ((lo <=? Ascii.N_of_ascii a) && (Ascii.N_of_ascii a <=? hi))%N.

Definition utf8_ascii (a : Ascii.ascii) : bool := byte_in 0 127 a.
Definition utf8_cont (a : Ascii.ascii) : bool := byte_in 128 191 a.
Definition utf8_lead2 (a : Ascii.ascii) : bool := byte_in 194 223 a.

(** First two bytes of a three-byte sequence: E0 A0..BF, E1..EC 80..BF,
    ED 80..9F (no surrogates), EE..EF 80..BF. *)
Definition utf8_lead3 (a b : Ascii.ascii) : bool :=
  (byte_in 224 224 a && byte_in 160 191 b)
  || (byte_in 225 236 a && utf8_cont b)
  || (byte_in 237 237 a && byte_in 128 159 b)
  || (byte_in 238 239 a && utf8_cont b).

(** First two bytes of a four-byte sequence: F0 90..BF, F1..F3 80..BF,
    F4 80..8F. *)
Definition utf8_lead4 (a b : Ascii.ascii) : bool :=
  (byte_in 240 240 a && byte_in 144 191 b)
  || (byte_in 241 243 a && utf8_cont b)
  || (byte_in 244 244 a && byte_in 128 143 b).

(** U+FFFD in front of [rest]. *)
Definition RuneError (rest : string) : string :=
  String (Ascii.ascii_of_N 239)
    (String (Ascii.ascii_of_N 191) (String (Ascii.ascii_of_N 189) rest)).

Fixpoint to_valid_utf8 (s : string) : string :=
  match s with
  | EmptyString => EmptyString
  | String a r0 =>
      if utf8_ascii a then String a (to_valid_utf8 r0)
      else
        match r0 with
        | String b r1 =>
            if utf8_lead2 a && utf8_cont b
            then String a (String b (to_valid_utf8 r1))
            else
              match r1 with
              | String c r2 =>
                  if utf8_lead3 a b && utf8_cont c
                  then String a (String b (String c (to_valid_utf8 r2)))
                  else
                    match r2 with
                    | String d r3 =>
                        if utf8_lead4 a b && utf8_cont c && utf8_cont d
                        then String a (String b (String c (String d
                                                 (to_valid_utf8 r3))))
                        else RuneError (to_valid_utf8 r0)
                    | EmptyString => RuneError (to_valid_utf8 r0)
                    end
              | EmptyString => RuneError (to_valid_utf8 r0)
              end
        | EmptyString => RuneError (to_valid_utf8 r0)
        end
  end.

Definition valid_utf8 (s : string) : Prop := to_valid_utf8 s = s.

(** [json.Marshal] on the dynamic value; [None] is
    [UnsupportedTypeError].  A string is written with its invalid bytes
    replaced. *)
Definition marshal_value (v : GoValue) : option JValue :=
  match v with
  | VNil => Some JNull
  | VBool b => Some (JBool b)
  | VInt n => Some (JNumber n)
  | VFloat64 n => Some (JNumber n)
  | VString s => Some (JString (to_valid_utf8 s))
  | VChan _ => None
  end.

(** [json.Unmarshal] into an [interface{}]: a number becomes the nearest
    float64, and decoding fails if that is not finite; a string has its
    invalid bytes replaced. *)
Definition unmarshal_value (j : JValue) : option GoValue :=
  match j with
  | JNull => Some VNil
  | JBool b => Some (VBool b)
  | JNumber lit =>
      if float64_finite (round_float64 lit)
      then Some (VFloat64 (round_float64 lit)) else None
  | JString s => Some (VString (to_valid_utf8 s))
  end.

(** ** The entry envelope *)

Record CacheItem : Type := mkCacheItem {
  Value : GoValue;
  ExpireTime : Z;
  CreateTime : Z;
  AccessTime : Z;
  AccessCount : Z
}.

#[global] Instance CacheItem_eq_dec : EqDecision CacheItem.
Proof. solve_decision. Defined.

(** The JSON object with the five tagged fields.  An object that lacks a
    field decodes like one that carries the zero value there, so five
    fields describe every object the decoder accepts. *)
Record JsonDoc : Type := mkJsonDoc {
  j_value : JValue;
  j_expire_time : Z;
  j_create_time : Z;
  j_access_time : Z;
  j_access_count : Z
}.

(** The bytes kept under a Redis key: a JSON object, or anything else. *)
Inductive Payload : Type :=
  | Encoded (d : JsonDoc)
  | Opaque (raw : string).

Definition json_Marshal (item : CacheItem) : option Payload :=
  match marshal_value (Value item) with
  | Some jv =>
      Some (Encoded (mkJsonDoc jv (ExpireTime item) (CreateTime item)
                               (AccessTime item) (AccessCount item)))
  | None => None
  end.

(** Decoding fails on bytes that are no JSON object, on a number that
    does not fit the [int64] field it is meant for, and on a value that
    does not decode. *)
Definition json_Unmarshal (p : Payload) : option CacheItem :=
  match p with
  | Encoded d =>
      if int64_okb (j_expire_time d) && int64_okb (j_create_time d)
         && int64_okb (j_access_time d) && int64_okb (j_access_count d)
      then
        match unmarshal_value (j_value d) with
        | Some v => Some (mkCacheItem v (j_expire_time d) (j_create_time d)
                                      (j_access_time d) (j_access_count d))
        | None => None
        end
      else None
  | Opaque _ => None
  end.

Definition item_int64_ok (item : CacheItem) : Prop :=
  int64_ok (ExpireTime item) ∧ int64_ok (CreateTime item)
  ∧ int64_ok (AccessTime item) ∧ int64_ok (AccessCount item).

(** The numbers a Go value can hold: an [int] is a 64-bit integer, and a
    float64 (of the fragment) is a finite integer that rounding leaves
    alone. *)
Definition GoValue_ok (v : GoValue) : Prop :=
  match v with
  | VInt n => int64_ok n
  | VFloat64 n => round_float64 n = n ∧ float64_finite n = true
  | VNil | VBool _ | VString _ | VChan _ => True
  end.

(** ** Placement strategies (strategy.go)

    The three implementations carry both methods, so one type serves the
    two interfaces; the type assertions of [HybridStrategy] always
    succeed on them. *)

#[warnings="-register-all"]
Inductive Strategy : Type :=
  | FrequencyBasedStrategy (accessThreshold timeWindow idleTime : Z)
  | TimeWindowStrategy (accessThreshold timeWindow idleThreshold : Z)
  | HybridStrategy (strategies : list Strategy) (requireAll : bool).

Definition NewFrequencyBasedStrategy (accessThreshold timeWindow idleTime : Z)
  : Strategy := FrequencyBasedStrategy accessThreshold timeWindow idleTime.

Definition NewTimeWindowStrategy (accessThreshold timeWindow idleThreshold : Z)
  : Strategy := TimeWindowStrategy accessThreshold timeWindow idleThreshold.

Definition NewHybridPromotionStrategy (requireAll : bool)
  (strategies : list Strategy) : Strategy := HybridStrategy strategies requireAll.

Definition NewHybridDemotionStrategy (requireAll : bool)
  (strategies : list Strategy) : Strategy := HybridStrategy strategies requireAll.

Fixpoint ShouldPromote (s : Strategy) (item : CacheItem) (now : Z) : bool :=
  match s with
  | FrequencyBasedStrategy accessThreshold timeWindow _ =>
      if (0 <? accessThreshold) && (0 <? timeWindow) then
        let timeInWindow := sub64 now (CreateTime item) in
        (timeInWindow <=? timeWindow) && (accessThreshold <=? AccessCount item)
      else false
  | TimeWindowStrategy accessThreshold timeWindow _ =>
      if (0 <? timeWindow) && (0 <? accessThreshold) then
        let windowStart := sub64 now timeWindow in
        (windowStart <=? AccessTime item) && (accessThreshold <=? AccessCount item)
      else false
  | HybridStrategy strategies requireAll =>
      match strategies with
      | [] => false
      | _ =>
          if requireAll
          then forallb (fun ps => ShouldPromote ps item now) strategies
          else existsb (fun ps => ShouldPromote ps item now) strategies
      end
  end.

Fixpoint ShouldDemote (s : Strategy) (item : CacheItem) (now : Z) : bool :=
  match s with
  | FrequencyBasedStrategy _ _ idleTime =>
      if 0 <? idleTime then
        let idle := sub64 now (AccessTime item) in
        idleTime <=? idle
      else false
  | TimeWindowStrategy _ _ idleThreshold =>
      if 0 <? idleThreshold then
        let idle := sub64 now (AccessTime item) in
        idleThreshold <=? idle
      else false
  | HybridStrategy strategies requireAll =>
      match strategies with
      | [] => false
      | _ =>
          if requireAll
          then forallb (fun ds => ShouldDemote ds item now) strategies
          else existsb (fun ds => ShouldDemote ds item now) strategies
      end
  end.

(** ** Configuration and cache state (cache.go) *)

Record CacheConfig : Type := mkCacheConfig {
  EnableL1Cache : bool;
  EnableL2Cache : bool;
  L1TTL : Z;
  L2TTL : Z;
  MaxL1Size : Z;
  RedisOptions : option string;
  PromotionStrategy : option Strategy;
  DemotionStrategy : option Strategy
}.

(** Commands sent to Redis, in the order they leave the client. *)
Inductive RedisCmd : Type :=
  | CmdPing
  | CmdGet (key : string)
  | CmdTTL (key : string)
  | CmdSet (key : string) (data : Payload) (expiration : Z)
  | CmdDel (key : string)
  | CmdFlushDB.

Record RedisClient : Type := mkRedisClient {
  conn_closed : bool;
  sent : list RedisCmd
}.

(** A channel of [struct{}] that nothing is ever sent on: open or closed. *)
Inductive Chan : Type := ChanOpen | ChanClosed.

(** [mutex] and [ctx] are never used to decide anything and are left
    out; [cleanupTicker] is kept as "non-nil". *)
Record MultiLevelCache : Type := mkMultiLevelCache {
  config : CacheConfig;
  localCache : gmap string CacheItem;
  redisClient : option RedisClient;
  itemCount : Z;
  cleanupTicker : bool;
  stopCleanup : Chan
}.

Definition set_localCache (m : gmap string CacheItem) (c : MultiLevelCache)
  : MultiLevelCache :=
  mkMultiLevelCache (config c) m (redisClient c) (itemCount c)
                    (cleanupTicker c) (stopCleanup c).

Definition set_itemCount (n : Z) (c : MultiLevelCache) : MultiLevelCache :=
  mkMultiLevelCache (config c) (localCache c) (redisClient c) n
                    (cleanupTicker c) (stopCleanup c).

Definition set_redisClient (r : option RedisClient) (c : MultiLevelCache)
  : MultiLevelCache :=
  mkMultiLevelCache (config c) (localCache c) r (itemCount c)
                    (cleanupTicker c) (stopCleanup c).

Definition set_stopCleanup (ch : Chan) (c : MultiLevelCache) : MultiLevelCache :=
  mkMultiLevelCache (config c) (localCache c) (redisClient c) (itemCount c)
                    (cleanupTicker c) ch.

(** ** Run-time panics *)

Inductive PanicReason : Type :=
  | NilDereference
  | CloseOfClosedChannel
  | MakesliceCapOutOfRange.

Inductive Outcome (A : Type) : Type :=
  | Done (a : A)
  | Panic (why : PanicReason).

Arguments Done {A} a.
Arguments Panic {A} why.

#[global] Instance Outcome_ret : MRet Outcome := fun A a => Done a.

#[global] Instance Outcome_bind : MBind Outcome := fun A B f m =>
  match m with
  | Done a => f a
  | Panic why => Panic why
  end.

Inductive error : Type :=
  | ErrRedisOptionsNil
  | ErrRedis
  | ErrMarshal.

(** ** What the Go run time leaves open *)

Abbreviation itemWithKey := (string * CacheItem)%type.

Record Runtime : Type := mkRuntime {
  Range : gmap string CacheItem → list itemWithKey;
  sort_Slice : list itemWithKey → list itemWithKey
}.

(** The comparison handed to [sort.Slice] by [evictLRU]. *)
Definition less (a b : itemWithKey) : bool := AccessTime a.2 <? AccessTime b.2.

Definition access_le (a b : itemWithKey) : Prop := AccessTime a.2 ≤ AccessTime b.2.

(** [Range] visits every entry once; [sort.Slice] permutes its argument
    so that no element is [less] than one placed before it. *)
Record RuntimeOk (rt : Runtime) : Prop := mkRuntimeOk {
  Range_perm : ∀ m, Range rt m ≡ₚ map_to_list m;
  sort_perm : ∀ l, sort_Slice rt l ≡ₚ l;
  sort_sorted : ∀ l, StronglySorted access_le (sort_Slice rt l)
}.

(** ** Talking to Redis *)

Definition redis_send (cmd : RedisCmd) (c : MultiLevelCache)
  : Outcome MultiLevelCache :=
  match redisClient c with
  | Some rc =>
      Done (set_redisClient (Some (mkRedisClient (conn_closed rc) (sent rc ++ [cmd]))) c)
  | None => Panic NilDereference
  end.

Inductive GetReply : Type :=
  | GetBytes (p : Payload)
  | GetNil
  | GetErr.

(** The reply to [TTL], in the whole seconds Redis reports. *)
Inductive TTLReply : Type :=
  | TTLSeconds (secs : Z)
  | TTLErr.

(** ** Spilling an entry to L2: the block shared by the sweep and by
    [evictLRU] *)

Definition spill (now : Z) (k : string) (item : CacheItem) (c : MultiLevelCache)
  : Outcome MultiLevelCache :=
  if EnableL2Cache (config c) then
    match json_Marshal item with
    | Some jsonData =>
        let ttl := sub64 (ExpireTime item) now in
        if 0 <? ttl
        then redis_send (CmdSet k jsonData (seconds_to_Duration ttl)) c
        else Done c
    | None => Done c
    end
  else Done c.

Definition l1_remove (k : string) (c : MultiLevelCache) : MultiLevelCache :=
  set_itemCount (itemCount c - 1) (set_localCache (delete k (localCache c)) c).

(** ** The operations *)

Section Operations.

Variable rt : Runtime.

(** The loop of [evictLRU] over the first [evictCount] sorted items. *)
Fixpoint evict_loop (now : Z) (items : list itemWithKey) (c : MultiLevelCache)
  : Outcome MultiLevelCache :=
  match items with
  | [] => Done c
  | (k, item) :: rest =>
      c1 ← spill now k item c;
      evict_loop now rest (l1_remove k c1)
  end.

(** [make([]itemWithKey, 0, c.itemCount)] panics on a negative capacity. *)
Definition evictLRU (now count : Z) (c : MultiLevelCache)
  : Outcome MultiLevelCache :=
  if itemCount c <? 0 then Panic MakesliceCapOutOfRange
  else
    let items := sort_Slice rt (Range rt (localCache c)) in
    let evictCount :=
      if Z.of_nat (length items) <? count then Z.of_nat (length items) else count in
    evict_loop now (take (Z.to_nat evictCount) items) c.

(** The [Range] callback of [cleanupExpiredItems]: the keys to delete and
    the keys to demote, in the order of the visit. *)
Fixpoint collect_keys (now : Z) (demotion : option Strategy)
  (snapshot : list itemWithKey) : Outcome (list string * list string) :=
  match snapshot with
  | [] => Done ([], [])
  | (k, item) :: rest =>
      if ExpireTime item <=? now then
        '(keysToDelete, keysToDemote) ← collect_keys now demotion rest;
        Done (k :: keysToDelete, keysToDemote)
      else
        match demotion with
        | None => Panic NilDereference
        | Some ds =>
            '(keysToDelete, keysToDemote) ← collect_keys now demotion rest;
            Done (keysToDelete,
                  if ShouldDemote ds item now then k :: keysToDemote
                  else keysToDemote)
        end
  end.

Fixpoint delete_loop (keys : list string) (c : MultiLevelCache) : MultiLevelCache :=
  match keys with
  | [] => c
  | k :: rest => delete_loop rest (l1_remove k c)
  end.

Fixpoint demote_loop (now : Z) (keys : list string) (c : MultiLevelCache)
  : Outcome MultiLevelCache :=
  match keys with
  | [] => Done c
  | k :: rest =>
      match localCache c !! k with
      | Some item =>
          c1 ← spill now k item c;
          demote_loop now rest (l1_remove k c1)
      | None => demote_loop now rest c
      end
  end.

(** The size check that follows every insertion and ends the sweep. *)
Definition over_cap (c : MultiLevelCache) : bool :=
  (0 <? MaxL1Size (config c)) && (MaxL1Size (config c) <? itemCount c).

(** The sweep without its final size check. *)
Definition sweep (now : Z) (c : MultiLevelCache) : Outcome MultiLevelCache :=
  '(keysToDelete, keysToDemote) ←
    collect_keys now (DemotionStrategy (config c)) (Range rt (localCache c));
  demote_loop now keysToDemote (delete_loop keysToDelete c).

Definition cleanupExpiredItems (now : Z) (c : MultiLevelCache)
  : Outcome MultiLevelCache :=
  c1 ← sweep now c;
  if over_cap c1
  then evictLRU now (itemCount c1 - MaxL1Size (config c1)) c1
  else Done c1.

Definition l1_store (key : string) (item : CacheItem) (n : Z) (c : MultiLevelCache)
  : MultiLevelCache :=
  set_itemCount n (set_localCache (<[key:=item]> (localCache c)) c).

(** [Set]; the name is a keyword here.  [redis_ok] tells whether the
    Redis SET succeeds. *)
Definition Set_ (key : string) (value : GoValue) (ttl : Z) (now : Z)
  (redis_ok : bool) (c : MultiLevelCache) : Outcome (option error * MultiLevelCache) :=
  let expireTime := add64 now ttl in
  let item := mkCacheItem value expireTime now now 0 in
  c1 ← (if EnableL1Cache (config c) then
          let n := match localCache c !! key with
                   | Some _ => itemCount c
                   | None => itemCount c + 1
                   end in
          let c' := l1_store key item n c in
          if over_cap c' then evictLRU now 1 c' else Done c'
        else Done c);
  if EnableL2Cache (config c1) then
    match json_Marshal item with
    | None => Done (Some ErrMarshal, c1)
    | Some jsonData =>
        c2 ← redis_send (CmdSet key jsonData (seconds_to_Duration ttl)) c1;
        Done (if redis_ok then None else Some ErrRedis, c2)
    end
  else Done (None, c1).

Definition touch (now : Z) (item : CacheItem) : CacheItem :=
  mkCacheItem (Value item) (ExpireTime item) (CreateTime item) now
              (add64 (AccessCount item) 1).

(** The L1 lookup that opens [Get] and [GetWithTTL]: a live entry is
    touched and returned, an expired one is removed. *)
Definition l1_lookup (key : string) (now : Z) (c : MultiLevelCache)
  : option CacheItem * MultiLevelCache :=
  if EnableL1Cache (config c) then
    match localCache c !! key with
    | Some item =>
        if now <? ExpireTime item
        then (Some item, set_localCache (<[key:=touch now item]> (localCache c)) c)
        else (None, l1_remove key c)
    | None => (None, c)
    end
  else (None, c).

(** The promotion block of [Get] and [GetWithTTL]. *)
Definition promote (key : string) (item : CacheItem) (now : Z) (c : MultiLevelCache)
  : Outcome MultiLevelCache :=
  if EnableL1Cache (config c) then
    match PromotionStrategy (config c) with
    | None => Panic NilDereference
    | Some ps =>
        if ShouldPromote ps item now then
          let c' := l1_store key item (itemCount c + 1) c in
          if over_cap c' then evictLRU now 1 c' else Done c'
        else Done c
    end
  else Done c.

(** [jsonData, _ := json.Marshal(item)]: the error is dropped and the
    bytes are then empty. *)
Definition marshal_or_empty (item : CacheItem) : Payload :=
  match json_Marshal item with
  | Some jsonData => jsonData
  | None => Opaque ""
  end.

Definition Get (key : string) (now : Z) (reply : GetReply) (c : MultiLevelCache)
  : Outcome (option GoValue * MultiLevelCache) :=
  match l1_lookup key now c with
  | (Some item, c1) => Done (Some (Value item), c1)
  | (None, c1) =>
      if EnableL2Cache (config c1) then
        c2 ← redis_send (CmdGet key) c1;
        match reply with
        | GetNil => Done (None, c2)
        | GetErr => Done (None, c2)
        | GetBytes jsonData =>
            match json_Unmarshal jsonData with
            | None => Done (None, c2)
            | Some item0 =>
                if now <? ExpireTime item0 then
                  let item := touch now item0 in
                  c3 ← promote key item now c2;
                  c4 ← redis_send
                         (CmdSet key (marshal_or_empty item)
                                 (seconds_to_Duration (sub64 (ExpireTime item) now))) c3;
                  Done (Some (Value item), c4)
                else Done (None, c2)
            end
        end
      else Done (None, c1)
  end.

Definition Delete (key : string) (redis_ok : bool) (c : MultiLevelCache)
  : Outcome (option error * MultiLevelCache) :=
  let c1 :=
    if EnableL1Cache (config c) then
      match localCache c !! key with
      | Some _ => l1_remove key c
      | None => c
      end
    else c in
  if EnableL2Cache (config c1) then
    c2 ← redis_send (CmdDel key) c1;
    Done (if redis_ok then None else Some ErrRedis, c2)
  else Done (None, c1).

Definition Clear (redis_ok : bool) (c : MultiLevelCache)
  : Outcome (option error * MultiLevelCache) :=
  let c1 :=
    if EnableL1Cache (config c)
    then set_itemCount 0 (set_localCache ∅ c)
    else c in
  if EnableL2Cache (config c1) then
    c2 ← redis_send CmdFlushDB c1;
    Done (if redis_ok then None else Some ErrRedis, c2)
  else Done (None, c1).

Definition GetWithTTL (key : string) (now : Z) (ttl_reply : TTLReply)
  (reply : GetReply) (c : MultiLevelCache)
  : Outcome (option (GoValue * Z) * MultiLevelCache) :=
  match l1_lookup key now c with
  | (Some item, c1) => Done (Some (Value item, sub64 (ExpireTime item) now), c1)
  | (None, c1) =>
      if EnableL2Cache (config c1) then
        c2 ← redis_send (CmdTTL key) c1;
        match ttl_reply with
        | TTLErr => Done (None, c2)
        | TTLSeconds secs =>
            let ttl := seconds_to_Duration secs in
            if ttl <=? 0 then Done (None, c2)
            else
              c3 ← redis_send (CmdGet key) c2;
              match reply with
              | GetNil => Done (None, c3)
              | GetErr => Done (None, c3)
              | GetBytes jsonData =>
                  match json_Unmarshal jsonData with
                  | None => Done (None, c3)
                  | Some item0 =>
                      let item := touch now item0 in
                      c4 ← promote key item now c3;
                      c5 ← redis_send (CmdSet key (marshal_or_empty item) ttl) c4;
                      Done (Some (Value item, Duration_Seconds ttl), c5)
                  end
              end
        end
      else Done (None, c1)
  end.

(** [expiration] is [expiration.Unix()]. *)
Definition SetWithExpiration (key : string) (value : GoValue) (expiration : Z)
  (now : Z) (redis_ok : bool) (c : MultiLevelCache)
  : Outcome (option error * MultiLevelCache) :=
  if expiration <=? now then Done (None, c)
  else Set_ key value (sub64 expiration now) now redis_ok c.

End Operations.

(** [close(c.stopCleanup)] panics when the channel is closed already. *)
Definition Close (redis_ok : bool) (c : MultiLevelCache)
  : Outcome (option error * MultiLevelCache) :=
  c1 ← (if cleanupTicker c then
          match stopCleanup c with
          | ChanOpen => Done (set_stopCleanup ChanClosed c)
          | ChanClosed => Panic CloseOfClosedChannel
          end
        else Done c);
  if EnableL2Cache (config c1) then
    match redisClient c1 with
    | Some rc =>
        Done (if redis_ok then None else Some ErrRedis,
              set_redisClient (Some (mkRedisClient true (sent rc))) c1)
    | None => Done (None, c1)
    end
  else Done (None, c1).

Definition with_default_strategies (cfg : CacheConfig) : CacheConfig :=
  mkCacheConfig (EnableL1Cache cfg) (EnableL2Cache cfg) (L1TTL cfg) (L2TTL cfg)
    (MaxL1Size cfg) (RedisOptions cfg)
    (match PromotionStrategy cfg with
     | None => Some (NewFrequencyBasedStrategy 3 60 0)
     | Some ps => Some ps
     end)
    (match DemotionStrategy cfg with
     | None => Some (NewFrequencyBasedStrategy 0 0 300)
     | Some ds => Some ds
     end).

(** [ping_ok] tells whether the first PING succeeds. *)
Definition NewMultiLevelCache (cfg : CacheConfig) (ping_ok : bool)
  : error + MultiLevelCache :=
  let build (client : option RedisClient) :=
    mkMultiLevelCache (with_default_strategies cfg) ∅ client 0
                      (EnableL1Cache cfg) ChanOpen in
  if EnableL2Cache cfg then
    match RedisOptions cfg with
    | None => inl ErrRedisOptionsNil
    | Some _ =>
        if ping_ok then inr (build (Some (mkRedisClient false [CmdPing])))
        else inl ErrRedis
    end
  else inr (build None).

(** ** A run time to compute with

    [sort.Slice] on a short slice is an insertion sort, which keeps equal
    elements in the order [Range] produced them. *)

Fixpoint insert_sorted (x : itemWithKey) (l : list itemWithKey) : list itemWithKey :=
  match l with
  | [] => [x]
  | y :: l' => if less x y then x :: y :: l' else y :: insert_sorted x l'
  end.

Definition insertion_sort (l : list itemWithKey) : list itemWithKey :=
  foldl (fun acc x => insert_sorted x acc) [] l.

Definition go_runtime : Runtime := mkRuntime map_to_list insertion_sort.

(** The same with [Range] visiting the map the other way round. *)
Definition go_runtime_rev : Runtime :=
  mkRuntime (fun m => reverse (map_to_list m)) insertion_sort.

(** ** Sequential executions

    [well_formed] holds of every cache the constructor returns: the
    pointers the operations follow are not nil. *)

Definition well_formed (c : MultiLevelCache) : Prop :=
  (EnableL2Cache (config c) = true → is_Some (redisClient c))
  ∧ is_Some (PromotionStrategy (config c))
  ∧ is_Some (DemotionStrategy (config c)).

(** [itemCount] is the number of keys of the L1 map. *)
Definition l1_consistent (c : MultiLevelCache) : Prop :=
  itemCount c = Z.of_nat (size (localCache c)).

(** The size cap, when there is one. *)
Definition within_cap (c : MultiLevelCache) : Prop :=
  0 < MaxL1Size (config c) → itemCount c ≤ MaxL1Size (config c).

(** One call of a public operation, or one tick of the maintenance
    loop (which runs while the stop channel is open). *)
Inductive Step (c c' : MultiLevelCache) : Prop :=
  | Step_Set rt key value ttl now ok e :
      RuntimeOk rt → Set_ rt key value ttl now ok c = Done (e, c') → Step c c'
  | Step_Get rt key now reply v :
      RuntimeOk rt → Get rt key now reply c = Done (v, c') → Step c c'
  | Step_GetWithTTL rt key now ttl_reply reply v :
      RuntimeOk rt → GetWithTTL rt key now ttl_reply reply c = Done (v, c') → Step c c'
  | Step_Delete key ok e :
      Delete key ok c = Done (e, c') → Step c c'
  | Step_Clear ok e :
      Clear ok c = Done (e, c') → Step c c'
  | Step_SetWithExpiration rt key value expiration now ok e :
      RuntimeOk rt →
      SetWithExpiration rt key value expiration now ok c = Done (e, c') → Step c c'
  | Step_Close ok e :
      Close ok c = Done (e, c') → Step c c'
  | Step_tick rt now :
      RuntimeOk rt → cleanupTicker c = true → stopCleanup c = ChanOpen →
      cleanupExpiredItems rt now c = Done c' → Step c c'.

Inductive Reachable : MultiLevelCache → Prop :=
  | Reachable_new cfg ping_ok c :
      NewMultiLevelCache cfg ping_ok = inr c → Reachable c
  | Reachable_step c c' :
      Reachable c → Step c c' → Reachable c'.

(** ** The policy the specification describes for eviction ties

    Ascending [access_time], then [create_time], then the key. *)
Definition spec_lru_lt (a b : itemWithKey) : Prop :=
  AccessTime a.2 < AccessTime b.2
  ∨ (AccessTime a.2 = AccessTime b.2
     ∧ (CreateTime a.2 < CreateTime b.2
        ∨ (CreateTime a.2 = CreateTime b.2 ∧ String.ltb a.1 b.1 = true))).

(** ** Vocabulary for the L1 part of a state *)

Definition delete_keys (ks : list string) (m : gmap string CacheItem)
  : gmap string CacheItem :=
  foldl (fun m k => delete k m) m ks.

(** The entries [evictLRU] removes: the first [evictCount] of the sorted
    snapshot. *)
Definition victims (rt : Runtime) (count : Z) (m : gmap string CacheItem)
  : list itemWithKey :=
  let items := sort_Slice rt (Range rt m) in
  take (Z.to_nat (if Z.of_nat (length items) <? count
                  then Z.of_nat (length items) else count)) items.

(** [c'] is [c] with the L1 map [m] and the counter [n]; only the Redis
    client may differ besides. *)
Definition l1_post (c c' : MultiLevelCache) (m : gmap string CacheItem) (n : Z)
  : Prop :=
  config c' = config c ∧ localCache c' = m ∧ itemCount c' = n
  ∧ cleanupTicker c' = cleanupTicker c ∧ stopCleanup c' = stopCleanup c
  ∧ (is_Some (redisClient c) → is_Some (redisClient c')).

(** A call returns ([Done]) and hands back a state that is again
    well formed and consistent, under the same configuration, and within
    the cap if it was. *)
Definition preserves {A : Type} (c : MultiLevelCache)
  (r : Outcome (A * MultiLevelCache)) : Prop :=
  ∃ a c', r = Done (a, c') ∧ config c' = config c ∧ well_formed c'
          ∧ l1_consistent c' ∧ (within_cap c → within_cap c').

(** L1 misses at [now]: the key is absent, expired, or L1 is off. *)
Definition l1_miss (key : string) (now : Z) (c : MultiLevelCache) : Prop :=
  (l1_lookup key now c).1 = None.

(** Values that come back from JSON as they went in: nil, a boolean, a
    string of valid UTF-8, a float64. *)
Definition json_native (v : GoValue) : Prop :=
  match v with
  | VNil | VBool _ => True
  | VString s => valid_utf8 s
  | VFloat64 n => round_float64 n = n ∧ float64_finite n = true
  | VInt _ | VChan _ => False
  end.

(** L1 is on and holds [value] under [key], to expire at [expire]. *)
Definition l1_holds (key : string) (value : GoValue) (expire : Z)
  (c : MultiLevelCache) : Prop :=
  EnableL1Cache (config c) = true
  ∧ ∃ item, localCache c !! key = Some item ∧ Value item = value
            ∧ ExpireTime item = expire.

(** A reply of Redis that [Get] cannot serve at [now]: a miss, an error,
    bytes that do not decode, or an envelope that has expired. *)
Definition reply_stale (now : Z) (reply : GetReply) : Prop :=
  match reply with
  | GetBytes p =>
      match json_Unmarshal p with
      | Some item => ExpireTime item ≤ now
      | None => True
      end
  | _ => True
  end.

(** ** Concrete caches and entries used below *)

Definition config_of (l1 l2 : bool) (cap : Z) : CacheConfig :=
  mkCacheConfig l1 l2 300 3600 cap (if l2 then Some "localhost:6379" else None)
                None None.

Definition fresh (l1 l2 : bool) (cap : Z) : MultiLevelCache :=
  mkMultiLevelCache (with_default_strategies (config_of l1 l2 cap)) ∅
    (if l2 then Some (mkRedisClient false [CmdPing]) else None) 0 l1 ChanOpen.

Definition item_int42 : CacheItem := mkCacheItem (VInt 42) 1000 0 0 0.

(** An envelope around the one-byte string "\xff", which is no UTF-8. *)
Definition item_invalid_utf8 : CacheItem :=
  mkCacheItem (VString (String (Ascii.ascii_of_N 255) EmptyString)) 1000 0 0 0.

(** Two entries last read in the same second: "a" was set at 0 and read
    at 5, "b" is set at 5.  [cache_ab] is the state in which [Set] of "b"
    calls [evictLRU] under a cap of one entry. *)
Definition item_a : CacheItem := mkCacheItem (VString "va") 100 0 5 1.
Definition item_b : CacheItem := mkCacheItem (VString "vb") 105 5 5 0.

Definition cache_a : MultiLevelCache := l1_store "a" item_a 1 (fresh true false 1).
Definition cache_ab : MultiLevelCache := l1_store "b" item_b 2 cache_a.

(** Scenario A: L1 on with a cap of 10, L2 on, promotion (3, 60, 0),
    demotion (0, 0, 0); the envelope below sits in L2 under key "a". *)
Definition scenarioA_config : CacheConfig :=
  mkCacheConfig true true 300 3600 10 (Some "localhost:6379")
    (Some (NewFrequencyBasedStrategy 3 60 0))
    (Some (NewFrequencyBasedStrategy 0 0 0)).

Definition scenarioA_cache : MultiLevelCache :=
  mkMultiLevelCache scenarioA_config ∅ (Some (mkRedisClient false [CmdPing])) 0
                    true ChanOpen.

Definition scenarioA_envelope : CacheItem := mkCacheItem (VString "x") 1000 0 0 2.

Definition scenarioA_bytes : Payload :=
  Encoded (mkJsonDoc (JString "x") 1000 0 0 2).

(** The L1 map after the promotion block has stored [item] under [key]
    in [c] and run the size check. *)
Definition l1_after_promotion (rt : Runtime) (key : string) (item : CacheItem)
  (c : MultiLevelCache) : gmap string CacheItem :=
  let m := <[key:=item]> (localCache c) in
  if (0 <? MaxL1Size (config c)) && (MaxL1Size (config c) <? itemCount c + 1)
  then delete_keys (victims rt 1 m).*1 m
  else m.

(** An envelope whose [expire_time] is the current second 10 while Redis
    still reports one second to live (Redis rounds the remaining
    milliseconds to the nearest second). *)
Definition expired_envelope : CacheItem := mkCacheItem (VString "v") 10 0 0 2.

Definition expired_bytes : Payload :=
  Encoded (mkJsonDoc (JString "v") 10 0 0 2).

(** [Set] of [key] at [now] does not evict [key] itself: there is no
    cap, or the insertion stays within it, or some other entry was last
    accessed before [now]. *)
Definition key_survives_Set (key : string) (now : Z) (c : MultiLevelCache) : Prop :=
  MaxL1Size (config c) ≤ 0
  ∨ match localCache c !! key with
    | Some _ => itemCount c
    | None => itemCount c + 1
    end ≤ MaxL1Size (config c)
  ∨ ∃ k' item', k' ≠ key ∧ localCache c !! k' = Some item' ∧ AccessTime item' < now.

(** The commands the client has sent so far. *)
Definition sent_log (c : MultiLevelCache) : list RedisCmd :=
  match redisClient c with
  | Some rc => sent rc
  | None => []
  end.

(** The command [spill] sends for an entry, if it sends one. *)
Definition spill_cmds (l2 : bool) (now : Z) (k : string) (item : CacheItem)
  : list RedisCmd :=
  if l2 then
    match json_Marshal item with
    | Some jsonData =>
        if 0 <? sub64 (ExpireTime item) now
        then [CmdSet k jsonData (seconds_to_Duration (sub64 (ExpireTime item) now))]
        else []
    | None => []
    end
  else [].

(** The commands [evictLRU] sends for a list of entries, in order. *)
Definition spilled (l2 : bool) (now : Z) (items : list itemWithKey) : list RedisCmd :=
  flat_map (fun x => spill_cmds l2 now x.1 x.2) items.

(** What a sweep at [now] under the demotion policy [ds] leaves of an
    entry: nothing if it is expired or the policy demotes it. *)
Definition survives_sweep (ds : Strategy) (now : Z) (item : CacheItem) : bool :=
  negb (ExpireTime item <=? now) && negb (ShouldDemote ds item now).

(** ** Arithmetic *)

Lemma wrap64_id (z : Z) : int64_ok z → wrap64 z = z.
Proof.
  unfold int64_ok, min_int64, max_int64, wrap64. intros H.
  rewrite Z.mod_small; lia.
Qed.

Lemma wrap64_ok (z : Z) : int64_ok (wrap64 z).
Proof.
  unfold int64_ok, min_int64, max_int64, wrap64.
  pose proof (Z.mod_pos_bound (z + 2 ^ 63) (2 ^ 64)). lia.
Qed.

Lemma int64_okb_true (z : Z) : int64_okb z = true ↔ int64_ok z.
Proof.
  unfold int64_okb, int64_ok. rewrite andb_true_iff, !Z.leb_le. tauto.
Qed.

Lemma sub64_exact (a b : Z) : int64_ok (a - b) → sub64 a b = a - b.
Proof. apply wrap64_id. Qed.

Lemma add64_exact (a b : Z) : int64_ok (a + b) → add64 a b = a + b.
Proof. apply wrap64_id. Qed.

Lemma bind_Done {A B : Type} (f : A → Outcome B) (a : A) : mbind f (Done a) = f a.
Proof. reflexivity. Qed.

(** ** The computing run time meets the contracts *)

Lemma insert_sorted_perm (x : itemWithKey) (l : list itemWithKey) :
  insert_sorted x l ≡ₚ x :: l.
Proof.
  induction l as [|y l IH]; simpl; [done|].
  destruct (less x y); [done|].
  rewrite IH. apply Permutation_swap.
Qed.

Lemma insert_sorted_sorted (x : itemWithKey) (l : list itemWithKey) :
  StronglySorted access_le l → StronglySorted access_le (insert_sorted x l).
Proof.
  induction 1 as [|y l Hl IH Hy]; simpl.
  - repeat constructor.
  - destruct (less x y) eqn:Hxy; unfold less in Hxy.
    + apply Z.ltb_lt in Hxy. constructor; [by constructor|].
      constructor; [unfold access_le; lia|].
      eapply Forall_impl; [exact Hy|]. unfold access_le. intros z Hz. lia.
    + apply Z.ltb_ge in Hxy. constructor; [done|].
      rewrite insert_sorted_perm. constructor; [done|exact Hy].
Qed.

Lemma insertion_sort_acc (l acc : list itemWithKey) :
  StronglySorted access_le acc →
  foldl (fun acc x => insert_sorted x acc) acc l ≡ₚ l ++ acc
  ∧ StronglySorted access_le (foldl (fun acc x => insert_sorted x acc) acc l).
Proof.
  revert acc. induction l as [|x l IH]; intros acc Hacc; simpl; [done|].
  destruct (IH (insert_sorted x acc)) as [Hp Hs].
  { by apply insert_sorted_sorted. }
  split; [|done]. rewrite Hp, insert_sorted_perm.
  by rewrite Permutation_middle.
Qed.

Lemma go_runtime_ok : RuntimeOk go_runtime.
Proof.
  split; simpl.
  - done.
  - intros l. destruct (insertion_sort_acc l []) as [Hp _]; [constructor|].
    unfold insertion_sort. by rewrite Hp, app_nil_r.
  - intros l. by destruct (insertion_sort_acc l []) as [_ Hs]; [constructor|].
Qed.

Lemma go_runtime_rev_ok : RuntimeOk go_runtime_rev.
Proof.
  split; simpl.
  - intros m. apply reverse_Permutation.
  - apply (sort_perm _ go_runtime_ok).
  - apply (sort_sorted _ go_runtime_ok).
Qed.

(** ** Deleting a list of keys *)

Lemma lookup_delete_keys (ks : list string) (m : gmap string CacheItem) (k : string) :
  delete_keys ks m !! k = if decide (k ∈ ks) then None else m !! k.
Proof.
  unfold delete_keys. revert m. induction ks as [|a ks IH]; intros m; simpl.
  - destruct (decide (k ∈ [])) as [H|H]; [by apply elem_of_nil in H|done].
  - rewrite IH. destruct (decide (k = a)) as [->|Hne].
    + rewrite lookup_delete_eq. rewrite (decide_True (P := a ∈ a :: ks)) by left.
      by destruct (decide (a ∈ ks)).
    + rewrite lookup_delete_ne by done.
      destruct (decide (k ∈ ks)) as [H1|H1], (decide (k ∈ a :: ks)) as [H2|H2];
        try done.
      * destruct H2. by right.
      * apply elem_of_cons in H2 as [?|?]; done.
Qed.

Lemma size_delete_keys (ks : list string) (m : gmap string CacheItem) :
  NoDup ks → (∀ k, k ∈ ks → is_Some (m !! k)) →
  (size (delete_keys ks m) + length ks = size m)%nat.
Proof.
  unfold delete_keys. revert m. induction ks as [|a ks IH]; intros m Hnd Hin; simpl.
  - lia.
  - apply NoDup_cons in Hnd as [Ha Hnd].
    assert (∀ k, k ∈ ks → is_Some (delete a m !! k)) as Hin'.
    { intros k Hk. rewrite lookup_delete_ne; [apply Hin; by right|].
      intros ->. done. }
    pose proof (IH (delete a m) Hnd Hin') as Hrec.
    destruct (Hin a) as [x Hx]; [left|].
    pose proof (map_size_delete_Some a m (mk_is_Some _ _ Hx)) as Hs.
    assert (size m ≠ 0%nat); [|simpl; lia].
    intros H0. apply map_size_empty_inv in H0. subst m.
    by rewrite lookup_empty in Hx.
Qed.

(** ** Framing: what a call leaves alone *)

Lemma l1_post_refl (c : MultiLevelCache) : l1_post c c (localCache c) (itemCount c).
Proof. by repeat split. Qed.

Lemma l1_post_trans (c c1 c2 : MultiLevelCache) m1 n1 m2 n2 :
  l1_post c c1 m1 n1 → l1_post c1 c2 m2 n2 → l1_post c c2 m2 n2.
Proof.
  intros (?&?&?&?&?&?) (?&?&?&?&?&?). repeat split; try congruence. auto.
Qed.

Lemma l1_post_wf (c c' : MultiLevelCache) m n :
  well_formed c → l1_post c c' m n → well_formed c'.
Proof.
  intros (H2&Hp&Hd) (Hc&_&_&_&_&Hr). unfold well_formed. rewrite Hc. auto.
Qed.

Lemma l1_remove_post (k : string) (c : MultiLevelCache) :
  l1_post c (l1_remove k c) (delete k (localCache c)) (itemCount c - 1).
Proof. by repeat split. Qed.

Lemma redis_send_post (cmd : RedisCmd) (c : MultiLevelCache) :
  is_Some (redisClient c) →
  ∃ c', redis_send cmd c = Done c' ∧ l1_post c c' (localCache c) (itemCount c).
Proof.
  intros [rc Hrc]. unfold redis_send. rewrite Hrc.
  eexists; split; [done|]. repeat split; simpl; eauto.
Qed.

Lemma spill_post (now : Z) (k : string) (item : CacheItem) (c : MultiLevelCache) :
  well_formed c →
  ∃ c', spill now k item c = Done c' ∧ l1_post c c' (localCache c) (itemCount c).
Proof.
  intros (H2&_&_). unfold spill.
  destruct (EnableL2Cache (config c)) eqn:E2;
    [|eexists; split; [done|apply l1_post_refl]].
  destruct (json_Marshal item);
    [|eexists; split; [done|apply l1_post_refl]].
  destruct (0 <? sub64 (ExpireTime item) now);
    [|eexists; split; [done|apply l1_post_refl]].
  apply redis_send_post; auto.
Qed.

Lemma evict_loop_post (now : Z) (items : list itemWithKey) (c : MultiLevelCache) :
  well_formed c →
  ∃ c', evict_loop now items c = Done c'
        ∧ l1_post c c' (delete_keys items.*1 (localCache c))
                  (itemCount c - Z.of_nat (length items)).
Proof.
  revert c. induction items as [|[k item] items IH]; intros c Hwf.
  - exists c. split; [done|]. simpl. rewrite Z.sub_0_r. apply l1_post_refl.
  - destruct (spill_post now k item c Hwf) as (c1&Hs&Hp1).
    simpl evict_loop. rewrite Hs. simpl.
    pose proof (l1_remove_post k c1) as Hp2.
    pose proof (l1_post_trans _ _ _ _ _ _ _ Hp1 Hp2) as Hp3.
    destruct (IH (l1_remove k c1)) as (c'&He&Hp4).
    { eapply l1_post_wf; [exact Hwf|exact Hp3]. }
    exists c'. split; [done|].
    pose proof (l1_post_trans _ _ _ _ _ _ _ Hp3 Hp4) as Hp5.
    destruct Hp1 as (_&Hm1&Hn1&_).
    simpl in Hp5. rewrite Hm1, Hn1 in Hp5.
    assert (itemCount c - Z.of_nat (S (length items))
            = itemCount c - 1 - Z.of_nat (length items)) as -> by lia.
    exact Hp5.
Qed.

(** ** What [evictLRU] removes *)

Section Eviction.

Variable rt : Runtime.
Hypothesis rt_ok : RuntimeOk rt.

Lemma snapshot_perm (m : gmap string CacheItem) :
  sort_Slice rt (Range rt m) ≡ₚ map_to_list m.
Proof. rewrite (sort_perm _ rt_ok). apply (Range_perm _ rt_ok). Qed.

Lemma snapshot_length (m : gmap string CacheItem) :
  length (sort_Slice rt (Range rt m)) = size m.
Proof. rewrite snapshot_perm. apply length_map_to_list. Qed.

Lemma victims_eq (count : Z) (m : gmap string CacheItem) :
  victims rt count m
  = take (Z.to_nat (Z.min count (Z.of_nat (size m)))) (sort_Slice rt (Range rt m)).
Proof.
  unfold victims. rewrite snapshot_length. f_equal. f_equal.
  destruct (Z.ltb_spec (Z.of_nat (size m)) count); lia.
Qed.

Lemma victims_length (count : Z) (m : gmap string CacheItem) :
  Z.of_nat (length (victims rt count m)) = Z.max 0 (Z.min count (Z.of_nat (size m))).
Proof.
  rewrite victims_eq, length_take, snapshot_length. lia.
Qed.

Lemma victims_split (count : Z) (m : gmap string CacheItem) :
  ∃ kept, victims rt count m ++ kept = sort_Slice rt (Range rt m).
Proof.
  unfold victims. eexists. apply take_drop.
Qed.

Lemma victims_lookup (count : Z) (m : gmap string CacheItem) k item :
  (k, item) ∈ victims rt count m → m !! k = Some item.
Proof.
  intros Hin. destruct (victims_split count m) as [kept Hk].
  apply elem_of_map_to_list. rewrite <- snapshot_perm, <- Hk.
  apply elem_of_app. by left.
Qed.

Lemma victims_NoDup (count : Z) (m : gmap string CacheItem) :
  NoDup (victims rt count m).*1.
Proof.
  destruct (victims_split count m) as [kept Hk].
  pose proof (NoDup_fst_map_to_list m) as Hnd.
  rewrite <- snapshot_perm, <- Hk, fmap_app in Hnd.
  by apply NoDup_app in Hnd as (?&_&_).
Qed.

(** A removed entry was accessed no later than any entry that stays. *)
Lemma victims_least (count : Z) (m : gmap string CacheItem) x k item :
  x ∈ victims rt count m → m !! k = Some item → k ∉ (victims rt count m).*1 →
  AccessTime x.2 ≤ AccessTime item.
Proof.
  intros Hx Hk Hnot. destruct (victims_split count m) as [kept Heq].
  pose proof (sort_sorted _ rt_ok (Range rt m)) as Hs. rewrite <- Heq in Hs.
  assert ((k, item) ∈ kept) as Hkept.
  { apply elem_of_map_to_list in Hk. rewrite <- snapshot_perm, <- Heq in Hk.
    apply elem_of_app in Hk as [Hk|Hk]; [|done].
    destruct Hnot. apply list_elem_of_fmap. by exists (k, item). }
  apply (StronglySorted_app_1_elem_of access_le _ _ x (k, item) Hs Hx Hkept).
Qed.

Lemma size_after_victims (count : Z) (m : gmap string CacheItem) :
  Z.of_nat (size (delete_keys (victims rt count m).*1 m))
  = Z.of_nat (size m) - Z.of_nat (length (victims rt count m)).
Proof.
  pose proof (size_delete_keys (victims rt count m).*1 m (victims_NoDup count m)) as H.
  rewrite length_fmap in H. rewrite <- H; [lia|].
  intros k Hk. apply list_elem_of_fmap in Hk as ([k' item]&->&Hin).
  simpl. rewrite (victims_lookup _ _ _ _ Hin). by eexists.
Qed.

Lemma evictLRU_post (now count : Z) (c : MultiLevelCache) :
  well_formed c → 0 ≤ itemCount c →
  ∃ c', evictLRU rt now count c = Done c'
        ∧ l1_post c c' (delete_keys (victims rt count (localCache c)).*1 (localCache c))
                  (itemCount c - Z.of_nat (length (victims rt count (localCache c)))).
Proof.
  intros Hwf Hn. unfold evictLRU.
  destruct (Z.ltb_spec (itemCount c) 0); [lia|].
  apply (evict_loop_post now (victims rt count (localCache c)) c Hwf).
Qed.

(** On a consistent state [evictLRU] keeps the counter equal to the size
    and lowers it by [min count size] (nothing for a negative [count]). *)
Lemma evictLRU_count (now count : Z) (c : MultiLevelCache) :
  well_formed c → l1_consistent c →
  ∃ c', evictLRU rt now count c = Done c'
        ∧ config c' = config c ∧ well_formed c' ∧ l1_consistent c'
        ∧ itemCount c' = itemCount c - Z.max 0 (Z.min count (itemCount c)).
Proof.
  intros Hwf Hc. unfold l1_consistent in Hc.
  destruct (evictLRU_post now count c Hwf) as (c'&He&Hp); [lia|].
  exists c'. split; [done|].
  pose proof (l1_post_wf _ _ _ _ Hwf Hp) as Hwf'.
  destruct Hp as (Hcfg&Hm&Hcnt&_).
  split; [done|]. split; [done|].
  unfold l1_consistent. rewrite Hm, Hcnt, size_after_victims, victims_length, Hc.
  split; lia.
Qed.

End Eviction.

(** ** Every operation keeps the state well formed and consistent *)

Lemma l1_post_same (c c' : MultiLevelCache) :
  l1_post c c' (localCache c) (itemCount c) →
  well_formed c → l1_consistent c →
  config c' = config c ∧ well_formed c' ∧ l1_consistent c'
  ∧ itemCount c' = itemCount c ∧ localCache c' = localCache c.
Proof.
  intros Hp Hwf Hc. pose proof (l1_post_wf _ _ _ _ Hwf Hp) as Hwf'.
  destruct Hp as (Hcfg&Hm&Hn&_). unfold l1_consistent in *.
  rewrite Hm, Hn. auto.
Qed.

Lemma redis_send_same (cmd : RedisCmd) (c : MultiLevelCache) :
  well_formed c → l1_consistent c → EnableL2Cache (config c) = true →
  ∃ c', redis_send cmd c = Done c'
        ∧ config c' = config c ∧ well_formed c' ∧ l1_consistent c'
        ∧ itemCount c' = itemCount c ∧ localCache c' = localCache c.
Proof.
  intros Hwf Hc H2. destruct (redis_send_post cmd c) as (c'&Hs&Hp).
  { by apply Hwf. }
  exists c'. split; [done|]. by apply l1_post_same.
Qed.

Lemma l1_consistent_remove (k : string) (c : MultiLevelCache) :
  l1_consistent c → is_Some (localCache c !! k) → l1_consistent (l1_remove k c).
Proof.
  unfold l1_consistent. simpl. intros Hc Hk.
  pose proof (map_size_delete_Some k (localCache c) Hk) as Hs.
  assert (size (localCache c) ≠ 0%nat); [|lia].
  intros H0. apply map_size_empty_inv in H0. rewrite H0 in Hk.
  rewrite lookup_empty in Hk. by destruct Hk.
Qed.

Lemma l1_consistent_store (k : string) (item : CacheItem) (c : MultiLevelCache) :
  l1_consistent c →
  l1_consistent (l1_store k item (match localCache c !! k with
                                  | Some _ => itemCount c
                                  | None => itemCount c + 1
                                  end) c).
Proof.
  unfold l1_consistent. simpl. intros Hc.
  destruct (localCache c !! k) eqn:Hk.
  - rewrite map_size_insert_Some; [done|by eexists].
  - rewrite map_size_insert_None by done. lia.
Qed.

Section Preservation.

Variable rt : Runtime.
Hypothesis rt_ok : RuntimeOk rt.

(** The size check after an insertion. *)
Lemma cap_check_post (now : Z) (c : MultiLevelCache) :
  well_formed c → l1_consistent c →
  ∃ c', (if over_cap c then evictLRU rt now 1 c else Done c) = Done c'
        ∧ config c' = config c ∧ well_formed c' ∧ l1_consistent c'
        ∧ itemCount c' ≤ itemCount c
        ∧ (0 < MaxL1Size (config c) → itemCount c ≤ MaxL1Size (config c) + 1 →
           itemCount c' ≤ MaxL1Size (config c)).
Proof.
  intros Hwf Hc. unfold over_cap.
  destruct (Z.ltb_spec 0 (MaxL1Size (config c))) as [Hmax|Hmax]; simpl.
  - destruct (Z.ltb_spec (MaxL1Size (config c)) (itemCount c)) as [Hov|Hov].
    + destruct (evictLRU_count rt rt_ok now 1 c Hwf Hc) as (c'&He&Hcfg&Hwf'&Hc'&Hn).
      exists c'. split_and!; try done; lia.
    + exists c. split_and!; try done; lia.
  - exists c. split_and!; try done; lia.
Qed.

Lemma Set_preserves key value ttl now ok (c : MultiLevelCache) :
  well_formed c → l1_consistent c →
  preserves c (Set_ rt key value ttl now ok c).
Proof.
  intros Hwf Hc. unfold Set_, preserves.
  set (item := mkCacheItem value (add64 now ttl) now now 0).
  assert (∃ c1,
    (if EnableL1Cache (config c) then
       if over_cap (l1_store key item (match localCache c !! key with
                                       | Some _ => itemCount c
                                       | None => itemCount c + 1 end) c)
       then evictLRU rt now 1 (l1_store key item (match localCache c !! key with
                                       | Some _ => itemCount c
                                       | None => itemCount c + 1 end) c)
       else Done (l1_store key item (match localCache c !! key with
                                       | Some _ => itemCount c
                                       | None => itemCount c + 1 end) c)
     else Done c) = Done c1
    ∧ config c1 = config c ∧ well_formed c1 ∧ l1_consistent c1
    ∧ (within_cap c → within_cap c1)) as (c1&Hc1&Hcfg1&Hwf1&Hcons1&Hcap1).
  { destruct (EnableL1Cache (config c)); [|by exists c].
    set (c0 := l1_store key item _ c).
    destruct (cap_check_post now c0) as (c1&He&Hcfg&Hwf'&Hc'&Hle&Hcap).
    { done. }
    { by apply l1_consistent_store. }
    exists c1. split_and!; try done.
    unfold within_cap. rewrite Hcfg. simpl. intros Hcap0 Hmax.
    specialize (Hcap0 Hmax). apply Hcap; [done|]. subst c0. simpl.
    destruct (localCache c !! key); lia. }
  simpl in Hc1. rewrite Hc1. simpl. rewrite Hcfg1.
  destruct (EnableL2Cache (config c)) eqn:E2; [|by exists None, c1].
  destruct (json_Marshal item); [|by exists (Some ErrMarshal), c1].
  destruct (redis_send_same (CmdSet key p (seconds_to_Duration ttl)) c1)
    as (c2&Hs&Hcfg2&Hwf2&Hcons2&Hn2&Hm2); [done|done|congruence|].
  rewrite Hs. simpl. eexists _, c2. split; [done|].
  split_and!; try done; try congruence.
  unfold within_cap in *. rewrite Hcfg2, Hn2, Hcfg1. rewrite Hcfg1 in Hcap1. auto.
Qed.

Lemma l1_lookup_post key now (c : MultiLevelCache) r c1 :
  well_formed c → l1_consistent c → l1_lookup key now c = (r, c1) →
  config c1 = config c ∧ well_formed c1 ∧ l1_consistent c1
  ∧ itemCount c1 ≤ itemCount c
  ∧ (r = None → EnableL1Cache (config c) = true → localCache c1 !! key = None).
Proof.
  intros Hwf Hc. unfold l1_lookup.
  destruct (EnableL1Cache (config c)); [|intros [= <- <-]; split_and!; done].
  destruct (localCache c !! key) as [item|] eqn:Hk;
    [|intros [= <- <-]; split_and!; done].
  destruct (now <? ExpireTime item); intros [= <- <-].
  - split_and!; try done.
    unfold l1_consistent in *. simpl. rewrite map_size_insert_Some; [done|by eexists].
  - split_and!; try done.
    + apply l1_consistent_remove; [done|by eexists].
    + simpl. lia.
    + intros _ _. simpl. apply lookup_delete_eq.
Qed.

Lemma promote_post key item now (c : MultiLevelCache) :
  well_formed c → l1_consistent c →
  (EnableL1Cache (config c) = true → localCache c !! key = None) →
  ∃ c', promote rt key item now c = Done c'
        ∧ config c' = config c ∧ well_formed c' ∧ l1_consistent c'
        ∧ (within_cap c → within_cap c').
Proof.
  intros Hwf Hc Hk. unfold promote.
  destruct (EnableL1Cache (config c)); [|by exists c].
  destruct (proj1 (proj2 Hwf)) as [ps Hps]. rewrite Hps.
  destruct (ShouldPromote ps item now); [|by exists c].
  set (c0 := l1_store key item (itemCount c + 1) c).
  destruct (cap_check_post now c0) as (c1&He&Hcfg&Hwf'&Hc'&Hle&Hcap).
  { exact Hwf. }
  { pose proof (l1_consistent_store key item c Hc) as Hs.
    by rewrite (Hk eq_refl) in Hs. }
  exists c1. split_and!; try done.
  unfold within_cap. rewrite Hcfg. simpl. intros Hcap0 Hmax.
  specialize (Hcap0 Hmax). apply Hcap; [done|]. subst c0. simpl. lia.
Qed.

Lemma Get_preserves key now reply (c : MultiLevelCache) :
  well_formed c → l1_consistent c →
  preserves c (Get rt key now reply c).
Proof.
  intros Hwf Hc. unfold Get, preserves.
  destruct (l1_lookup key now c) as [r c1] eqn:Hl.
  destruct (l1_lookup_post _ _ _ _ _ Hwf Hc Hl) as (Hcfg1&Hwf1&Hc1&Hle1&Hnone).
  assert (within_cap c → within_cap c1) as Hcap1.
  { unfold within_cap. rewrite Hcfg1. intros H Hm. specialize (H Hm). lia. }
  destruct r as [item|]; [by eexists _, c1|].
  destruct (EnableL2Cache (config c1)) eqn:E2; [|by eexists _, c1].
  destruct (redis_send_same (CmdGet key) c1)
    as (c2&Hs&Hcfg2&Hwf2&Hc2&Hn2&Hm2); [done..|].
  rewrite Hs, bind_Done.
  assert (within_cap c → within_cap c2) as Hcap2.
  { unfold within_cap in *. rewrite Hcfg2, Hn2. auto. }
  assert (config c2 = config c) as Hcfg2' by congruence.
  destruct reply as [p| |]; try by eexists _, c2.
  destruct (json_Unmarshal p) as [item0|]; [|by eexists _, c2].
  destruct (now <? ExpireTime item0); [|by eexists _, c2].
  destruct (promote_post key (touch now item0) now c2) as (c3&Hp&Hcfg3&Hwf3&Hc3&Hcap3);
    [done|done| |].
  { rewrite Hm2, Hcfg2, Hcfg1. by apply Hnone. }
  rewrite Hp, bind_Done.
  destruct (redis_send_same
              (CmdSet key (marshal_or_empty (touch now item0))
                 (seconds_to_Duration (sub64 (ExpireTime (touch now item0)) now))) c3)
    as (c4&Hs4&Hcfg4&Hwf4&Hc4&Hn4&Hm4); [done|done|congruence|].
  rewrite Hs4, bind_Done. eexists _, c4. split; [done|].
  split_and!; try done; try congruence.
  intros Hcap. specialize (Hcap3 (Hcap2 Hcap)).
  unfold within_cap in *. rewrite Hcfg4, Hn4. auto.
Qed.

Lemma GetWithTTL_preserves key now ttl_reply reply (c : MultiLevelCache) :
  well_formed c → l1_consistent c →
  preserves c (GetWithTTL rt key now ttl_reply reply c).
Proof.
  intros Hwf Hc. unfold GetWithTTL, preserves.
  destruct (l1_lookup key now c) as [r c1] eqn:Hl.
  destruct (l1_lookup_post _ _ _ _ _ Hwf Hc Hl) as (Hcfg1&Hwf1&Hc1&Hle1&Hnone).
  assert (within_cap c → within_cap c1) as Hcap1.
  { unfold within_cap. rewrite Hcfg1. intros H Hm. specialize (H Hm). lia. }
  destruct r as [item|]; [by eexists _, c1|].
  destruct (EnableL2Cache (config c1)) eqn:E2; [|by eexists _, c1].
  destruct (redis_send_same (CmdTTL key) c1)
    as (c2&Hs&Hcfg2&Hwf2&Hc2&Hn2&Hm2); [done..|].
  rewrite Hs, bind_Done.
  assert (within_cap c → within_cap c2) as Hcap2.
  { unfold within_cap in *. rewrite Hcfg2, Hn2. auto. }
  assert (config c2 = config c) as Hcfg2' by congruence.
  destruct ttl_reply as [secs|]; [|by eexists _, c2].
  destruct (seconds_to_Duration secs <=? 0); [by eexists _, c2|].
  destruct (redis_send_same (CmdGet key) c2)
    as (c3&Hs3&Hcfg3&Hwf3&Hc3&Hn3&Hm3); [done|done|congruence|].
  rewrite Hs3, bind_Done.
  assert (within_cap c → within_cap c3) as Hcap3.
  { unfold within_cap in *. rewrite Hcfg3, Hn3. auto. }
  assert (config c3 = config c) as Hcfg3' by congruence.
  destruct reply as [p| |]; try by eexists _, c3.
  destruct (json_Unmarshal p) as [item0|]; [|by eexists _, c3].
  destruct (promote_post key (touch now item0) now c3) as (c4&Hp&Hcfg4&Hwf4&Hc4&Hcap4);
    [done|done| |].
  { rewrite Hm3, Hm2, Hcfg3, Hcfg2, Hcfg1. by apply Hnone. }
  rewrite Hp, bind_Done.
  destruct (redis_send_same
              (CmdSet key (marshal_or_empty (touch now item0))
                 (seconds_to_Duration secs)) c4)
    as (c5&Hs5&Hcfg5&Hwf5&Hc5&Hn5&Hm5); [done|done|congruence|].
  rewrite Hs5, bind_Done. eexists _, c5. split; [done|].
  split_and!; try done; try congruence.
  intros Hcap. specialize (Hcap4 (Hcap3 Hcap)).
  unfold within_cap in *. rewrite Hcfg5, Hn5. auto.
Qed.

Lemma SetWithExpiration_preserves key value expiration now ok (c : MultiLevelCache) :
  well_formed c → l1_consistent c →
  preserves c (SetWithExpiration rt key value expiration now ok c).
Proof.
  intros Hwf Hc. unfold SetWithExpiration.
  destruct (expiration <=? now); [by exists None, c|].
  by apply Set_preserves.
Qed.

End Preservation.

Lemma Delete_preserves key ok (c : MultiLevelCache) :
  well_formed c → l1_consistent c → preserves c (Delete key ok c).
Proof.
  intros Hwf Hc. unfold Delete, preserves.
  set (c1 := if EnableL1Cache (config c) then _ else c).
  assert (config c1 = config c ∧ well_formed c1 ∧ l1_consistent c1
          ∧ itemCount c1 ≤ itemCount c) as (Hcfg1&Hwf1&Hc1&Hle1).
  { subst c1. destruct (EnableL1Cache (config c)); [|split_and!; done].
    destruct (localCache c !! key) eqn:Hk; [|split_and!; done].
    split_and!; try done.
    - apply l1_consistent_remove; [done|by eexists].
    - simpl. lia. }
  assert (within_cap c → within_cap c1) as Hcap1.
  { unfold within_cap. rewrite Hcfg1. intros H Hm. specialize (H Hm). lia. }
  destruct (EnableL2Cache (config c1)) eqn:E2; [|by eexists _, c1].
  destruct (redis_send_same (CmdDel key) c1)
    as (c2&Hs&Hcfg2&Hwf2&Hc2&Hn2&Hm2); [done..|].
  rewrite Hs. simpl. eexists _, c2. split; [done|].
  split_and!; try done; try congruence.
  unfold within_cap in *. rewrite Hcfg2, Hn2. auto.
Qed.

Lemma Clear_preserves ok (c : MultiLevelCache) :
  well_formed c → l1_consistent c → preserves c (Clear ok c).
Proof.
  intros Hwf Hc. unfold Clear, preserves.
  set (c1 := if EnableL1Cache (config c) then _ else c).
  assert (config c1 = config c ∧ well_formed c1 ∧ l1_consistent c1
          ∧ (within_cap c → within_cap c1)) as (Hcfg1&Hwf1&Hc1&Hcap1).
  { subst c1. destruct (EnableL1Cache (config c)); [|split_and!; done].
    split_and!; try done. unfold within_cap. simpl. lia. }
  destruct (EnableL2Cache (config c1)) eqn:E2; [|by eexists _, c1].
  destruct (redis_send_same CmdFlushDB c1)
    as (c2&Hs&Hcfg2&Hwf2&Hc2&Hn2&Hm2); [done..|].
  rewrite Hs. simpl. eexists _, c2. split; [done|].
  split_and!; try done; try congruence.
  unfold within_cap in *. rewrite Hcfg2, Hn2. auto.
Qed.

(** ** The maintenance sweep *)

Lemma collect_keys_post (now : Z) (ds : Strategy) (snapshot : list itemWithKey) :
  ∃ keysToDelete keysToDemote,
    collect_keys now (Some ds) snapshot = Done (keysToDelete, keysToDemote)
    ∧ keysToDelete `sublist_of` snapshot.*1
    ∧ keysToDemote `sublist_of` snapshot.*1.
Proof.
  induction snapshot as [|[k item] rest (kd&km&IH&Hd&Hm)]; simpl.
  - by exists [], [].
  - rewrite IH. destruct (ExpireTime item <=? now); simpl.
    + exists (k :: kd), km. split_and!; [done|by apply sublist_skip|by apply sublist_cons].
    + destruct (ShouldDemote ds item now).
      * exists kd, (k :: km).
        split_and!; [done|by apply sublist_cons|by apply sublist_skip].
      * exists kd, km. split_and!; [done|by apply sublist_cons..].
Qed.

Lemma delete_loop_post (keys : list string) (c : MultiLevelCache) :
  l1_post c (delete_loop keys c) (delete_keys keys (localCache c))
          (itemCount c - Z.of_nat (length keys)).
Proof.
  revert c. induction keys as [|k keys IH]; intros c.
  - simpl. rewrite Z.sub_0_r. apply l1_post_refl.
  - pose proof (l1_post_trans _ _ _ _ _ _ _ (l1_remove_post k c)
                  (IH (l1_remove k c))) as H.
    simpl in H. cbn [delete_loop delete_keys foldl length].
    assert (itemCount c - Z.of_nat (S (length keys))
            = itemCount c - 1 - Z.of_nat (length keys)) as -> by lia.
    exact H.
Qed.

Lemma demote_loop_post (now : Z) (keys : list string) (c : MultiLevelCache) :
  well_formed c → l1_consistent c →
  ∃ c', demote_loop now keys c = Done c'
        ∧ config c' = config c ∧ well_formed c' ∧ l1_consistent c'
        ∧ itemCount c' ≤ itemCount c.
Proof.
  revert c. induction keys as [|k keys IH]; intros c Hwf Hc; simpl.
  - exists c. split_and!; try done.
  - destruct (localCache c !! k) as [item|] eqn:Hk; [|by apply IH].
    destruct (spill_post now k item c Hwf) as (c1&Hs&Hp).
    destruct (l1_post_same _ _ Hp Hwf Hc) as (Hcfg1&Hwf1&Hc1&Hn1&Hm1).
    rewrite Hs, bind_Done.
    destruct (IH (l1_remove k c1)) as (c'&Hd&Hcfg&Hwf'&Hc'&Hle).
    { exact Hwf1. }
    { apply l1_consistent_remove; [done|]. rewrite Hm1. by eexists. }
    exists c'. split_and!; try done; [simpl in Hcfg; congruence|simpl in Hle; lia].
Qed.

Section Maintenance.

Variable rt : Runtime.
Hypothesis rt_ok : RuntimeOk rt.

Lemma sweep_post (now : Z) (c : MultiLevelCache) :
  well_formed c → l1_consistent c →
  ∃ c', sweep rt now c = Done c'
        ∧ config c' = config c ∧ well_formed c' ∧ l1_consistent c'
        ∧ itemCount c' ≤ itemCount c.
Proof.
  intros Hwf Hc. unfold sweep.
  destruct (proj2 (proj2 Hwf)) as [ds Hds]. rewrite Hds.
  destruct (collect_keys_post now ds (Range rt (localCache c)))
    as (kd&km&Hcol&Hkd&Hkm).
  rewrite Hcol, bind_Done.
  pose proof (delete_loop_post kd c) as Hp.
  assert (NoDup (Range rt (localCache c)).*1) as Hnd.
  { rewrite (Range_perm _ rt_ok). apply NoDup_fst_map_to_list. }
  assert (∀ k, k ∈ kd → is_Some (localCache c !! k)) as Hin.
  { intros k Hk. apply (elem_of_sublist _ _ _ Hk) in Hkd as Hk'. clear Hk.
    rename Hk' into Hk.
    apply list_elem_of_fmap in Hk as ([k' item]&->&Hk).
    rewrite (Range_perm _ rt_ok) in Hk. apply elem_of_map_to_list in Hk.
    by eexists. }
  pose proof (size_delete_keys kd (localCache c) (sublist_NoDup _ _ Hnd Hkd) Hin) as Hsz.
  destruct (demote_loop_post now km (delete_loop kd c)) as (c'&Hd&Hcfg&Hwf'&Hc'&Hle).
  { eapply l1_post_wf; [exact Hwf|exact Hp]. }
  { destruct Hp as (_&Hm&Hn&_). unfold l1_consistent in *. rewrite Hm, Hn. lia. }
  exists c'. destruct Hp as (Hcfg0&_&Hn&_).
  split_and!; try done; [congruence|lia].
Qed.

(** A tick ends within the cap, whatever the count was before. *)
Lemma cleanupExpiredItems_post (now : Z) (c : MultiLevelCache) :
  well_formed c → l1_consistent c →
  ∃ c', cleanupExpiredItems rt now c = Done c'
        ∧ config c' = config c ∧ well_formed c' ∧ l1_consistent c'
        ∧ within_cap c' ∧ itemCount c' ≤ itemCount c.
Proof.
  intros Hwf Hc. unfold cleanupExpiredItems.
  destruct (sweep_post now c Hwf Hc) as (c1&Hs&Hcfg1&Hwf1&Hc1&Hle1).
  rewrite Hs, bind_Done. unfold over_cap, within_cap.
  destruct (Z.ltb_spec 0 (MaxL1Size (config c1))) as [Hmax|Hmax]; simpl.
  - destruct (Z.ltb_spec (MaxL1Size (config c1)) (itemCount c1)) as [Hov|Hov].
    + destruct (evictLRU_count rt rt_ok now (itemCount c1 - MaxL1Size (config c1))
                  c1 Hwf1 Hc1) as (c'&He&Hcfg&Hwf'&Hc'&Hn).
      exists c'. split_and!; try done; [congruence|rewrite Hcfg; lia|lia].
    + exists c1. split_and!; try done; lia.
  - exists c1. split_and!; try done; lia.
Qed.

End Maintenance.

Lemma Close_post (ok : bool) (c c' : MultiLevelCache) (e : option error) :
  Close ok c = Done (e, c') →
  well_formed c → l1_consistent c →
  config c' = config c ∧ well_formed c' ∧ l1_consistent c'
  ∧ (within_cap c → within_cap c').
Proof.
  unfold Close. intros H Hwf Hc.
  assert (∀ c1, config c1 = config c → localCache c1 = localCache c →
                itemCount c1 = itemCount c →
                (is_Some (redisClient c) → is_Some (redisClient c1)) →
                config c1 = config c ∧ well_formed c1 ∧ l1_consistent c1
                ∧ (within_cap c → within_cap c1)) as Hsame.
  { intros c1 Hcfg Hm Hn Hrc. split; [done|]. split.
    - destruct Hwf as (H2&Hp&Hd). unfold well_formed. rewrite Hcfg. auto.
    - unfold l1_consistent, within_cap in *. rewrite Hcfg, Hm, Hn. auto. }
  destruct (cleanupTicker c).
  - destruct (stopCleanup c); [|done]. rewrite bind_Done in H. simpl in H.
    destruct (EnableL2Cache (config c)); [destruct (redisClient c) eqn:Hrc|];
      injection H as _ <-; apply Hsame; simpl; try done;
      first [intros _; by eexists | by rewrite Hrc].
  - rewrite bind_Done in H.
    destruct (EnableL2Cache (config c)); [destruct (redisClient c) eqn:Hrc|];
      injection H as _ <-; apply Hsame; simpl; try done;
      first [intros _; by eexists | by rewrite Hrc].
Qed.

Lemma NewMultiLevelCache_post (cfg : CacheConfig) (ping_ok : bool) (c : MultiLevelCache) :
  NewMultiLevelCache cfg ping_ok = inr c →
  well_formed c ∧ l1_consistent c ∧ within_cap c
  ∧ localCache c = ∅ ∧ itemCount c = 0
  ∧ cleanupTicker c = EnableL1Cache cfg ∧ stopCleanup c = ChanOpen
  ∧ EnableL1Cache (config c) = EnableL1Cache cfg
  ∧ EnableL2Cache (config c) = EnableL2Cache cfg
  ∧ MaxL1Size (config c) = MaxL1Size cfg.
Proof.
  unfold NewMultiLevelCache. intros H.
  assert (∀ client, (EnableL2Cache cfg = true → is_Some client) →
    inr (B := MultiLevelCache) (A := error)
      (mkMultiLevelCache (with_default_strategies cfg) ∅ client 0
                         (EnableL1Cache cfg) ChanOpen) = inr c →
    well_formed c ∧ l1_consistent c ∧ within_cap c
    ∧ localCache c = ∅ ∧ itemCount c = 0
    ∧ cleanupTicker c = EnableL1Cache cfg ∧ stopCleanup c = ChanOpen
    ∧ EnableL1Cache (config c) = EnableL1Cache cfg
    ∧ EnableL2Cache (config c) = EnableL2Cache cfg
    ∧ MaxL1Size (config c) = MaxL1Size cfg) as Hbuild.
  { intros client Hcl [= <-]. split_and!; try done.
    - split_and!; simpl; [done|..].
      + destruct (PromotionStrategy cfg); by eexists.
      + destruct (DemotionStrategy cfg); by eexists.
    - unfold within_cap. simpl. lia. }
  destruct (EnableL2Cache cfg) eqn:E2.
  - destruct (RedisOptions cfg); [|done]. destruct ping_ok; [|done].
    apply (Hbuild _ (λ _, mk_is_Some _ _ eq_refl) H).
  - apply (Hbuild None); [done|exact H].
Qed.

(** Every state of a sequential run is well formed, consistent and,
    when there is a cap, within it. *)
Lemma Step_invariant (c c' : MultiLevelCache) :
  Step c c' → well_formed c → l1_consistent c →
  config c' = config c ∧ well_formed c' ∧ l1_consistent c'
  ∧ (within_cap c → within_cap c').
Proof.
  assert (∀ A (r : Outcome (A * MultiLevelCache)) a,
            preserves c r → r = Done (a, c') →
            config c' = config c ∧ well_formed c' ∧ l1_consistent c'
            ∧ (within_cap c → within_cap c')) as Hpres.
  { intros A r a (a'&c''&->&H) [= _ <-]. exact H. }
  intros Hstep Hwf Hc. destruct Hstep as
    [rt key value ttl now ok e Hrt H | rt key now reply v Hrt H
    | rt key now tr reply v Hrt H | key ok e H | ok e H
    | rt key value ex now ok e Hrt H | ok e H | rt now Hrt Ht Hch H].
  - eapply Hpres; [|exact H]. by apply Set_preserves.
  - eapply Hpres; [|exact H]. by apply Get_preserves.
  - eapply Hpres; [|exact H]. by apply GetWithTTL_preserves.
  - eapply Hpres; [|exact H]. by apply Delete_preserves.
  - eapply Hpres; [|exact H]. by apply Clear_preserves.
  - eapply Hpres; [|exact H]. by apply SetWithExpiration_preserves.
  - by apply (Close_post ok c c' e).
  - destruct (cleanupExpiredItems_post rt Hrt now c Hwf Hc)
      as (c''&He&Hcfg&Hwf'&Hc'&Hcap&_).
    rewrite He in H. injection H as <-. by split_and!.
Qed.

Lemma Reachable_invariant (c : MultiLevelCache) :
  Reachable c → well_formed c ∧ l1_consistent c ∧ within_cap c.
Proof.
  induction 1 as [cfg ping c Hnew | c c' Hr (Hwf&Hc&Hcap) Hstep].
  - destruct (NewMultiLevelCache_post _ _ _ Hnew) as (?&?&?&_). by split_and!.
  - destruct (Step_invariant _ _ Hstep Hwf Hc) as (_&?&?&Hk). split_and!; auto.
Qed.

(** ** Numbers and strings through JSON *)

Lemma round_float64_small (n : Z) : Z.abs n < 2 ^ 53 → round_float64 n = n.
Proof.
  intros H. unfold round_float64. destruct (Z.ltb_spec (Z.abs n) (2 ^ 53)); [done|lia].
Qed.

Lemma round_float64_big (a : Z) :
  2 ^ 53 ≤ a →
  let e := Z.log2 a - 52 in
  let q := a / 2 ^ e in
  1 ≤ e ∧ 2 ^ 52 ≤ q < 2 ^ 53 ∧ 0 ≤ a mod 2 ^ e < 2 ^ e.
Proof.
  intros Ha e q.
  assert (53 ≤ Z.log2 a) as Hlog.
  { apply Z.log2_le_pow2; lia. }
  assert (1 ≤ e) as He by (subst e; lia).
  destruct (Z.log2_spec a) as [Hlo Hhi]; [lia|].
  assert (0 < 2 ^ e) as Hpos by (apply Z.pow_pos_nonneg; lia).
  replace (Z.log2 a) with (52 + e) in Hlo by (subst e; lia).
  replace (Z.succ (Z.log2 a)) with (53 + e) in Hhi by (subst e; lia).
  rewrite Z.pow_add_r in Hlo, Hhi by lia.
  split; [done|]. split.
  - subst q. split.
    + apply Z.div_le_lower_bound; lia.
    + apply Z.div_lt_upper_bound; lia.
  - apply Z.mod_pos_bound. lia.
Qed.

Lemma round_float64_idempotent (n : Z) :
  round_float64 (round_float64 n) = round_float64 n.
Proof.
  destruct (Z.ltb_spec (Z.abs n) (2 ^ 53)) as [Hsmall|Hbig].
  { by rewrite !(round_float64_small n Hsmall). }
  assert (round_float64 n
          = Z.sgn n
            * ((if (2 ^ (Z.log2 (Z.abs n) - 52 - 1) <? Z.abs n mod 2 ^ (Z.log2 (Z.abs n) - 52))
                   || ((Z.abs n mod 2 ^ (Z.log2 (Z.abs n) - 52)
                        =? 2 ^ (Z.log2 (Z.abs n) - 52 - 1))
                       && Z.odd (Z.abs n / 2 ^ (Z.log2 (Z.abs n) - 52)))
                then Z.abs n / 2 ^ (Z.log2 (Z.abs n) - 52) + 1
                else Z.abs n / 2 ^ (Z.log2 (Z.abs n) - 52))
               * 2 ^ (Z.log2 (Z.abs n) - 52))) as ->.
  { unfold round_float64. destruct (Z.ltb_spec (Z.abs n) (2 ^ 53)); [lia|done]. }
  destruct (round_float64_big (Z.abs n) Hbig) as (He&Hq&Hr).
  set (e := Z.log2 (Z.abs n) - 52) in *.
  set (q := Z.abs n / 2 ^ e) in *.
  set (r := Z.abs n mod 2 ^ e) in *.
  set (q' := if (2 ^ (e - 1) <? r) || ((r =? 2 ^ (e - 1)) && Z.odd q) then q + 1 else q).
  assert (2 ^ 52 ≤ q' ≤ 2 ^ 53) as Hq'.
  { subst q'. destruct (_ || _); lia. }
  assert (0 < 2 ^ e) as Hpos by (apply Z.pow_pos_nonneg; lia).
  assert (2 ^ e = 2 * 2 ^ (e - 1)) as Hsplit.
  { replace e with (1 + (e - 1)) at 1 by lia. rewrite Z.pow_add_r by lia. done. }
  assert (0 < 2 ^ (e - 1)) as Hpos' by (apply Z.pow_pos_nonneg; lia).
  set (m := q' * 2 ^ e).
  assert (2 ^ 53 ≤ m) as Hm by (subst m; nia).
  assert (Z.abs (Z.sgn n * m) = m) as Habs.
  { destruct (Z.sgn_spec n) as [[? ->]|[[? ->]|[? ->]]]; lia. }
  assert (Z.sgn (Z.sgn n * m) = Z.sgn n) as Hsgn.
  { destruct (Z.sgn_spec n) as [[? Hs]|[[? Hs]|[? Hs]]]; rewrite Hs; lia. }
  unfold round_float64. rewrite Habs, Hsgn.
  destruct (Z.ltb_spec m (2 ^ 53)); [lia|].
  destruct (decide (q' = 2 ^ 53)) as [Hmax|Hlt].
  - assert (Z.log2 m = 53 + e) as Hlog.
    { apply Z.log2_unique; [lia|]. subst m. unfold Z.succ.
      rewrite Hmax, !Z.pow_add_r by lia. change (2 ^ 1) with 2. lia. }
    rewrite Hlog. replace (53 + e - 52) with (e + 1) by lia.
    replace (e + 1 - 1) with e by lia.
    assert (m = 2 ^ 52 * 2 ^ (e + 1)) as Hm2.
    { subst m. rewrite Hmax, Z.pow_add_r by lia. change (2 ^ 1) with 2. lia. }
    assert (0 < 2 ^ (e + 1)) by (apply Z.pow_pos_nonneg; lia).
    assert (m / 2 ^ (e + 1) = 2 ^ 52) as -> by (rewrite Hm2; apply Z.div_mul; lia).
    assert (m mod 2 ^ (e + 1) = 0) as -> by (rewrite Hm2; apply Z.mod_mul; lia).
    destruct (Z.ltb_spec (2 ^ e) 0); [lia|].
    destruct (Z.eqb_spec 0 (2 ^ e)); [lia|]. cbn [orb andb].
    by rewrite Hm2.
  - assert (Z.log2 m = 52 + e) as Hlog.
    { apply Z.log2_unique; [lia|]. subst m. unfold Z.succ.
      rewrite !Z.pow_add_r by lia. change (2 ^ 1) with 2. nia. }
    rewrite Hlog. replace (52 + e - 52) with e by lia.
    assert (m / 2 ^ e = q') as -> by (subst m; apply Z.div_mul; lia).
    assert (m mod 2 ^ e = 0) as -> by (subst m; apply Z.mod_mul; lia).
    destruct (Z.ltb_spec (2 ^ (e - 1)) 0); [lia|].
    destruct (Z.eqb_spec 0 (2 ^ (e - 1))); [lia|]. cbn [orb andb].
    done.
Qed.

Lemma round_float64_abs_le (n : Z) : Z.abs (round_float64 n) ≤ 2 * Z.abs n.
Proof.
  destruct (Z.ltb_spec (Z.abs n) (2 ^ 53)) as [Hsmall|Hbig].
  { rewrite (round_float64_small n Hsmall). lia. }
  destruct (round_float64_big (Z.abs n) Hbig) as (He&Hq&Hr).
  unfold round_float64. destruct (Z.ltb_spec (Z.abs n) (2 ^ 53)); [lia|].
  set (e := Z.log2 (Z.abs n) - 52) in *.
  set (q := Z.abs n / 2 ^ e) in *.
  set (r := Z.abs n mod 2 ^ e) in *.
  set (q' := if (2 ^ (e - 1) <? r) || ((r =? 2 ^ (e - 1)) && Z.odd q) then q + 1 else q).
  assert (2 ^ 52 ≤ q' ≤ q + 1) as Hq'.
  { subst q'. destruct (_ || _); lia. }
  assert (0 < 2 ^ e) as Hpos by (apply Z.pow_pos_nonneg; lia).
  assert (Z.abs n = 2 ^ e * q + r) as Hdiv.
  { subst q r. apply Z.div_mod. lia. }
  assert (Z.abs (Z.sgn n * (q' * 2 ^ e)) = q' * 2 ^ e) as ->.
  { destruct (Z.sgn_spec n) as [[? ->]|[[? ->]|[? ->]]]; nia. }
  nia.
Qed.

(** The float64 nearest to a 64-bit integer is finite. *)
Lemma round_float64_finite (n : Z) :
  int64_ok n → float64_finite (round_float64 n) = true.
Proof.
  unfold int64_ok, min_int64, max_int64, float64_finite. intros Hn.
  pose proof (round_float64_abs_le n) as Hle.
  apply Z.ltb_lt.
  assert (2 ^ 64 < 2 ^ 1024) by (apply Z.pow_lt_mono_r; lia).
  lia.
Qed.

Lemma utf8_step1 a r :
  utf8_ascii a = true → to_valid_utf8 (String a r) = String a (to_valid_utf8 r).
Proof. intros H. cbn [to_valid_utf8]. by rewrite H. Qed.

Lemma utf8_step2 a b r :
  utf8_ascii a = false → utf8_lead2 a && utf8_cont b = true →
  to_valid_utf8 (String a (String b r)) = String a (String b (to_valid_utf8 r)).
Proof. intros H1 H2. cbn [to_valid_utf8]. by rewrite H1, H2. Qed.

Lemma utf8_step3 a b c r :
  utf8_ascii a = false → utf8_lead2 a && utf8_cont b = false →
  utf8_lead3 a b && utf8_cont c = true →
  to_valid_utf8 (String a (String b (String c r)))
  = String a (String b (String c (to_valid_utf8 r))).
Proof. intros H1 H2 H3. cbn [to_valid_utf8]. by rewrite H1, H2, H3. Qed.

Lemma utf8_step4 a b c d r :
  utf8_ascii a = false → utf8_lead2 a && utf8_cont b = false →
  utf8_lead3 a b && utf8_cont c = false →
  utf8_lead4 a b && utf8_cont c && utf8_cont d = true →
  to_valid_utf8 (String a (String b (String c (String d r))))
  = String a (String b (String c (String d (to_valid_utf8 r)))).
Proof. intros H1 H2 H3 H4. cbn [to_valid_utf8]. by rewrite H1, H2, H3, H4. Qed.

Lemma utf8_RuneError r : to_valid_utf8 (RuneError r) = RuneError (to_valid_utf8 r).
Proof. unfold RuneError. by apply utf8_step3. Qed.

Lemma to_valid_utf8_idempotent_below (n : nat) :
  ∀ s, (String.length s ≤ n)%nat → to_valid_utf8 (to_valid_utf8 s) = to_valid_utf8 s.
Proof.
  induction n as [|n IH]; intros s Hlen.
  { destruct s; [done|]. simpl in Hlen. lia. }
  destruct s as [|a r0]; [done|]. simpl in Hlen.
  assert (Hbad : to_valid_utf8 (RuneError (to_valid_utf8 r0)) = RuneError (to_valid_utf8 r0)).
  { rewrite utf8_RuneError, IH; [done|lia]. }
  cbn [to_valid_utf8].
  destruct (utf8_ascii a) eqn:H1.
  { rewrite utf8_step1, IH; [done|lia|done]. }
  destruct r0 as [|b r1]; [done|]. simpl in Hlen.
  destruct (utf8_lead2 a && utf8_cont b) eqn:H2.
  { rewrite utf8_step2, IH; [done|lia|done..]. }
  destruct r1 as [|c r2]; [done|]. simpl in Hlen.
  destruct (utf8_lead3 a b && utf8_cont c) eqn:H3.
  { rewrite utf8_step3, IH; [done|lia|done..]. }
  destruct r2 as [|d r3]; [done|]. simpl in Hlen.
  destruct (utf8_lead4 a b && utf8_cont c && utf8_cont d) eqn:H4; [|done].
  rewrite utf8_step4, IH; [done|lia|done..].
Qed.

Lemma to_valid_utf8_idempotent s : to_valid_utf8 (to_valid_utf8 s) = to_valid_utf8 s.
Proof. by apply (to_valid_utf8_idempotent_below (String.length s)). Qed.

Lemma to_valid_utf8_valid (s : string) : valid_utf8 (to_valid_utf8 s).
Proof. apply to_valid_utf8_idempotent. Qed.

(** A value of the fragment that encodes decodes again, to the value
    JSON keeps of it. *)
Lemma unmarshal_marshal_value (v : GoValue) (jv : JValue) :
  GoValue_ok v → marshal_value v = Some jv →
  ∃ v', unmarshal_value jv = Some v'
        ∧ (json_native v → v' = v)
        ∧ (∀ n, v = VInt n → v' = VFloat64 (round_float64 n))
        ∧ (∀ s, v = VString s → v' = VString (to_valid_utf8 s)).
Proof.
  intros Hok Hv.
  destruct v as [|b|n|n|s|id]; simpl in *; try done; injection Hv as <-; simpl.
  - eexists. split_and!; done.
  - eexists. split_and!; done.
  - rewrite round_float64_finite by done. eexists. split_and!; [done|done| |done].
    by intros ? [= <-].
  - destruct Hok as [-> ->]. eexists. split_and!; done.
  - rewrite to_valid_utf8_idempotent. eexists. split_and!; [done| |done|].
    + intros Hs. by rewrite Hs.
    + by intros ? [= <-].
Qed.

Lemma json_native_ok (v : GoValue) : json_native v → GoValue_ok v.
Proof. by destruct v. Qed.

(** What decodes from the bytes of an envelope carries its four
    numbers. *)
Lemma json_Unmarshal_Marshal_numbers (item item' : CacheItem) (p : Payload) :
  json_Marshal item = Some p → json_Unmarshal p = Some item' →
  ExpireTime item' = ExpireTime item ∧ CreateTime item' = CreateTime item
  ∧ AccessTime item' = AccessTime item ∧ AccessCount item' = AccessCount item.
Proof.
  unfold json_Marshal. destruct (marshal_value (Value item)) as [jv|]; [|done].
  intros [= <-]. unfold json_Unmarshal. simpl.
  destruct (_ && _); [|done]. destruct (unmarshal_value jv); [|done].
  by intros [= <-].
Qed.

(** An envelope with a native value comes back from its bytes as it
    is. *)
Lemma json_Unmarshal_Marshal_native (item : CacheItem) (p : Payload) :
  item_int64_ok item → json_native (Value item) →
  json_Marshal item = Some p → json_Unmarshal p = Some item.
Proof.
  destruct item as [v ex cr ac cnt]. intros (He&Hc&Ha&Hn) Hnat. simpl in *.
  unfold json_Marshal. simpl.
  destruct (marshal_value v) as [jv|] eqn:Hv; [|done]. intros [= <-].
  destruct (unmarshal_marshal_value v jv (json_native_ok v Hnat) Hv) as (v'&Hu&Hsame&_).
  unfold json_Unmarshal. simpl.
  apply int64_okb_true in He, Hc, Ha, Hn. rewrite He, Hc, Ha, Hn, Hu. simpl.
  by rewrite Hsame.
Qed.

(** * The properties *)

(** ** Placement policy *)

Lemma Frequency_ShouldPromote_wrapped (threshold window idle : Z) (item : CacheItem) (now : Z) :
  ShouldPromote (NewFrequencyBasedStrategy threshold window idle) item now = true
  ↔ 0 < threshold ∧ 0 < window ∧ sub64 now (CreateTime item) ≤ window
    ∧ threshold ≤ AccessCount item.
Proof.
  simpl. destruct (Z.ltb_spec 0 threshold), (Z.ltb_spec 0 window); simpl;
    rewrite ?andb_true_iff, ?Z.leb_le; first [tauto | split; [done|lia]].
Qed.

Lemma Frequency_ShouldDemote_wrapped (threshold window idle : Z) (item : CacheItem) (now : Z) :
  ShouldDemote (NewFrequencyBasedStrategy threshold window idle) item now = true
  ↔ 0 < idle ∧ idle ≤ sub64 now (AccessTime item).
Proof.
  simpl. destruct (Z.ltb_spec 0 idle); rewrite ?Z.leb_le; [tauto|].
  split; [done|lia].
Qed.

(** The two differences are 64-bit subtractions.  For an entry created
    and last read at the least int64 second and a clock reading of 1 they
    wrap to a negative number: the policy (3, 60, 300) promotes the entry
    although now - create_time exceeds the window, and does not demote it
    although now - access_time exceeds the idle time. *)
Lemma frequency_policy_wraps :
  ¬ (∀ threshold window idle item now, item_int64_ok item → int64_ok now →
       (ShouldPromote (NewFrequencyBasedStrategy threshold window idle) item now = true
        ↔ 0 < threshold ∧ 0 < window ∧ now - CreateTime item ≤ window
          ∧ threshold ≤ AccessCount item)
       ∧ (ShouldDemote (NewFrequencyBasedStrategy threshold window idle) item now = true
          ↔ 0 < idle ∧ idle ≤ now - AccessTime item)).
Proof.
  intros H.
  destruct (H 3 60 300 (mkCacheItem (VString "x") 1000 min_int64 min_int64 3) 1)
    as [[Hp _] [_ Hd]].
  - unfold item_int64_ok, int64_ok, min_int64, max_int64. simpl. lia.
  - unfold int64_ok, min_int64, max_int64. lia.
  - assert (ShouldDemote (NewFrequencyBasedStrategy 3 60 300)
              (mkCacheItem (VString "x") 1000 min_int64 min_int64 3) 1 = false) as Hfalse
      by (vm_compute; reflexivity).
    rewrite Hd in Hfalse; [discriminate|].
    unfold min_int64. simpl. lia.
Qed.

(** C9, amended.  For every entry and clock reading whose differences
    now - create_time and now - access_time fit in 64 bits, the frequency
    policy with parameters (threshold, window, idle) promotes exactly when
    threshold > 0, window > 0, now - create_time <= window and
    access_count >= threshold, and demotes exactly when idle > 0 and
    now - access_time >= idle; both are functions of the entry and of the
    clock reading alone. *)
Theorem frequency_policy_decides (threshold window idle : Z) (item : CacheItem) (now : Z)
  (Hcreate : int64_ok (now - CreateTime item))
  (Haccess : int64_ok (now - AccessTime item)) :
  (ShouldPromote (NewFrequencyBasedStrategy threshold window idle) item now = true
   ↔ 0 < threshold ∧ 0 < window ∧ now - CreateTime item ≤ window
     ∧ threshold ≤ AccessCount item)
  ∧ (ShouldDemote (NewFrequencyBasedStrategy threshold window idle) item now = true
     ↔ 0 < idle ∧ idle ≤ now - AccessTime item).
Proof.
  rewrite Frequency_ShouldPromote_wrapped, Frequency_ShouldDemote_wrapped.
  by rewrite !sub64_exact.
Qed.

Lemma frequency_policy_decides_witness :
  (ShouldPromote (NewFrequencyBasedStrategy 3 60 300) (mkCacheItem (VString "x") 1000 0 1 3) 1 = true
   ↔ 0 < 3 ∧ 0 < 60 ∧ 1 - 0 ≤ 60 ∧ 3 ≤ 3)
  ∧ (ShouldDemote (NewFrequencyBasedStrategy 3 60 300) (mkCacheItem (VString "x") 1000 0 1 3) 1 = true
     ↔ 0 < 300 ∧ 300 ≤ 1 - 1).
Proof.
  apply (frequency_policy_decides 3 60 300 (mkCacheItem (VString "x") 1000 0 1 3) 1);
    unfold int64_ok, min_int64, max_int64; simpl; lia.
Defined.

(** ** Close *)

Lemma Close_closes_channel (ok : bool) (c c1 : MultiLevelCache) (e : option error) :
  cleanupTicker c = true → Close ok c = Done (e, c1) →
  cleanupTicker c1 = true ∧ stopCleanup c1 = ChanClosed.
Proof.
  unfold Close. intros Ht. rewrite Ht.
  destruct (stopCleanup c); [|done]. rewrite bind_Done.
  destruct (EnableL2Cache _); [destruct (redisClient _)|]; by intros [= _ <-].
Qed.

(** C5.  With L1 enabled (the maintenance loop was started) a second
    [Close] does not return: it panics on closing the closed stop channel. *)
Theorem Close_twice_panics (ok1 ok2 : bool) (c c1 : MultiLevelCache) (e : option error)
  (Hticker : cleanupTicker c = true)
  (Hfirst : Close ok1 c = Done (e, c1)) :
  Close ok2 c1 = Panic CloseOfClosedChannel.
Proof.
  destruct (Close_closes_channel _ _ _ _ Hticker Hfirst) as [Ht Hch].
  unfold Close. by rewrite Ht, Hch.
Qed.

Lemma Close_twice_panics_witness :
  NewMultiLevelCache (config_of true false 0) true = inr (fresh true false 0)
  ∧ Close true (fresh true false 0)
    = Done (None, set_stopCleanup ChanClosed (fresh true false 0))
  ∧ Close true (set_stopCleanup ChanClosed (fresh true false 0))
    = Panic CloseOfClosedChannel.
Proof.
  split; [reflexivity|]. split; [reflexivity|].
  apply (Close_twice_panics true true (fresh true false 0) _ None);
    reflexivity.
Defined.

(** ** Degraded reads *)

(** C8.  When L1 misses (or is off) and the Redis call fails, [Get] and
    [GetWithTTL] return a miss: they return (no panic), the result is
    [None], and L1 is as the L1 lookup left it. *)
Theorem reads_degrade_to_miss (rt : Runtime) (key : string) (now : Z)
  (c : MultiLevelCache)
  (Hwf : well_formed c)
  (Hmiss : l1_miss key now c) :
  (∃ c', Get rt key now GetErr c = Done (None, c')
         ∧ localCache c' = localCache (l1_lookup key now c).2)
  ∧ (∀ reply, ∃ c', GetWithTTL rt key now TTLErr reply c = Done (None, c')
                    ∧ localCache c' = localCache (l1_lookup key now c).2)
  ∧ (∀ secs, ∃ c', GetWithTTL rt key now (TTLSeconds secs) GetErr c = Done (None, c')
                   ∧ localCache c' = localCache (l1_lookup key now c).2).
Proof.
  unfold l1_miss in Hmiss. unfold Get, GetWithTTL.
  destruct (l1_lookup key now c) as [r c1] eqn:Hl. simpl in Hmiss. subst r. simpl.
  assert (config c1 = config c ∧ redisClient c1 = redisClient c) as [Hcfg Hrc].
  { revert Hl. unfold l1_lookup. destruct (EnableL1Cache _); [|by intros [= <-]].
    destruct (localCache c !! key) as [item|]; [|by intros [= <-]].
    by destruct (now <? ExpireTime item); intros [= <-]. }
  rewrite Hcfg. destruct (EnableL2Cache (config c)) eqn:E2;
    [|split_and!; intros; by exists c1].
  destruct Hwf as [Hcl _]. destruct (Hcl E2) as [rc Hrc'].
  assert (∀ cmd c0, redisClient c0 = Some rc ∨ redisClient c0 = redisClient c →
            ∃ c0', redis_send cmd c0 = Done c0' ∧ localCache c0' = localCache c0
                   ∧ is_Some (redisClient c0')) as Hsend.
  { intros cmd c0 H0. unfold redis_send.
    destruct (redisClient c0) as [rc0|] eqn:E0; [by eexists|].
    destruct H0; congruence. }
  split_and!.
  - destruct (Hsend (CmdGet key) c1) as (c2&->&Hm&_); [by right|].
    rewrite bind_Done. by exists c2.
  - intros reply. destruct (Hsend (CmdTTL key) c1) as (c2&->&Hm&_); [by right|].
    rewrite bind_Done. by exists c2.
  - intros secs. destruct (Hsend (CmdTTL key) c1) as (c2&->&Hm&Hs2); [by right|].
    rewrite bind_Done. destruct (seconds_to_Duration secs <=? 0); [by exists c2|].
    unfold redis_send at 1. destruct Hs2 as [rc2 ->]. rewrite bind_Done.
    eexists. split; [done|]. simpl. done.
Qed.

Lemma reads_degrade_to_miss_witness :
  (∃ c', Get go_runtime "k" 7 GetErr (fresh true true 10) = Done (None, c')
         ∧ localCache c' = localCache (l1_lookup "k" 7 (fresh true true 10)).2)
  ∧ (∀ reply, ∃ c', GetWithTTL go_runtime "k" 7 TTLErr reply (fresh true true 10)
                    = Done (None, c')
                    ∧ localCache c' = localCache (l1_lookup "k" 7 (fresh true true 10)).2)
  ∧ (∀ secs, ∃ c', GetWithTTL go_runtime "k" 7 (TTLSeconds secs) GetErr (fresh true true 10)
                   = Done (None, c')
                   ∧ localCache c' = localCache (l1_lookup "k" 7 (fresh true true 10)).2).
Proof.
  apply (reads_degrade_to_miss go_runtime "k" 7 (fresh true true 10)).
  - unfold well_formed. simpl. split_and!; [intros _|..]; by eexists.
  - reflexivity.
Defined.

(** ** The envelope through JSON *)

(** A Go [int] put behind the [Value] field comes back as a float64: the
    round trip does not give the envelope back.  Nor does it for a string
    that is no UTF-8: the byte FF comes back as U+FFFD. *)
Lemma envelope_roundtrip_changes_int :
  ¬ (∀ item, item_int64_ok item →
       ∃ p, json_Marshal item = Some p ∧ json_Unmarshal p = Some item)
  ∧ (∃ p, json_Marshal item_int42 = Some p
          ∧ json_Unmarshal p = Some (mkCacheItem (VFloat64 42) 1000 0 0 0))
  ∧ (∃ p, json_Marshal item_invalid_utf8 = Some p
          ∧ json_Unmarshal p = Some (mkCacheItem (VString (RuneError "")) 1000 0 0 0)
          ∧ VString (RuneError "") ≠ Value item_invalid_utf8).
Proof.
  split_and!.
  - intros H. destruct (H item_int42) as (p&Hm&Hu).
    + unfold item_int64_ok, int64_ok, min_int64, max_int64. simpl. lia.
    + injection Hm as <-. vm_compute in Hu. discriminate.
  - eexists. split; [reflexivity|]. vm_compute. reflexivity.
  - eexists. split; [reflexivity|]. split; [vm_compute; reflexivity|].
    vm_compute. discriminate.
Qed.

(** C6, amended.  Serializing an envelope whose value JSON can encode and
    deserializing the result preserves create_time, expire_time,
    access_time and access_count exactly; the value is preserved when it
    is nil, a boolean, a string of valid UTF-8 or a finite float64 with an
    integral value, while an integer comes back as the float64 nearest to
    it and a string comes back with every byte that is no valid UTF-8
    replaced by U+FFFD. *)
Theorem envelope_roundtrip (item : CacheItem) (p : Payload)
  (Hint : item_int64_ok item)
  (Hvalue : GoValue_ok (Value item))
  (Hmarshal : json_Marshal item = Some p) :
  ∃ item', json_Unmarshal p = Some item'
    ∧ CreateTime item' = CreateTime item
    ∧ ExpireTime item' = ExpireTime item
    ∧ AccessTime item' = AccessTime item
    ∧ AccessCount item' = AccessCount item
    ∧ (json_native (Value item) → Value item' = Value item)
    ∧ (∀ n, Value item = VInt n → Value item' = VFloat64 (round_float64 n))
    ∧ (∀ s, Value item = VString s → Value item' = VString (to_valid_utf8 s)).
Proof.
  destruct item as [v ex cr ac cnt]. destruct Hint as (He&Hc&Ha&Hn). simpl in *.
  unfold json_Marshal in Hmarshal. simpl in Hmarshal.
  destruct (marshal_value v) as [jv|] eqn:Hv; [|done]. injection Hmarshal as <-.
  destruct (unmarshal_marshal_value v jv Hvalue Hv) as (v'&Hu&Hnat&Hn'&Hs').
  unfold json_Unmarshal. simpl.
  apply int64_okb_true in He, Hc, Ha, Hn. rewrite He, Hc, Ha, Hn, Hu. simpl.
  eexists. split; [done|]. simpl. split_and!; done.
Qed.

Lemma envelope_roundtrip_witness :
  ∃ item', json_Unmarshal (Encoded (mkJsonDoc (JNumber (2 ^ 53 + 1)) 1000 0 1 3))
           = Some item'
    ∧ CreateTime item' = 0
    ∧ ExpireTime item' = 1000
    ∧ AccessTime item' = 1
    ∧ AccessCount item' = 3
    ∧ (json_native (VInt (2 ^ 53 + 1)) → Value item' = VInt (2 ^ 53 + 1))
    ∧ (∀ n, VInt (2 ^ 53 + 1) = VInt n → Value item' = VFloat64 (round_float64 n))
    ∧ (∀ s, VInt (2 ^ 53 + 1) = VString s → Value item' = VString (to_valid_utf8 s)).
Proof.
  apply (envelope_roundtrip (mkCacheItem (VInt (2 ^ 53 + 1)) 1000 0 1 3)).
  - unfold item_int64_ok, int64_ok, min_int64, max_int64. simpl. lia.
  - simpl. unfold int64_ok, min_int64, max_int64. lia.
  - reflexivity.
Defined.

(** ** LRU eviction *)

(** Two entries tied on access_time: which one goes depends on the order
    [Range] happens to produce, and the one kept can be the one the
    create_time tie-break would have removed first. *)
Lemma eviction_tie_not_broken_by_create_time :
  RuntimeOk go_runtime ∧ RuntimeOk go_runtime_rev
  ∧ spec_lru_lt ("a", item_a) ("b", item_b)
  ∧ (∃ c', evictLRU go_runtime 5 1 cache_ab = Done c'
           ∧ localCache c' !! "a" = None ∧ localCache c' !! "b" = Some item_b)
  ∧ (∃ c', evictLRU go_runtime_rev 5 1 cache_ab = Done c'
           ∧ localCache c' !! "a" = Some item_a ∧ localCache c' !! "b" = None).
Proof.
  split; [exact go_runtime_ok|]. split; [exact go_runtime_rev_ok|].
  split; [right; split; [reflexivity|left; reflexivity]|].
  split; eexists; (split; [vm_compute; reflexivity|]); split; reflexivity.
Qed.

(** C3, amended.  Evicting n items from a quiescent L1 removes exactly
    min(n, |snapshot|) entries (none for n <= 0), every removed entry
    was last accessed no later than every entry that stays, and the other
    entries are untouched.  Entries with equal access_time are not ordered
    any further: neither create_time nor the key is compared. *)
Theorem evictLRU_removes_least_recent (rt : Runtime) (now n : Z) (c : MultiLevelCache)
  (Hrt : RuntimeOk rt)
  (Hwf : well_formed c)
  (Hquiet : l1_consistent c) :
  ∃ c' removed,
    evictLRU rt now n c = Done c'
    ∧ Z.of_nat (length removed) = Z.max 0 (Z.min n (Z.of_nat (size (localCache c))))
    ∧ NoDup removed.*1
    ∧ (∀ k item, (k, item) ∈ removed → localCache c !! k = Some item)
    ∧ (∀ k, localCache c' !! k
            = if decide (k ∈ removed.*1) then None else localCache c !! k)
    ∧ (∀ x k item, x ∈ removed → localCache c' !! k = Some item →
                   AccessTime x.2 ≤ AccessTime item)
    ∧ itemCount c' = Z.of_nat (size (localCache c')).
Proof.
  destruct (evictLRU_post rt now n c Hwf) as (c'&He&Hp).
  { unfold l1_consistent in Hquiet. lia. }
  destruct Hp as (_&Hm&Hcnt&_).
  exists c', (victims rt n (localCache c)). split; [done|].
  split; [by apply victims_length|].
  split; [by apply victims_NoDup|].
  split; [intros k item; by apply victims_lookup|].
  assert (∀ k, localCache c' !! k
               = if decide (k ∈ (victims rt n (localCache c)).*1)
                 then None else localCache c !! k) as Hlook.
  { intros k. rewrite Hm. apply lookup_delete_keys. }
  split; [done|]. split.
  - intros x k item Hx Hk. rewrite Hlook in Hk.
    destruct (decide (k ∈ (victims rt n (localCache c)).*1)); [done|].
    by eapply victims_least.
  - rewrite Hcnt, Hm, size_after_victims by done. unfold l1_consistent in Hquiet. lia.
Qed.

Lemma evictLRU_removes_least_recent_witness :
  ∃ c' removed,
    evictLRU go_runtime 5 1 cache_ab = Done c'
    ∧ Z.of_nat (length removed) = Z.max 0 (Z.min 1 (Z.of_nat (size (localCache cache_ab))))
    ∧ NoDup removed.*1
    ∧ (∀ k item, (k, item) ∈ removed → localCache cache_ab !! k = Some item)
    ∧ (∀ k, localCache c' !! k
            = if decide (k ∈ removed.*1) then None else localCache cache_ab !! k)
    ∧ (∀ x k item, x ∈ removed → localCache c' !! k = Some item →
                   AccessTime x.2 ≤ AccessTime item)
    ∧ itemCount c' = Z.of_nat (size (localCache c')).
Proof.
  apply (evictLRU_removes_least_recent go_runtime 5 1 cache_ab go_runtime_ok).
  - unfold well_formed. simpl. split_and!; [done|by eexists..].
  - reflexivity.
Defined.

(** ** The counter and the cap *)

Lemma preserves_Done {A : Type} (c : MultiLevelCache) (r : Outcome (A * MultiLevelCache)) :
  preserves c r →
  ∃ a c', r = Done (a, c') ∧ well_formed c' ∧ l1_consistent c'.
Proof. intros (a&c'&->&_&?&?&_). by exists a, c'. Qed.

(** C10.  In a sequential run [itemCount] is the number of keys of the L1
    map: the constructor establishes it, and [Set], [Get], [GetWithTTL],
    [Delete], [Clear] and the maintenance sweep each return and keep it. *)
Theorem itemCount_is_size (rt : Runtime) (c : MultiLevelCache)
  (Hrt : RuntimeOk rt)
  (Hwf : well_formed c)
  (Hcount : l1_consistent c) :
  (∀ key value ttl now ok, ∃ e c',
      Set_ rt key value ttl now ok c = Done (e, c')
      ∧ well_formed c' ∧ itemCount c' = Z.of_nat (size (localCache c')))
  ∧ (∀ key now reply, ∃ v c',
      Get rt key now reply c = Done (v, c')
      ∧ well_formed c' ∧ itemCount c' = Z.of_nat (size (localCache c')))
  ∧ (∀ key now ttl_reply reply, ∃ v c',
      GetWithTTL rt key now ttl_reply reply c = Done (v, c')
      ∧ well_formed c' ∧ itemCount c' = Z.of_nat (size (localCache c')))
  ∧ (∀ key ok, ∃ e c',
      Delete key ok c = Done (e, c')
      ∧ well_formed c' ∧ itemCount c' = Z.of_nat (size (localCache c')))
  ∧ (∀ ok, ∃ e c',
      Clear ok c = Done (e, c')
      ∧ well_formed c' ∧ itemCount c' = Z.of_nat (size (localCache c')))
  ∧ (∀ now, ∃ c',
      cleanupExpiredItems rt now c = Done c'
      ∧ well_formed c' ∧ itemCount c' = Z.of_nat (size (localCache c')))
  ∧ (∀ cfg ping_ok c0, NewMultiLevelCache cfg ping_ok = inr c0 →
      well_formed c0 ∧ itemCount c0 = Z.of_nat (size (localCache c0))).
Proof.
  split_and!.
  - intros. apply (preserves_Done c). by apply Set_preserves.
  - intros. apply (preserves_Done c). by apply Get_preserves.
  - intros. apply (preserves_Done c). by apply GetWithTTL_preserves.
  - intros. apply (preserves_Done c). by apply Delete_preserves.
  - intros. apply (preserves_Done c). by apply Clear_preserves.
  - intros now. destruct (cleanupExpiredItems_post rt Hrt now c Hwf Hcount)
      as (c'&He&_&Hwf'&Hc'&_). by exists c'.
  - intros cfg ping_ok c0 Hnew.
    destruct (NewMultiLevelCache_post _ _ _ Hnew) as (?&?&_). done.
Qed.

Lemma itemCount_is_size_witness :
  (∀ key value ttl now ok, ∃ e c',
      Set_ go_runtime key value ttl now ok cache_ab = Done (e, c')
      ∧ well_formed c' ∧ itemCount c' = Z.of_nat (size (localCache c')))
  ∧ (∀ key now reply, ∃ v c',
      Get go_runtime key now reply cache_ab = Done (v, c')
      ∧ well_formed c' ∧ itemCount c' = Z.of_nat (size (localCache c')))
  ∧ (∀ key now ttl_reply reply, ∃ v c',
      GetWithTTL go_runtime key now ttl_reply reply cache_ab = Done (v, c')
      ∧ well_formed c' ∧ itemCount c' = Z.of_nat (size (localCache c')))
  ∧ (∀ key ok, ∃ e c',
      Delete key ok cache_ab = Done (e, c')
      ∧ well_formed c' ∧ itemCount c' = Z.of_nat (size (localCache c')))
  ∧ (∀ ok, ∃ e c',
      Clear ok cache_ab = Done (e, c')
      ∧ well_formed c' ∧ itemCount c' = Z.of_nat (size (localCache c')))
  ∧ (∀ now, ∃ c',
      cleanupExpiredItems go_runtime now cache_ab = Done c'
      ∧ well_formed c' ∧ itemCount c' = Z.of_nat (size (localCache c')))
  ∧ (∀ cfg ping_ok c0, NewMultiLevelCache cfg ping_ok = inr c0 →
      well_formed c0 ∧ itemCount c0 = Z.of_nat (size (localCache c0))).
Proof.
  apply (itemCount_is_size go_runtime cache_ab go_runtime_ok).
  - unfold well_formed. simpl. split_and!; [done|by eexists..].
  - reflexivity.
Defined.

(** C2.  With no concurrent writers the cap is respected: a maintenance
    tick returns with item_count <= max_l1_size whatever the count was
    before, and it calls evict(item_count - max_l1_size) exactly when
    max_l1_size > 0 and item_count > max_l1_size after the sweep; an evict
    call lowers the count by min(n, item_count), which is the overshoot at
    every call the code makes; hence every operation started within the
    cap ends within it, and every state of a sequential run is within it. *)
Theorem l1_cap_respected (rt : Runtime) (now : Z) (c : MultiLevelCache)
  (Hrt : RuntimeOk rt)
  (Hwf : well_formed c)
  (Hquiet : l1_consistent c) :
  (∃ c', cleanupExpiredItems rt now c = Done c'
         ∧ (0 < MaxL1Size (config c') → itemCount c' ≤ MaxL1Size (config c')))
  ∧ (∃ c1, sweep rt now c = Done c1
           ∧ cleanupExpiredItems rt now c
             = if (0 <? MaxL1Size (config c1)) && (MaxL1Size (config c1) <? itemCount c1)
               then evictLRU rt now (itemCount c1 - MaxL1Size (config c1)) c1
               else Done c1)
  ∧ (∀ n, ∃ c', evictLRU rt now n c = Done c'
                ∧ itemCount c' = itemCount c - Z.max 0 (Z.min n (itemCount c))
                ∧ (0 < MaxL1Size (config c) → itemCount c - n ≤ MaxL1Size (config c) →
                   itemCount c' ≤ MaxL1Size (config c')))
  ∧ (∀ c', Step c c' →
           (0 < MaxL1Size (config c) → itemCount c ≤ MaxL1Size (config c)) →
           0 < MaxL1Size (config c') → itemCount c' ≤ MaxL1Size (config c'))
  ∧ (∀ c0, Reachable c0 →
           0 < MaxL1Size (config c0) → itemCount c0 ≤ MaxL1Size (config c0)).
Proof.
  split_and!; [| | | |intros c0 Hr; by destruct (Reachable_invariant c0 Hr) as (_&_&?)].
  - destruct (cleanupExpiredItems_post rt Hrt now c Hwf Hquiet)
      as (c'&He&_&_&_&Hcap&_). by exists c'.
  - destruct (sweep_post rt Hrt now c Hwf Hquiet) as (c1&Hs&_).
    exists c1. split; [done|]. unfold cleanupExpiredItems. rewrite Hs, bind_Done.
    reflexivity.
  - intros n. destruct (evictLRU_count rt Hrt now n c Hwf Hquiet)
      as (c'&He&Hcfg&_&_&Hn).
    exists c'. split_and!; try done. rewrite Hcfg. unfold l1_consistent in Hquiet. lia.
  - intros c' Hstep Hcap.
    destruct (Step_invariant _ _ Hstep Hwf Hquiet) as (_&_&_&H). exact (H Hcap).
Qed.

Lemma l1_cap_respected_witness :
  (∃ c', cleanupExpiredItems go_runtime 5 cache_ab = Done c'
         ∧ (0 < MaxL1Size (config c') → itemCount c' ≤ MaxL1Size (config c')))
  ∧ (∃ c1, sweep go_runtime 5 cache_ab = Done c1
           ∧ cleanupExpiredItems go_runtime 5 cache_ab
             = if (0 <? MaxL1Size (config c1)) && (MaxL1Size (config c1) <? itemCount c1)
               then evictLRU go_runtime 5 (itemCount c1 - MaxL1Size (config c1)) c1
               else Done c1)
  ∧ (∀ n, ∃ c', evictLRU go_runtime 5 n cache_ab = Done c'
                ∧ itemCount c' = itemCount cache_ab - Z.max 0 (Z.min n (itemCount cache_ab))
                ∧ (0 < MaxL1Size (config cache_ab) →
                   itemCount cache_ab - n ≤ MaxL1Size (config cache_ab) →
                   itemCount c' ≤ MaxL1Size (config c')))
  ∧ (∀ c', Step cache_ab c' →
           (0 < MaxL1Size (config cache_ab) →
            itemCount cache_ab ≤ MaxL1Size (config cache_ab)) →
           0 < MaxL1Size (config c') → itemCount c' ≤ MaxL1Size (config c'))
  ∧ (∀ c0, Reachable c0 →
           0 < MaxL1Size (config c0) → itemCount c0 ≤ MaxL1Size (config c0)).
Proof.
  apply (l1_cap_respected go_runtime 5 cache_ab go_runtime_ok).
  - unfold well_formed. simpl. split_and!; [done|by eexists..].
  - reflexivity.
Defined.

(** ** Promotion on an L2 hit *)

(** What the promotion block does to L1 once the policy has spoken. *)
Lemma promote_l1 (rt : Runtime) key item now (c : MultiLevelCache) ps :
  RuntimeOk rt → well_formed c → l1_consistent c →
  (EnableL1Cache (config c) = true → localCache c !! key = None) →
  PromotionStrategy (config c) = Some ps →
  ∃ c', promote rt key item now c = Done c'
        ∧ config c' = config c
        ∧ (is_Some (redisClient c) → is_Some (redisClient c'))
        ∧ localCache c'
          = if EnableL1Cache (config c) && ShouldPromote ps item now
            then l1_after_promotion rt key item c
            else localCache c.
Proof.
  intros Hrt Hwf Hc Hk Hps. unfold promote, l1_after_promotion.
  destruct (EnableL1Cache (config c)) eqn:E1; [|by exists c].
  rewrite Hps. simpl. destruct (ShouldPromote ps item now); [|by exists c].
  set (c0 := l1_store key item (itemCount c + 1) c).
  change (over_cap c0)
    with ((0 <? MaxL1Size (config c)) && (MaxL1Size (config c) <? itemCount c + 1)).
  destruct ((0 <? MaxL1Size (config c)) && (MaxL1Size (config c) <? itemCount c + 1)).
  - destruct (evictLRU_post rt now 1 c0) as (c'&He&Hp).
    { exact Hwf. }
    { unfold l1_consistent in Hc. subst c0. simpl. lia. }
    exists c'. destruct Hp as (Hcfg&Hm&_&_&_&Hrc). by split_and!.
  - by exists c0.
Qed.

Lemma Get_l2_hit (rt : Runtime) (key : string) (now : Z) (c : MultiLevelCache)
  (jsonData : Payload) (item0 : CacheItem) (ps : Strategy) :
  RuntimeOk rt → well_formed c → l1_consistent c →
  EnableL2Cache (config c) = true →
  PromotionStrategy (config c) = Some ps →
  l1_miss key now c →
  json_Unmarshal jsonData = Some item0 →
  now < ExpireTime item0 →
  ∃ c' rc,
    Get rt key now (GetBytes jsonData) c = Done (Some (Value item0), c')
    ∧ localCache c'
      = (if EnableL1Cache (config c) && ShouldPromote ps (touch now item0) now
         then l1_after_promotion rt key (touch now item0) (l1_lookup key now c).2
         else localCache (l1_lookup key now c).2)
    ∧ redisClient c' = Some rc
    ∧ last (sent rc)
      = Some (CmdSet key (marshal_or_empty (touch now item0))
                     (seconds_to_Duration (sub64 (ExpireTime item0) now))).
Proof.
  intros Hrt Hwf Hc E2 Hps Hmiss Hdec Hlive.
  unfold l1_miss in Hmiss. unfold Get.
  destruct (l1_lookup key now c) as [r c1] eqn:Hl. simpl in Hmiss. subst r.
  destruct (l1_lookup_post _ _ _ _ _ Hwf Hc Hl) as (Hcfg1&Hwf1&Hc1&_&Hnone).
  simpl. rewrite Hcfg1, E2.
  destruct (redis_send_same (CmdGet key) c1) as (c2&Hs&Hcfg2&Hwf2&Hc2&Hn2&Hm2);
    [done|done|congruence|].
  rewrite Hs, bind_Done, Hdec.
  destruct (Z.ltb_spec now (ExpireTime item0)) as [_|]; [|lia].
  destruct (promote_l1 rt key (touch now item0) now c2 ps Hrt Hwf2 Hc2)
    as (c3&Hp&Hcfg3&Hrc3&Hm3).
  { rewrite Hm2, Hcfg2, Hcfg1. by apply Hnone. }
  { congruence. }
  rewrite Hp, bind_Done.
  assert (is_Some (redisClient c3)) as [rc3 Hrc].
  { apply Hrc3, Hwf2. congruence. }
  unfold redis_send. rewrite Hrc, bind_Done.
  eexists _, _. split; [done|]. simpl. split_and!; [|done|apply last_snoc].
  rewrite Hm3, Hcfg2, Hcfg1. unfold l1_after_promotion.
  by rewrite Hm2, Hcfg2, Hcfg1, Hn2.
Qed.

(** C4.  A [Get] that misses L1 and finds a live envelope in L2 returns
    its value, sets access_time to now and increments access_count first,
    and asks the promotion policy about that updated envelope: when the
    policy holds the updated envelope is stored in L1 (and the size check
    follows), otherwise L1 stays as it was; the updated envelope is what
    is written back to L2.  In Scenario A the envelope with count 2 read
    at t = 1 ends up in L1 with count 3 and access_time 1, although the
    policy rejects the envelope as it was before the update. *)
Theorem Get_promotes_updated_envelope :
  (∀ (rt : Runtime) (key : string) (now : Z) (c : MultiLevelCache)
     (jsonData : Payload) (item0 : CacheItem) (ps : Strategy),
     RuntimeOk rt → well_formed c → l1_consistent c →
     EnableL2Cache (config c) = true →
     PromotionStrategy (config c) = Some ps →
     l1_miss key now c →
     json_Unmarshal jsonData = Some item0 →
     now < ExpireTime item0 →
     let item := mkCacheItem (Value item0) (ExpireTime item0) (CreateTime item0)
                             now (add64 (AccessCount item0) 1) in
     let c1 := (l1_lookup key now c).2 in
     ∃ c' rc,
       Get rt key now (GetBytes jsonData) c = Done (Some (Value item0), c')
       ∧ localCache c'
         = (if EnableL1Cache (config c) && ShouldPromote ps item now
            then l1_after_promotion rt key item c1
            else localCache c1)
       ∧ redisClient c' = Some rc
       ∧ last (sent rc)
         = Some (CmdSet key (marshal_or_empty item)
                        (seconds_to_Duration (sub64 (ExpireTime item0) now))))
  ∧ (∀ rt : Runtime,
       NewMultiLevelCache scenarioA_config true = inr scenarioA_cache
       ∧ json_Unmarshal scenarioA_bytes = Some scenarioA_envelope
       ∧ ShouldPromote (NewFrequencyBasedStrategy 3 60 0) scenarioA_envelope 1 = false
       ∧ ∃ c', Get rt "a" 1 (GetBytes scenarioA_bytes) scenarioA_cache
               = Done (Some (VString "x"), c')
               ∧ localCache c' !! "a" = Some (mkCacheItem (VString "x") 1000 0 1 3)
               ∧ itemCount c' = 1).
Proof.
  split.
  - intros rt key now c jsonData item0 ps Hrt Hwf Hc E2 Hps Hmiss Hdec Hlive item c1.
    by apply Get_l2_hit.
  - intros rt. split; [reflexivity|]. split; [reflexivity|]. split; [reflexivity|].
    eexists. split; [vm_compute; reflexivity|]. split; reflexivity.
Qed.

Lemma Get_promotes_updated_envelope_witness :
  ∃ c' rc,
    Get go_runtime "a" 1 (GetBytes scenarioA_bytes) scenarioA_cache
    = Done (Some (VString "x"), c')
    ∧ localCache c' = {[ "a" := mkCacheItem (VString "x") 1000 0 1 3 ]}
    ∧ redisClient c' = Some rc
    ∧ last (sent rc)
      = Some (CmdSet "a" (Encoded (mkJsonDoc (JString "x") 1000 0 1 3))
                     (seconds_to_Duration 999)).
Proof.
  destruct (proj1 Get_promotes_updated_envelope go_runtime "a" 1 scenarioA_cache
              scenarioA_bytes scenarioA_envelope (NewFrequencyBasedStrategy 3 60 0))
    as (c'&rc&HGet&Hm&Hrc&Hlast).
  - exact go_runtime_ok.
  - unfold well_formed. simpl. split_and!; [intros _|..]; by eexists.
  - reflexivity.
  - reflexivity.
  - reflexivity.
  - reflexivity.
  - reflexivity.
  - simpl. lia.
  - exists c', rc. split; [exact HGet|]. split; [|split; [exact Hrc|exact Hlast]].
    rewrite Hm. reflexivity.
Defined.

(** ** GetWithTTL against Get *)

Lemma GetWithTTL_l2_hit (rt : Runtime) key now secs (c : MultiLevelCache)
  jsonData item0 ps :
  RuntimeOk rt → well_formed c → l1_consistent c →
  EnableL2Cache (config c) = true →
  PromotionStrategy (config c) = Some ps →
  l1_miss key now c →
  0 < seconds_to_Duration secs →
  json_Unmarshal jsonData = Some item0 →
  ∃ c', GetWithTTL rt key now (TTLSeconds secs) (GetBytes jsonData) c
        = Done (Some (Value item0, Duration_Seconds (seconds_to_Duration secs)), c')
        ∧ localCache c'
          = (if EnableL1Cache (config c) && ShouldPromote ps (touch now item0) now
             then l1_after_promotion rt key (touch now item0) (l1_lookup key now c).2
             else localCache (l1_lookup key now c).2).
Proof.
  intros Hrt Hwf Hc E2 Hps Hmiss Httl Hdec.
  unfold l1_miss in Hmiss. unfold GetWithTTL.
  destruct (l1_lookup key now c) as [r c1] eqn:Hl. simpl in Hmiss. subst r.
  destruct (l1_lookup_post _ _ _ _ _ Hwf Hc Hl) as (Hcfg1&Hwf1&Hc1&_&Hnone).
  simpl. rewrite Hcfg1, E2.
  destruct (redis_send_same (CmdTTL key) c1) as (c2&Hs&Hcfg2&Hwf2&Hc2&Hn2&Hm2);
    [done|done|congruence|].
  rewrite Hs, bind_Done.
  destruct (Z.leb_spec (seconds_to_Duration secs) 0) as [|_]; [lia|].
  destruct (redis_send_same (CmdGet key) c2) as (c3&Hs3&Hcfg3&Hwf3&Hc3&Hn3&Hm3);
    [done|done|congruence|].
  rewrite Hs3, bind_Done, Hdec.
  destruct (promote_l1 rt key (touch now item0) now c3 ps Hrt Hwf3 Hc3)
    as (c4&Hp&Hcfg4&Hrc4&Hm4).
  { rewrite Hm3, Hm2, Hcfg3, Hcfg2, Hcfg1. by apply Hnone. }
  { congruence. }
  rewrite Hp, bind_Done.
  assert (is_Some (redisClient c4)) as [rc4 Hrc].
  { apply Hrc4, Hwf3. congruence. }
  unfold redis_send. rewrite Hrc, bind_Done.
  eexists. split; [done|]. simpl.
  rewrite Hm4, Hcfg3, Hcfg2, Hcfg1. unfold l1_after_promotion.
  by rewrite Hm3, Hm2, Hcfg3, Hcfg2, Hcfg1, Hn3, Hn2.
Qed.

(** Where the two reads agree: on an L1 hit, and on an L2 hit whose
    envelope is still live and whose TTL Redis reports as positive, they
    return the same value and leave the same L1 behind. *)
Lemma GetWithTTL_agrees_with_Get (rt : Runtime) key now (c : MultiLevelCache) :
  RuntimeOk rt → well_formed c → l1_consistent c →
  (∀ item, (l1_lookup key now c).1 = Some item →
     ∀ ttl_reply reply,
       Get rt key now reply c = Done (Some (Value item), (l1_lookup key now c).2)
       ∧ GetWithTTL rt key now ttl_reply reply c
         = Done (Some (Value item, sub64 (ExpireTime item) now), (l1_lookup key now c).2))
  ∧ (∀ secs jsonData item0 ps,
       EnableL2Cache (config c) = true →
       PromotionStrategy (config c) = Some ps →
       l1_miss key now c →
       0 < seconds_to_Duration secs →
       json_Unmarshal jsonData = Some item0 →
       now < ExpireTime item0 →
       ∃ cG cT,
         Get rt key now (GetBytes jsonData) c = Done (Some (Value item0), cG)
         ∧ GetWithTTL rt key now (TTLSeconds secs) (GetBytes jsonData) c
           = Done (Some (Value item0, Duration_Seconds (seconds_to_Duration secs)), cT)
         ∧ localCache cT = localCache cG ∧ itemCount cT = itemCount cG).
Proof.
  intros Hrt Hwf Hc. split.
  - intros item Hhit ttl_reply reply. unfold Get, GetWithTTL.
    destruct (l1_lookup key now c) as [r c1]. simpl in Hhit. by subst r.
  - intros secs jsonData item0 ps E2 Hps Hmiss Httl Hdec Hlive.
    destruct (Get_l2_hit rt key now c jsonData item0 ps)
      as (cG&rc&HG&HmG&_); try done.
    destruct (GetWithTTL_l2_hit rt key now secs c jsonData item0 ps)
      as (cT&HT&HmT); try done.
    exists cG, cT. split; [done|]. split; [done|].
    assert (localCache cT = localCache cG) as Hm.
    { rewrite HmT, HmG. done. }
    split; [done|].
    destruct (Get_preserves rt Hrt key now (GetBytes jsonData) c Hwf Hc)
      as (a&c'&Hc'&_&_&HcG&_).
    rewrite HG in Hc'. injection Hc' as _ <-.
    destruct (GetWithTTL_preserves rt Hrt key now (TTLSeconds secs) (GetBytes jsonData)
                c Hwf Hc) as (a'&c''&Hc''&_&_&HcT&_).
    rewrite HT in Hc''. injection Hc'' as _ <-.
    unfold l1_consistent in *. by rewrite HcG, HcT, Hm.
Qed.

(** C7.  [GetWithTTL] is not [Get] plus a TTL: on the L2 path it leaves
    out the check of expire_time against now that [Get] makes.  With L1
    empty, the envelope under "k" expiring at second 10 and Redis still
    reporting one second to live, at second 10 [Get] misses and leaves L1
    empty while [GetWithTTL] returns the expired value and stores the
    envelope in L1. *)
Theorem GetWithTTL_serves_expired_envelope (rt : Runtime) :
  NewMultiLevelCache (config_of true true 10) true = inr (fresh true true 10)
  ∧ json_Unmarshal expired_bytes = Some expired_envelope
  ∧ ExpireTime expired_envelope ≤ 10
  ∧ ∃ cG cT,
      Get rt "k" 10 (GetBytes expired_bytes) (fresh true true 10) = Done (None, cG)
      ∧ localCache cG = ∅
      ∧ GetWithTTL rt "k" 10 (TTLSeconds 1) (GetBytes expired_bytes) (fresh true true 10)
        = Done (Some (VString "v", 1), cT)
      ∧ localCache cT !! "k" = Some (mkCacheItem (VString "v") 10 0 10 3).
Proof.
  split; [reflexivity|]. split; [reflexivity|]. split; [simpl; lia|].
  eexists _, _. split; [vm_compute; reflexivity|]. split; [reflexivity|].
  split; [vm_compute; reflexivity|]. reflexivity.
Qed.

(** ** Set followed by Get *)

(** Four ways in which a [Get] right after [Set(k, v, ttl)], before
    set_time + ttl, does not return v: no tier is enabled; set_time + ttl
    leaves the 64-bit range; the cap is reached and the new entry ties
    with the oldest one on access_time and is the one evicted; L1 is off
    and the integer 42 comes back from the bytes [Set] sent to Redis as
    the float64 42.  And one in which a [Get] after set_time + ttl does
    not miss: the SET to Redis failed and Redis still answers with an
    older envelope that has not expired. *)
Lemma Get_after_Set_can_miss :
  (∃ c1, Set_ go_runtime "k" (VInt 42) 5 0 true (fresh false false 0) = Done (None, c1)
         ∧ 4 < 0 + 5
         ∧ ∃ c2, Get go_runtime "k" 4 GetNil c1 = Done (None, c2))
  ∧ (∃ c1, Set_ go_runtime "k" (VInt 42) max_int64 1 true (fresh true false 0)
           = Done (None, c1)
           ∧ 0 < max_int64 ∧ 1 < 1 + max_int64
           ∧ ∃ c2, Get go_runtime "k" 1 GetNil c1 = Done (None, c2))
  ∧ (RuntimeOk go_runtime_rev
     ∧ ∃ c1, Set_ go_runtime_rev "b" (VString "vb") 100 5 true cache_a = Done (None, c1)
             ∧ 5 < 5 + 100
             ∧ ∃ c2, Get go_runtime_rev "b" 5 GetNil c1 = Done (None, c2))
  ∧ (∃ c1 jsonData,
       Set_ go_runtime "k" (VInt 42) 5 0 true (fresh false true 0) = Done (None, c1)
       ∧ last (sent_log c1) = Some (CmdSet "k" jsonData (seconds_to_Duration 5))
       ∧ 4 < 0 + 5
       ∧ VFloat64 42 ≠ VInt 42
       ∧ ∃ c2, Get go_runtime "k" 4 (GetBytes jsonData) c1
               = Done (Some (VFloat64 42), c2))
  ∧ (∃ c1, Set_ go_runtime "a" (VString "new") 5 0 false (fresh true true 0)
           = Done (Some ErrRedis, c1)
           ∧ 0 + 5 ≤ 6
           ∧ json_Unmarshal scenarioA_bytes = Some scenarioA_envelope
           ∧ ∃ c2, Get go_runtime "a" 6 (GetBytes scenarioA_bytes) c1
                   = Done (Some (VString "x"), c2)).
Proof.
  split_and!.
  - eexists. split; [vm_compute; reflexivity|]. split; [lia|].
    eexists. vm_compute. reflexivity.
  - eexists. split; [vm_compute; reflexivity|]. split; [done|]. split; [done|].
    eexists. vm_compute. reflexivity.
  - exact go_runtime_rev_ok.
  - eexists. split; [vm_compute; reflexivity|]. split; [lia|].
    eexists. vm_compute. reflexivity.
  - eexists _, _. split; [vm_compute; reflexivity|].
    split; [vm_compute; reflexivity|]. split; [lia|]. split; [done|].
    eexists. vm_compute. reflexivity.
  - eexists. split; [vm_compute; reflexivity|]. split; [lia|].
    split; [vm_compute; reflexivity|].
    eexists. vm_compute. reflexivity.
Qed.

Lemma Set_l1 (rt : Runtime) key value ttl now ok (c : MultiLevelCache) :
  RuntimeOk rt → well_formed c → l1_consistent c →
  EnableL1Cache (config c) = true →
  key_survives_Set key now c →
  ∃ e c1, Set_ rt key value ttl now ok c = Done (e, c1)
          ∧ config c1 = config c ∧ well_formed c1 ∧ l1_consistent c1
          ∧ localCache c1 !! key = Some (mkCacheItem value (add64 now ttl) now now 0).
Proof.
  intros Hrt Hwf Hc E1 Hsurv. unfold Set_. rewrite E1.
  set (item := mkCacheItem value (add64 now ttl) now now 0).
  set (n := match localCache c !! key with
            | Some _ => itemCount c
            | None => itemCount c + 1
            end).
  set (c0 := l1_store key item n c).
  assert (well_formed c0) as Hwf0 by exact Hwf.
  assert (l1_consistent c0) as Hc0 by (by apply l1_consistent_store).
  assert (∃ c1, (if over_cap c0 then evictLRU rt now 1 c0 else Done c0) = Done c1
                ∧ config c1 = config c ∧ well_formed c1 ∧ l1_consistent c1
                ∧ localCache c1 !! key = Some item)
    as (c1&Hc1&Hcfg1&Hwf1&Hcons1&Hk1).
  { destruct (over_cap c0) eqn:Hov.
    - destruct (evictLRU_post rt now 1 c0 Hwf0) as (c1&He&Hp).
      { unfold l1_consistent in Hc0. lia. }
      destruct (evictLRU_count rt Hrt now 1 c0 Hwf0 Hc0) as (c1'&He'&_&_&Hcons&_).
      rewrite He in He'. injection He' as <-.
      exists c1. pose proof (l1_post_wf _ _ _ _ Hwf0 Hp) as Hwf1.
      destruct Hp as (Hcfg&Hm&_). split_and!; try done.
      rewrite Hm, lookup_delete_keys.
      set (vs := victims rt 1 (localCache c0)).
      destruct (decide (key ∈ vs.*1)) as [Hin|]; [exfalso|apply lookup_insert_eq].
      unfold over_cap in Hov. apply andb_true_iff in Hov as [Hmax Hover].
      apply Z.ltb_lt in Hmax, Hover. simpl in Hmax, Hover.
      destruct Hsurv as [Hs|[Hs|(k'&item'&Hne&Hk'&Hacc)]]; [lia|fold n in Hs; lia|].
      apply list_elem_of_fmap in Hin as ([k it]&Hkey&Hin). simpl in Hkey. subst k.
      pose proof (victims_lookup rt Hrt 1 _ _ _ Hin) as Hit.
      simpl in Hit. rewrite lookup_insert_eq in Hit. injection Hit as <-.
      assert (k' ∉ vs.*1) as Hnot.
      { pose proof (victims_length rt Hrt 1 (localCache c0)) as Hlen.
        fold vs in Hlen, Hin. destruct vs as [|x [|y vs]].
        - by apply elem_of_nil in Hin.
        - apply list_elem_of_singleton in Hin. subst x. simpl.
          intros Hk. apply list_elem_of_singleton in Hk. done.
        - simpl in Hlen. lia. }
      pose proof (victims_least rt Hrt 1 (localCache c0) (key, item) k' item' Hin) as Hle.
      simpl in Hle. rewrite lookup_insert_ne in Hle by done.
      specialize (Hle Hk' Hnot). lia.
    - exists c0. split_and!; try done. apply lookup_insert_eq. }
  rewrite Hc1, bind_Done, Hcfg1.
  destruct (EnableL2Cache (config c)) eqn:E2; [|by exists None, c1].
  destruct (json_Marshal item); [|by exists (Some ErrMarshal), c1].
  destruct (redis_send_same (CmdSet key p (seconds_to_Duration ttl)) c1)
    as (c2&Hs&Hcfg2&Hwf2&Hcons2&Hn2&Hm2); [done|done|congruence|].
  rewrite Hs, bind_Done. eexists _, c2. split; [done|].
  split_and!; try done; [congruence|by rewrite Hm2].
Qed.

Lemma redis_send_log (cmd : RedisCmd) (c : MultiLevelCache) :
  is_Some (redisClient c) →
  ∃ c', redis_send cmd c = Done c'
        ∧ l1_post c c' (localCache c) (itemCount c)
        ∧ sent_log c' = sent_log c ++ [cmd].
Proof.
  intros [rc Hrc]. unfold redis_send, sent_log. rewrite Hrc.
  eexists. split; [done|]. split; [|done]. repeat split; simpl; eauto.
Qed.

(** [Set] in two phases: the L1 phase ends in a state [c1]; the L2 phase
    only talks to Redis. *)
Lemma Set_spec (rt : Runtime) key value (ttl now : Z) ok (c : MultiLevelCache) :
  RuntimeOk rt → well_formed c → l1_consistent c →
  let item := mkCacheItem value (add64 now ttl) now now 0 in
  let c0 := l1_store key item (match localCache c !! key with
                               | Some _ => itemCount c
                               | None => itemCount c + 1
                               end) c in
  ∃ c1 c',
    (if EnableL1Cache (config c)
     then if over_cap c0 then evictLRU rt now 1 c0 else Done c0
     else Done c) = Done c1
    ∧ Set_ rt key value ttl now ok c
      = Done (if EnableL2Cache (config c)
              then match json_Marshal item with
                   | None => Some ErrMarshal
                   | Some _ => if ok then None else Some ErrRedis
                   end
              else None, c')
    ∧ config c' = config c
    ∧ localCache c' = localCache c1 ∧ itemCount c' = itemCount c1
    ∧ sent_log c'
      = sent_log c1 ++ (if EnableL2Cache (config c)
                        then match json_Marshal item with
                             | Some jsonData =>
                                 [CmdSet key jsonData (seconds_to_Duration ttl)]
                             | None => []
                             end
                        else []).
Proof.
  intros Hrt Hwf Hc item c0.
  assert (∃ c1, (if EnableL1Cache (config c)
                 then if over_cap c0 then evictLRU rt now 1 c0 else Done c0
                 else Done c) = Done c1
                ∧ config c1 = config c ∧ well_formed c1)
    as (c1&Hphase&Hcfg1&Hwf1).
  { destruct (EnableL1Cache (config c)); [|by exists c].
    destruct (cap_check_post rt Hrt now c0) as (c1&He&Hcfg&Hwf'&_).
    { exact Hwf. }
    { by apply l1_consistent_store. }
    by exists c1. }
  exists c1. unfold Set_. fold item. cbv zeta. fold c0. rewrite Hphase, bind_Done, Hcfg1.
  destruct (EnableL2Cache (config c)) eqn:E2.
  - destruct (json_Marshal item) as [data|].
    + destruct (redis_send_log (CmdSet key data (seconds_to_Duration ttl)) c1)
        as (c2&Hs&Hp&Hlog).
      { apply Hwf1. congruence. }
      rewrite Hs, bind_Done. exists c2. destruct Hp as (Hcfg2&Hm2&Hn2&_).
      split_and!; try done. congruence.
    + exists c1. split_and!; try done. by rewrite app_nil_r.
  - exists c1. split_and!; try done. by rewrite app_nil_r.
Qed.

(** After [Set] the L1 map holds the new entry under the key, or nothing
    when the size check evicted it at once. *)
Lemma Set_l1_cases (rt : Runtime) key value ttl now ok (c : MultiLevelCache) :
  RuntimeOk rt → well_formed c → l1_consistent c →
  ∃ e c1, Set_ rt key value ttl now ok c = Done (e, c1)
          ∧ config c1 = config c ∧ well_formed c1 ∧ l1_consistent c1
          ∧ (EnableL1Cache (config c) = true →
             localCache c1 !! key = Some (mkCacheItem value (add64 now ttl) now now 0)
             ∨ localCache c1 !! key = None).
Proof.
  intros Hrt Hwf Hc.
  destruct (Set_spec rt key value ttl now ok c Hrt Hwf Hc)
    as (c1&c'&Hphase&HSet&Hcfg&Hm&Hn&_).
  destruct (Set_preserves rt Hrt key value ttl now ok c Hwf Hc)
    as (e&c''&HSet'&_&Hwf'&Hc'&_).
  rewrite HSet in HSet'. injection HSet' as <- <-.
  eexists _, c'. split; [exact HSet|]. split_and!; try done.
  intros E1. rewrite Hm. rewrite E1 in Hphase.
  set (item := mkCacheItem value (add64 now ttl) now now 0) in *.
  set (c0 := l1_store key item _ c) in *.
  destruct (over_cap c0).
  - destruct (evictLRU_post rt now 1 c0 Hwf) as (c1'&He&Hp).
    { pose proof (l1_consistent_store key item c Hc) as Hs.
      unfold l1_consistent in Hs. fold c0 in Hs. lia. }
    rewrite He in Hphase. injection Hphase as ->.
    destruct Hp as (_&Hm1&_). rewrite Hm1, lookup_delete_keys.
    destruct (decide _); [by right|left; apply lookup_insert_eq].
  - injection Hphase as <-. left. apply lookup_insert_eq.
Qed.

Lemma json_Marshal_native (item : CacheItem) :
  json_native (Value item) → is_Some (json_Marshal item).
Proof.
  unfold json_Marshal. destruct (Value item); simpl; try done; by eexists.
Qed.

(** A [Get] that finds nothing live in L1 and nothing to serve in the
    reply of Redis returns a miss and leaves L1 as the lookup left it. *)
Lemma Get_stale (rt : Runtime) key now reply (c : MultiLevelCache) :
  well_formed c → l1_consistent c → l1_miss key now c →
  EnableL2Cache (config c) = false ∨ reply_stale now reply →
  ∃ c2, Get rt key now reply c = Done (None, c2)
        ∧ config c2 = config c ∧ well_formed c2 ∧ l1_consistent c2
        ∧ localCache c2 = localCache (l1_lookup key now c).2
        ∧ itemCount c2 = itemCount (l1_lookup key now c).2.
Proof.
  intros Hwf Hc Hmiss Hstale. unfold l1_miss in Hmiss. unfold Get.
  destruct (l1_lookup key now c) as [r c1] eqn:Hl. simpl in Hmiss. subst r.
  destruct (l1_lookup_post _ _ _ _ _ Hwf Hc Hl) as (Hcfg1&Hwf1&Hc1&_&_).
  simpl. rewrite Hcfg1.
  destruct (EnableL2Cache (config c)) eqn:E2; [|by exists c1].
  destruct Hstale as [|Hstale]; [done|].
  destruct (redis_send_same (CmdGet key) c1) as (c2&Hs&Hcfg2&Hwf2&Hc2&Hn2&Hm2);
    [done|done|congruence|].
  rewrite Hs, bind_Done.
  assert (config c2 = config c) by congruence.
  destruct reply as [p| |]; [|by exists c2..].
  unfold reply_stale in Hstale. destruct (json_Unmarshal p) as [item0|]; [|by exists c2].
  destruct (Z.ltb_spec now (ExpireTime item0)); [lia|]. by exists c2.
Qed.

(** C1, amended.  Let ttl > 0 with set_time + ttl within the 64-bit
    range.  After Set(k, v, ttl):
    - with L1 enabled and [Set] not evicting k itself (no cap, the
      insertion within the cap, or some other entry last accessed before
      set_time), L1 holds v under k until set_time + ttl, and as long as
      it does every [Get] of k at now < set_time + ttl returns Some(v),
      whatever Redis replies, and leaves L1 holding it;
    - with L2 enabled, v a value that JSON gives back unchanged, set_time
      within the 64-bit range and Redis returning the bytes [Set] sent, a
      [Get] of k at now < set_time + ttl returns Some(v), also when L1 is
      off or has evicted k;
    - a [Get] of k at now >= set_time + ttl returns None whenever L2 is
      disabled or Redis replies with a miss, an error, bytes that do not
      decode or an envelope that has expired, and the bytes [Set] sent are
      such an envelope; while L1 holds k that [Get] removes the entry and
      lowers item_count by one.
    In Scenario B the reads at t = 4 and t = 6 give Some(42) and None and
    leave item_count = 0. *)
Theorem Set_then_Get :
  (∀ (rt : Runtime) (key : string) (value : GoValue) (ttl now : Z) (ok : bool)
     (c : MultiLevelCache),
     RuntimeOk rt → well_formed c → l1_consistent c →
     0 < ttl → int64_ok (now + ttl) →
     ∃ e c1,
       Set_ rt key value ttl now ok c = Done (e, c1)
       ∧ well_formed c1 ∧ l1_consistent c1
       ∧ (EnableL1Cache (config c) = true → key_survives_Set key now c →
          l1_holds key value (now + ttl) c1)
       ∧ (EnableL2Cache (config c) = true → json_native value → int64_ok now →
          ∃ jsonData,
            json_Marshal (mkCacheItem value (now + ttl) now now 0) = Some jsonData
            ∧ last (sent_log c1)
              = Some (CmdSet key jsonData (seconds_to_Duration ttl))
            ∧ ∀ now', now' < now + ttl →
                ∃ c2, Get rt key now' (GetBytes jsonData) c1 = Done (Some value, c2))
       ∧ (∀ jsonData now',
            json_Marshal (mkCacheItem value (now + ttl) now now 0) = Some jsonData →
            now + ttl ≤ now' → reply_stale now' (GetBytes jsonData))
       ∧ (∀ now' reply, now + ttl ≤ now' →
            EnableL2Cache (config c) = false ∨ reply_stale now' reply →
            ∃ c2, Get rt key now' reply c1 = Done (None, c2)
                  ∧ l1_consistent c2
                  ∧ (EnableL1Cache (config c) = true → localCache c2 !! key = None)))
  ∧ (∀ (rt : Runtime) (key : string) (value : GoValue) (expire : Z)
       (c : MultiLevelCache),
       well_formed c → l1_consistent c → l1_holds key value expire c →
       (∀ now' reply, now' < expire →
          ∃ c2, Get rt key now' reply c = Done (Some value, c2)
                ∧ well_formed c2 ∧ l1_consistent c2 ∧ l1_holds key value expire c2)
       ∧ (∀ now' reply, expire ≤ now' →
            EnableL2Cache (config c) = false ∨ reply_stale now' reply →
            ∃ c2, Get rt key now' reply c = Done (None, c2)
                  ∧ localCache c2 !! key = None
                  ∧ itemCount c2 = itemCount c - 1
                  ∧ itemCount c2 = Z.of_nat (size (localCache c2))))
  ∧ (∀ rt : Runtime,
       ∃ c1 c2 c3,
         Set_ rt "b" (VInt 42) 5 0 true (fresh true false 0) = Done (None, c1)
         ∧ Get rt "b" 4 GetNil c1 = Done (Some (VInt 42), c2)
         ∧ Get rt "b" 6 GetNil c2 = Done (None, c3)
         ∧ itemCount c3 = 0 ∧ localCache c3 = ∅).
Proof.
  split_and!.
  - intros rt key value ttl now ok c Hrt Hwf Hc Httl Hrange.
    destruct (Set_l1_cases rt key value ttl now ok c Hrt Hwf Hc)
      as (e&c1&HSet&Hcfg1&Hwf1&Hc1&Hcases).
    rewrite add64_exact in Hcases by done.
    set (item := mkCacheItem value (now + ttl) now now 0) in *.
    assert (∀ now', now + ttl ≤ now' → l1_miss key now' c1) as Hmiss.
    { intros now' Hge. unfold l1_miss, l1_lookup. rewrite Hcfg1.
      destruct (EnableL1Cache (config c)); [|done].
      destruct (Hcases eq_refl) as [-> | ->]; [|done]. simpl.
      by destruct (Z.ltb_spec now' (now + ttl)); [lia|]. }
    exists e, c1. split_and!; try done.
    + intros E1 Hsurv.
      destruct (Set_l1 rt key value ttl now ok c Hrt Hwf Hc E1 Hsurv)
        as (e'&c1'&HSet'&_&_&_&Hk1).
      rewrite HSet in HSet'. injection HSet' as <- <-.
      rewrite add64_exact in Hk1 by done.
      split; [congruence|]. by eexists.
    + intros E2 Hnat Hnow.
      destruct (json_Marshal_native item Hnat) as [jsonData Hdata].
      exists jsonData. split; [done|]. split.
      { destruct (Set_spec rt key value ttl now ok c Hrt Hwf Hc)
          as (c0&c1'&_&HSet'&_&_&_&Hlog).
        rewrite HSet in HSet'. injection HSet' as _ <-.
        rewrite Hlog, E2, add64_exact by done. fold item. rewrite Hdata.
        apply last_snoc. }
      intros now' Hlive.
      destruct (l1_lookup key now' c1) as [[it|] c1'] eqn:Hl.
      * unfold Get. rewrite Hl. exists c1'. revert Hl. unfold l1_lookup. rewrite Hcfg1.
        destruct (EnableL1Cache (config c)); [|done].
        destruct (Hcases eq_refl) as [-> | ->]; [|done].
        destruct (now' <? ExpireTime item); [|done]. by intros [= <- _].
      * destruct (proj1 (proj2 Hwf1)) as [ps Hps].
        destruct (Get_l2_hit rt key now' c1 jsonData item ps Hrt Hwf1 Hc1)
          as (c2&rc&HGet&_).
        { congruence. }
        { done. }
        { unfold l1_miss. by rewrite Hl. }
        { apply json_Unmarshal_Marshal_native; [|done..].
          unfold item_int64_ok. simpl.
          split_and!; [done..|]. unfold int64_ok, min_int64, max_int64. lia. }
        { done. }
        by exists c2.
    + intros jsonData now' Hdata Hge. unfold reply_stale.
      destruct (json_Unmarshal jsonData) as [item'|] eqn:Hdec; [|done].
      destruct (json_Unmarshal_Marshal_numbers _ _ _ Hdata Hdec) as (->&_). simpl. lia.
    + intros now' reply Hge Hstale.
      destruct (Get_stale rt key now' reply c1 Hwf1 Hc1 (Hmiss now' Hge))
        as (c2&HGet&_&_&Hc2&Hm2&_); [by rewrite Hcfg1|].
      exists c2. split_and!; [done..|].
      intros E1. rewrite Hm2.
      destruct (l1_lookup key now' c1) as [r c1'] eqn:Hl.
      apply (l1_lookup_post _ _ _ _ _ Hwf1 Hc1 Hl); [|congruence].
      pose proof (Hmiss now' Hge) as Hr. unfold l1_miss in Hr. by rewrite Hl in Hr.
  - intros rt key value expire c Hwf Hc (E1&item&Hk&Hv&He). split.
    + intros now' reply Hlive. unfold Get, l1_lookup. rewrite E1, Hk, He.
      destruct (Z.ltb_spec now' expire); [|lia].
      eexists. split; [by rewrite Hv|]. split_and!.
      * exact Hwf.
      * unfold l1_consistent in *. simpl.
        rewrite map_size_insert_Some; [done|by eexists].
      * split; [done|]. eexists. split; [apply lookup_insert_eq|done].
    + intros now' reply Hge Hstale.
      assert (l1_lookup key now' c = (None, l1_remove key c)) as Hl.
      { unfold l1_lookup. rewrite E1, Hk, He.
        by destruct (Z.ltb_spec now' expire); [lia|]. }
      destruct (Get_stale rt key now' reply c Hwf Hc) as (c2&HGet&_&_&Hc2&Hm2&Hn2);
        [by unfold l1_miss; rewrite Hl|done|].
      rewrite Hl in Hm2, Hn2. simpl in Hm2, Hn2.
      exists c2. split_and!; [done| |done|done].
      rewrite Hm2. apply lookup_delete_eq.
  - intros rt. eexists _, _, _. split; [vm_compute; reflexivity|].
    split; [vm_compute; reflexivity|]. split; [vm_compute; reflexivity|].
    split; reflexivity.
Qed.

Lemma Set_then_Get_witness :
  (∃ e c1,
     Set_ go_runtime "b" (VString "x") 5 0 true (fresh true true 10) = Done (e, c1)
     ∧ well_formed c1 ∧ l1_consistent c1
     ∧ (EnableL1Cache (config (fresh true true 10)) = true →
        key_survives_Set "b" 0 (fresh true true 10) →
        l1_holds "b" (VString "x") (0 + 5) c1)
     ∧ (EnableL2Cache (config (fresh true true 10)) = true →
        json_native (VString "x") → int64_ok 0 →
        ∃ jsonData,
          json_Marshal (mkCacheItem (VString "x") (0 + 5) 0 0 0) = Some jsonData
          ∧ last (sent_log c1) = Some (CmdSet "b" jsonData (seconds_to_Duration 5))
          ∧ ∀ now', now' < 0 + 5 →
              ∃ c2, Get go_runtime "b" now' (GetBytes jsonData) c1
                    = Done (Some (VString "x"), c2))
     ∧ (∀ jsonData now',
          json_Marshal (mkCacheItem (VString "x") (0 + 5) 0 0 0) = Some jsonData →
          0 + 5 ≤ now' → reply_stale now' (GetBytes jsonData))
     ∧ (∀ now' reply, 0 + 5 ≤ now' →
          EnableL2Cache (config (fresh true true 10)) = false ∨ reply_stale now' reply →
          ∃ c2, Get go_runtime "b" now' reply c1 = Done (None, c2)
                ∧ l1_consistent c2
                ∧ (EnableL1Cache (config (fresh true true 10)) = true →
                   localCache c2 !! "b" = None)))
  ∧ ((∀ now' reply, now' < 100 →
        ∃ c2, Get go_runtime "a" now' reply cache_a = Done (Some (VString "va"), c2)
              ∧ well_formed c2 ∧ l1_consistent c2
              ∧ l1_holds "a" (VString "va") 100 c2)
     ∧ (∀ now' reply, 100 ≤ now' →
          EnableL2Cache (config cache_a) = false ∨ reply_stale now' reply →
          ∃ c2, Get go_runtime "a" now' reply cache_a = Done (None, c2)
                ∧ localCache c2 !! "a" = None
                ∧ itemCount c2 = itemCount cache_a - 1
                ∧ itemCount c2 = Z.of_nat (size (localCache c2)))).
Proof.
  split.
  - apply (proj1 Set_then_Get go_runtime "b" (VString "x") 5 0 true (fresh true true 10)).
    + exact go_runtime_ok.
    + unfold well_formed. simpl. split_and!; [intros _|..]; by eexists.
    + reflexivity.
    + lia.
    + unfold int64_ok, min_int64, max_int64. simpl. lia.
  - apply (proj1 (proj2 Set_then_Get) go_runtime "a" (VString "va") 100 cache_a).
    + unfold well_formed. simpl. split_and!; [done|by eexists..].
    + reflexivity.
    + unfold l1_holds. split; [reflexivity|]. exists item_a.
      split; [reflexivity|]. split; reflexivity.
Defined.

(** * Further properties of the code *)

(** ** The other placement policies (strategy.go) *)

Lemma Strategy_nested_ind (P : Strategy → Prop) :
  (∀ a b c, P (FrequencyBasedStrategy a b c)) →
  (∀ a b c, P (TimeWindowStrategy a b c)) →
  (∀ l b, Forall P l → P (HybridStrategy l b)) →
  ∀ s, P s.
Proof.
  intros Hf Ht Hh. fix IH 1. intros [a b c|a b c|l b].
  - apply Hf.
  - apply Ht.
  - apply Hh. induction l as [|s l IHl]; constructor; [apply IH|apply IHl].
Qed.

(** X1.  The time-window policy promotes exactly when threshold > 0,
    window > 0, access_time >= now - window and access_count >= threshold,
    and demotes exactly when idle_threshold > 0 and
    now - access_time >= idle_threshold (both differences within 64 bits). *)
Theorem time_window_policy_decides (threshold window idle : Z) (item : CacheItem) (now : Z)
  (Hwindow : int64_ok (now - window))
  (Haccess : int64_ok (now - AccessTime item)) :
  (ShouldPromote (NewTimeWindowStrategy threshold window idle) item now = true
   ↔ 0 < threshold ∧ 0 < window ∧ now - window ≤ AccessTime item
     ∧ threshold ≤ AccessCount item)
  ∧ (ShouldDemote (NewTimeWindowStrategy threshold window idle) item now = true
     ↔ 0 < idle ∧ idle ≤ now - AccessTime item).
Proof.
  simpl. rewrite !sub64_exact by done. split.
  - destruct (Z.ltb_spec 0 window), (Z.ltb_spec 0 threshold); simpl;
      rewrite ?andb_true_iff, ?Z.leb_le; first [tauto | split; [done|lia]].
  - destruct (Z.ltb_spec 0 idle); rewrite ?Z.leb_le; [tauto|]. split; [done|lia].
Qed.

Lemma time_window_policy_decides_witness :
  (ShouldPromote (NewTimeWindowStrategy 5 300 600) (mkCacheItem VNil 1000 0 100 5) 200 = true
   ↔ 0 < 5 ∧ 0 < 300 ∧ 200 - 300 ≤ 100 ∧ 5 ≤ 5)
  ∧ (ShouldDemote (NewTimeWindowStrategy 5 300 600) (mkCacheItem VNil 1000 0 100 5) 200 = true
     ↔ 0 < 600 ∧ 600 ≤ 200 - 100).
Proof.
  apply (time_window_policy_decides 5 300 600 (mkCacheItem VNil 1000 0 100 5) 200);
    unfold int64_ok, min_int64, max_int64; simpl; lia.
Defined.

(** X2.  A hybrid policy over an empty list never holds, whatever
    [requireAll] says; over a non-empty list it holds when every child
    holds ([requireAll]) or when some child holds (otherwise). *)
Theorem hybrid_policy_combines (strategies : list Strategy) (requireAll : bool)
  (item : CacheItem) (now : Z) :
  (ShouldPromote (NewHybridPromotionStrategy requireAll strategies) item now = true
   ↔ strategies ≠ []
     ∧ if requireAll
       then ∀ s, s ∈ strategies → ShouldPromote s item now = true
       else ∃ s, s ∈ strategies ∧ ShouldPromote s item now = true)
  ∧ (ShouldDemote (NewHybridDemotionStrategy requireAll strategies) item now = true
     ↔ strategies ≠ []
       ∧ if requireAll
         then ∀ s, s ∈ strategies → ShouldDemote s item now = true
         else ∃ s, s ∈ strategies ∧ ShouldDemote s item now = true).
Proof.
  assert (∀ (f : Strategy → bool) (l : list Strategy),
            (match l with
             | [] => false
             | _ => if requireAll then forallb f l else existsb f l
             end) = true
            ↔ l ≠ [] ∧ if requireAll then ∀ s, s ∈ l → f s = true
                       else ∃ s, s ∈ l ∧ f s = true) as Hgen.
  { intros f l. destruct l as [|x l]; [split; [done|by intros [? _]]|].
    destruct requireAll.
    - rewrite forallb_forall. split.
      + intros H. split; [done|]. intros s Hs. apply H. by apply list_elem_of_In.
      + intros [_ H] s Hs. apply H. by apply list_elem_of_In.
    - rewrite existsb_exists. split.
      + intros (s&Hs&Hf). split; [done|]. exists s. split; [by apply list_elem_of_In|done].
      + intros [_ (s&Hs&Hf)]. exists s. split; [by apply list_elem_of_In|done]. }
  split.
  - apply (Hgen (fun ps => ShouldPromote ps item now) strategies).
  - apply (Hgen (fun ds => ShouldDemote ds item now) strategies).
Qed.

(** X3.  Promotion only looks at create_time, access_time and
    access_count, and further reads never take it back: an entry the
    policy promotes is still promoted with a larger access_count (same
    times, any value and expire_time), for every policy including nested
    hybrids. *)
Theorem promotion_monotone_in_access_count (s : Strategy) (item item' : CacheItem) (now : Z)
  (Hcreate : CreateTime item' = CreateTime item)
  (Haccess : AccessTime item' = AccessTime item)
  (Hcount : AccessCount item ≤ AccessCount item')
  (Hpromote : ShouldPromote s item now = true) :
  ShouldPromote s item' now = true.
Proof.
  revert Hpromote. induction s as [a b c|a b c|l b IH] using Strategy_nested_ind; simpl.
  - rewrite Hcreate. destruct ((0 <? a) && (0 <? b)); [|done].
    rewrite !andb_true_iff, !Z.leb_le. lia.
  - rewrite Haccess. destruct ((0 <? b) && (0 <? a)); [|done].
    rewrite !andb_true_iff, !Z.leb_le. lia.
  - destruct l as [|x l]; [done|]. destruct b.
    + rewrite !forallb_forall. intros H s Hs.
      rewrite Forall_forall in IH. apply IH; [by apply list_elem_of_In|by apply H].
    + rewrite !existsb_exists. intros (s&Hs&H). exists s. split; [done|].
      rewrite Forall_forall in IH. apply IH; [by apply list_elem_of_In|done].
Qed.

Lemma promotion_monotone_in_access_count_witness :
  ShouldPromote (NewHybridPromotionStrategy false
                   [NewFrequencyBasedStrategy 3 60 0; NewTimeWindowStrategy 5 300 0])
                (mkCacheItem (VString "y") 900 0 7 9) 10 = true.
Proof.
  apply (promotion_monotone_in_access_count _ (mkCacheItem (VString "x") 1000 0 7 3));
    [reflexivity|reflexivity|simpl; lia|reflexivity].
Defined.

(** X4.  Demotion looks at access_time alone: two entries last accessed
    at the same second get the same verdict from every policy, whatever
    their value, counts and other times. *)
Theorem demotion_depends_on_access_time_only (s : Strategy) (item item' : CacheItem) (now : Z)
  (Haccess : AccessTime item' = AccessTime item) :
  ShouldDemote s item' now = ShouldDemote s item now.
Proof.
  induction s as [a b c|a b c|l b IH] using Strategy_nested_ind; simpl.
  - by rewrite Haccess.
  - by rewrite Haccess.
  - destruct l as [|x l]; [done|].
    assert (∀ f g : Strategy → bool, Forall (fun s => f s = g s) (x :: l) →
              forallb f (x :: l) = forallb g (x :: l)
              ∧ existsb f (x :: l) = existsb g (x :: l)) as Hext.
    { intros f g. generalize (x :: l). intros l0. induction 1 as [|y l1 Hy _ [IH1 IH2]];
        [done|]. simpl. by rewrite Hy, IH1, IH2. }
    destruct (Hext _ _ IH) as [Hall Hany]. by destruct b.
Qed.

Lemma demotion_depends_on_access_time_only_witness :
  ShouldDemote (NewHybridDemotionStrategy true
                  [NewFrequencyBasedStrategy 0 0 300; NewTimeWindowStrategy 0 0 600])
               (mkCacheItem (VString "y") 5000 50 100 9) 800
  = ShouldDemote (NewHybridDemotionStrategy true
                    [NewFrequencyBasedStrategy 0 0 300; NewTimeWindowStrategy 0 0 600])
                 (mkCacheItem (VString "x") 1000 0 100 3) 800.
Proof.
  apply (demotion_depends_on_access_time_only _ (mkCacheItem (VString "x") 1000 0 100 3)).
  reflexivity.
Defined.

(** ** Construction, removal and shutdown (cache.go) *)

(** X5.  The constructor fails exactly when L2 is enabled and either the
    Redis options are nil or the first PING fails.  Otherwise it returns
    an empty cache with a zero counter and an open stop channel, keeps
    the strategies of the caller and fills in frequency (3, 60, 0) for a
    nil promotion strategy and frequency (0, 0, 300) for a nil demotion
    strategy, starts the ticker exactly when L1 is enabled and holds a
    Redis client exactly when L2 is enabled. *)
Theorem NewMultiLevelCache_result (cfg : CacheConfig) (ping_ok : bool) :
  (∀ e, NewMultiLevelCache cfg ping_ok = inl e
        ↔ EnableL2Cache cfg = true
          ∧ ((RedisOptions cfg = None ∧ e = ErrRedisOptionsNil)
             ∨ (is_Some (RedisOptions cfg) ∧ ping_ok = false ∧ e = ErrRedis)))
  ∧ (∀ c, NewMultiLevelCache cfg ping_ok = inr c →
          localCache c = ∅ ∧ itemCount c = 0 ∧ stopCleanup c = ChanOpen
          ∧ cleanupTicker c = EnableL1Cache cfg
          ∧ EnableL1Cache (config c) = EnableL1Cache cfg
          ∧ EnableL2Cache (config c) = EnableL2Cache cfg
          ∧ MaxL1Size (config c) = MaxL1Size cfg
          ∧ PromotionStrategy (config c)
            = Some (default (NewFrequencyBasedStrategy 3 60 0) (PromotionStrategy cfg))
          ∧ DemotionStrategy (config c)
            = Some (default (NewFrequencyBasedStrategy 0 0 300) (DemotionStrategy cfg))
          ∧ (is_Some (redisClient c) ↔ EnableL2Cache cfg = true)
          ∧ sent_log c = if EnableL2Cache cfg then [CmdPing] else []).
Proof.
  unfold NewMultiLevelCache. split.
  - intros e. destruct (EnableL2Cache cfg); [|split; [done|by intros [? _]]].
    destruct (RedisOptions cfg) as [opts|].
    + destruct ping_ok.
      * split; [done|]. intros [_ [[? _]|(_&?&_)]]; done.
      * split.
        -- intros [= <-]. split; [done|]. right. split_and!; [by eexists|done..].
        -- intros [_ [[? _]|(_&_&->)]]; done.
    + split.
      * intros [= <-]. split; [done|]. by left.
      * intros [_ [[_ ->]|([? ?]&_)]]; done.
  - intros c Hc.
    assert (∃ client, c = mkMultiLevelCache (with_default_strategies cfg) ∅ client 0
                            (EnableL1Cache cfg) ChanOpen
                      ∧ client = if EnableL2Cache cfg
                                 then Some (mkRedisClient false [CmdPing]) else None)
      as (client&->&Hclient).
    { destruct (EnableL2Cache cfg).
      - destruct (RedisOptions cfg); [|done]. destruct ping_ok; [|done].
        injection Hc as <-. by eexists.
      - injection Hc as <-. by eexists. }
    unfold sent_log. simpl. split_and!; try done.
    + by destruct (PromotionStrategy cfg).
    + by destruct (DemotionStrategy cfg).
    + rewrite Hclient. destruct (EnableL2Cache cfg); split; try done;
        first [intros _; by eexists | by intros [? ?]].
    + rewrite Hclient. by destruct (EnableL2Cache cfg).
Qed.

(** X6.  [Delete] on a constructed cache returns; with L1 enabled the key
    is gone from L1 and the counter drops by one exactly when the key was
    there, the other entries are untouched; with L2 enabled one DEL is
    sent (also when L1 did not hold the key) and the Redis failure is the
    error returned.  A second [Delete] of the same key changes nothing in
    L1. *)
Theorem Delete_removes_key (key : string) (ok : bool) (c : MultiLevelCache)
  (Hwf : well_formed c) :
  ∃ c',
    Delete key ok c
    = Done (if EnableL2Cache (config c) && negb ok then Some ErrRedis else None, c')
    ∧ localCache c'
      = (if EnableL1Cache (config c) then delete key (localCache c) else localCache c)
    ∧ itemCount c'
      = (if EnableL1Cache (config c)
         then match localCache c !! key with
              | Some _ => itemCount c - 1
              | None => itemCount c
              end
         else itemCount c)
    ∧ sent_log c' = sent_log c ++ (if EnableL2Cache (config c) then [CmdDel key] else [])
    ∧ ∀ ok', ∃ e c'', Delete key ok' c' = Done (e, c'')
                      ∧ localCache c'' = localCache c' ∧ itemCount c'' = itemCount c'.
Proof.
  assert (∀ c0 ok0, well_formed c0 →
    ∃ c', Delete key ok0 c0
          = Done (if EnableL2Cache (config c0) && negb ok0 then Some ErrRedis else None, c')
          ∧ config c' = config c0 ∧ well_formed c'
          ∧ localCache c'
            = (if EnableL1Cache (config c0) then delete key (localCache c0)
               else localCache c0)
          ∧ itemCount c'
            = (if EnableL1Cache (config c0)
               then match localCache c0 !! key with
                    | Some _ => itemCount c0 - 1
                    | None => itemCount c0
                    end
               else itemCount c0)
          ∧ sent_log c'
            = sent_log c0 ++ (if EnableL2Cache (config c0) then [CmdDel key] else []))
    as Hone.
  { intros c0 ok0 Hwf0. unfold Delete.
    set (c1 := if EnableL1Cache (config c0) then _ else c0).
    assert (config c1 = config c0 ∧ redisClient c1 = redisClient c0
            ∧ localCache c1 = (if EnableL1Cache (config c0)
                               then delete key (localCache c0) else localCache c0)
            ∧ itemCount c1 = (if EnableL1Cache (config c0)
                              then match localCache c0 !! key with
                                   | Some _ => itemCount c0 - 1
                                   | None => itemCount c0
                                   end
                              else itemCount c0)) as (Hcfg&Hrc&Hm&Hn).
    { subst c1. destruct (EnableL1Cache (config c0)); [|done].
      destruct (localCache c0 !! key) eqn:Hk; [done|].
      by rewrite delete_id. }
    rewrite Hcfg. destruct (EnableL2Cache (config c0)) eqn:E2.
    - destruct (redis_send_log (CmdDel key) c1) as (c2&Hs&Hp&Hlog).
      { rewrite Hrc. by apply Hwf0. }
      rewrite Hs, bind_Done. exists c2.
      assert (well_formed c1) as Hwf1.
      { unfold well_formed. by rewrite Hcfg, Hrc. }
      pose proof (l1_post_wf _ _ _ _ Hwf1 Hp) as Hwf2.
      destruct Hp as (Hcfg2&Hm2&Hn2&_).
      split; [by destruct ok0|]. split_and!; try done; try congruence.
      rewrite Hlog. unfold sent_log. by rewrite Hrc.
    - exists c1. split; [done|]. split_and!; try done.
      + unfold well_formed. by rewrite Hcfg, Hrc.
      + unfold sent_log. by rewrite Hrc, app_nil_r. }
  destruct (Hone c ok Hwf) as (c'&HD&Hcfg&Hwf'&Hm&Hn&Hlog).
  exists c'. split_and!; try done.
  intros ok'. destruct (Hone c' ok' Hwf') as (c''&HD'&_&_&Hm'&Hn'&_).
  eexists _, c''. split; [done|]. rewrite Hm', Hn', Hcfg.
  destruct (EnableL1Cache (config c)); [|done].
  assert (localCache c' !! key = None) as Hnone.
  { rewrite Hm. apply lookup_delete_eq. }
  rewrite Hnone. split; [|done]. by apply delete_id.
Qed.

Lemma Delete_removes_key_witness :
  ∃ c',
    Delete "a" false cache_ab
    = Done (if EnableL2Cache (config cache_ab) && negb false then Some ErrRedis else None, c')
    ∧ localCache c'
      = (if EnableL1Cache (config cache_ab) then delete "a" (localCache cache_ab)
         else localCache cache_ab)
    ∧ itemCount c'
      = (if EnableL1Cache (config cache_ab)
         then match localCache cache_ab !! "a" with
              | Some _ => itemCount cache_ab - 1
              | None => itemCount cache_ab
              end
         else itemCount cache_ab)
    ∧ sent_log c'
      = sent_log cache_ab ++ (if EnableL2Cache (config cache_ab) then [CmdDel "a"] else [])
    ∧ ∀ ok', ∃ e c'', Delete "a" ok' c' = Done (e, c'')
                      ∧ localCache c'' = localCache c' ∧ itemCount c'' = itemCount c'.
Proof.
  apply (Delete_removes_key "a" false cache_ab).
  unfold well_formed. simpl. split_and!; [done|by eexists..].
Defined.

(** X7.  [Clear] on a constructed cache returns; with L1 enabled L1 is
    empty and the counter is zero afterwards; with L2 enabled one FLUSHDB
    is sent and the Redis failure is the error returned, L1 being cleared
    all the same. *)
Theorem Clear_empties_l1 (ok : bool) (c : MultiLevelCache)
  (Hwf : well_formed c) :
  ∃ c',
    Clear ok c
    = Done (if EnableL2Cache (config c) && negb ok then Some ErrRedis else None, c')
    ∧ localCache c' = (if EnableL1Cache (config c) then ∅ else localCache c)
    ∧ itemCount c' = (if EnableL1Cache (config c) then 0 else itemCount c)
    ∧ sent_log c' = sent_log c ++ (if EnableL2Cache (config c) then [CmdFlushDB] else []).
Proof.
  unfold Clear.
  set (c1 := if EnableL1Cache (config c) then _ else c).
  assert (config c1 = config c ∧ redisClient c1 = redisClient c
          ∧ localCache c1 = (if EnableL1Cache (config c) then ∅ else localCache c)
          ∧ itemCount c1 = (if EnableL1Cache (config c) then 0 else itemCount c))
    as (Hcfg&Hrc&Hm&Hn).
  { subst c1. by destruct (EnableL1Cache (config c)). }
  rewrite Hcfg. destruct (EnableL2Cache (config c)) eqn:E2.
  - destruct (redis_send_log CmdFlushDB c1) as (c2&Hs&Hp&Hlog).
    { rewrite Hrc. by apply Hwf. }
    rewrite Hs, bind_Done. exists c2. destruct Hp as (_&Hm2&Hn2&_).
    split; [by destruct ok|]. split_and!; try congruence.
    rewrite Hlog. unfold sent_log. by rewrite Hrc.
  - exists c1. split; [done|]. split_and!; try done.
    unfold sent_log. by rewrite Hrc, app_nil_r.
Qed.

Lemma Clear_empties_l1_witness :
  ∃ c',
    Clear true cache_ab
    = Done (if EnableL2Cache (config cache_ab) && negb true then Some ErrRedis else None, c')
    ∧ localCache c' = (if EnableL1Cache (config cache_ab) then ∅ else localCache cache_ab)
    ∧ itemCount c' = (if EnableL1Cache (config cache_ab) then 0 else itemCount cache_ab)
    ∧ sent_log c'
      = sent_log cache_ab ++ (if EnableL2Cache (config cache_ab) then [CmdFlushDB] else []).
Proof.
  apply (Clear_empties_l1 true cache_ab).
  unfold well_formed. simpl. split_and!; [done|by eexists..].
Defined.

(** X8.  [Close] panics exactly when the ticker exists and the stop
    channel is closed already.  Otherwise it returns, leaves L1 and the
    counter alone, closes the stop channel when the ticker exists, and
    reports the failure of closing the Redis client when L2 is enabled.
    With L1 disabled (no ticker) it can be called again without panic. *)
Theorem Close_panics_only_on_closed_channel (ok : bool) (c : MultiLevelCache) :
  (∀ why, Close ok c = Panic why
          ↔ cleanupTicker c = true ∧ stopCleanup c = ChanClosed
            ∧ why = CloseOfClosedChannel)
  ∧ (∀ e c', Close ok c = Done (e, c') →
       localCache c' = localCache c ∧ itemCount c' = itemCount c
       ∧ config c' = config c ∧ cleanupTicker c' = cleanupTicker c
       ∧ stopCleanup c' = (if cleanupTicker c then ChanClosed else stopCleanup c)
       ∧ e = (if EnableL2Cache (config c) && bool_decide (is_Some (redisClient c))
                 && negb ok
              then Some ErrRedis else None)
       ∧ (cleanupTicker c = false → ∀ ok', ∃ r, Close ok' c' = Done r)).
Proof.
  unfold Close. split.
  - intros why. destruct (cleanupTicker c).
    + destruct (stopCleanup c).
      * rewrite bind_Done. split; [|by intros (_&?&_)].
        destruct (EnableL2Cache _); [destruct (redisClient _)|]; done.
      * split; [by intros [= <-]|by intros (_&_&->)].
    + rewrite bind_Done. split; [|by intros (?&_)].
      destruct (EnableL2Cache _); [destruct (redisClient _)|]; done.
  - intros e c'. destruct (cleanupTicker c) eqn:Ht.
    + destruct (stopCleanup c); [|done]. rewrite bind_Done. simpl.
      destruct (EnableL2Cache (config c)); [destruct (redisClient c)|];
        intros [= <- <-]; simpl; split_and!; try done; by destruct ok.
    + rewrite bind_Done.
      destruct (EnableL2Cache (config c)) eqn:E2; [destruct (redisClient c) eqn:Hrc|];
        intros [= <- <-]; simpl; split_and!; try done; try (by destruct ok);
        intros _ ok'; rewrite Ht, bind_Done; simpl; rewrite ?E2, ?Hrc; by eexists.
Qed.

(** ** Writes and reads (cache.go) *)

Lemma add64_sub64 (now expiration : Z) :
  int64_ok expiration → add64 now (sub64 expiration now) = expiration.
Proof.
  unfold add64, sub64, wrap64, int64_ok, min_int64, max_int64. intros H.
  replace (now + ((expiration - now + 2 ^ 63) mod 2 ^ 64 - 2 ^ 63) + 2 ^ 63)
    with (now + (expiration - now + 2 ^ 63) mod 2 ^ 64) by lia.
  rewrite Z.add_mod_idemp_r by lia.
  replace (now + (expiration - now + 2 ^ 63)) with (expiration + 2 ^ 63) by lia.
  rewrite Z.mod_small; lia.
Qed.

(** X9.  [SetWithExpiration] with a deadline that is not in the future
    does nothing and reports success.  With a deadline in the future (and
    L1 enabled, the entry not evicted at once) the entry it stores expires
    exactly at the deadline, also when deadline - now does not fit 64
    bits. *)
Theorem SetWithExpiration_deadline :
  (∀ (rt : Runtime) key value (expiration now : Z) ok (c : MultiLevelCache),
     expiration ≤ now →
     SetWithExpiration rt key value expiration now ok c = Done (None, c))
  ∧ (∀ (rt : Runtime) key value (expiration now : Z) ok (c : MultiLevelCache),
       RuntimeOk rt → well_formed c → l1_consistent c →
       EnableL1Cache (config c) = true →
       now < expiration → int64_ok expiration →
       key_survives_Set key now c →
       ∃ e c', SetWithExpiration rt key value expiration now ok c = Done (e, c')
               ∧ localCache c' !! key = Some (mkCacheItem value expiration now now 0)).
Proof.
  split.
  - intros rt key value expiration now ok c Hle. unfold SetWithExpiration.
    destruct (Z.leb_spec expiration now); [done|lia].
  - intros rt key value expiration now ok c Hrt Hwf Hc E1 Hlt Hok Hsurv.
    unfold SetWithExpiration. destruct (Z.leb_spec expiration now); [lia|].
    destruct (Set_l1 rt key value (sub64 expiration now) now ok c Hrt Hwf Hc E1 Hsurv)
      as (e&c'&HSet&_&_&_&Hk).
    exists e, c'. split; [done|]. by rewrite add64_sub64 in Hk.
Qed.

Lemma SetWithExpiration_deadline_witness :
  ∃ e c', SetWithExpiration go_runtime "d" (VString "v") max_int64 (-5) true
            (fresh true false 0) = Done (e, c')
          ∧ localCache c' !! "d" = Some (mkCacheItem (VString "v") max_int64 (-5) (-5) 0).
Proof.
  apply (proj2 SetWithExpiration_deadline go_runtime "d" (VString "v") max_int64 (-5)
               true (fresh true false 0)).
  - exact go_runtime_ok.
  - unfold well_formed. simpl. split_and!; [done|by eexists..].
  - reflexivity.
  - reflexivity.
  - unfold max_int64. lia.
  - unfold int64_ok, min_int64, max_int64. lia.
  - left. simpl. lia.
Defined.

(** X10.  [Set] on a constructed cache returns.  Its error is the marshal
    failure or the Redis failure when L2 is enabled and nil otherwise;
    when L2 is enabled and the value encodes, the last command sent is
    the SET of the encoded envelope with the ttl as expiration.  The L1
    entry is written before L2 is tried: with L1 enabled it is there
    after the call, also when L2 failed, provided the size check of this
    [Set] does not evict it (there is no cap, the insertion stays within
    the cap, or some other entry was last accessed before set_time). *)
Theorem Set_reports_l2_failure_keeps_l1 (rt : Runtime) key value (ttl now : Z) ok
  (c : MultiLevelCache)
  (Hrt : RuntimeOk rt)
  (Hwf : well_formed c)
  (Hquiet : l1_consistent c) :
  ∃ c',
    Set_ rt key value ttl now ok c
    = Done (if EnableL2Cache (config c)
            then match json_Marshal (mkCacheItem value (add64 now ttl) now now 0) with
                 | None => Some ErrMarshal
                 | Some _ => if ok then None else Some ErrRedis
                 end
            else None, c')
    ∧ (EnableL2Cache (config c) = true →
       ∀ jsonData,
         json_Marshal (mkCacheItem value (add64 now ttl) now now 0) = Some jsonData →
         last (sent_log c') = Some (CmdSet key jsonData (seconds_to_Duration ttl)))
    ∧ (EnableL1Cache (config c) = true → key_survives_Set key now c →
       localCache c' !! key = Some (mkCacheItem value (add64 now ttl) now now 0)).
Proof.
  destruct (Set_spec rt key value ttl now ok c Hrt Hwf Hquiet)
    as (c1&c'&_&HSet'&_&_&_&Hlog).
  exists c'. split; [done|]. split.
  - intros E2 data Hdata. rewrite Hlog, E2, Hdata. apply last_snoc.
  - intros HL1 Hsurv.
    destruct (Set_l1 rt key value ttl now ok c Hrt Hwf Hquiet HL1 Hsurv)
      as (e&c2&HSet&_&_&_&Hk).
    rewrite HSet' in HSet. by injection HSet as _ <-.
Qed.

Lemma Set_reports_l2_failure_keeps_l1_witness :
  ∃ c',
    Set_ go_runtime "k" (VChan 1) 60 0 false (fresh true true 10)
    = Done (if EnableL2Cache (config (fresh true true 10))
            then match json_Marshal (mkCacheItem (VChan 1) (add64 0 60) 0 0 0) with
                 | None => Some ErrMarshal
                 | Some _ => if false then None else Some ErrRedis
                 end
            else None, c')
    ∧ (EnableL2Cache (config (fresh true true 10)) = true →
       ∀ jsonData,
         json_Marshal (mkCacheItem (VChan 1) (add64 0 60) 0 0 0) = Some jsonData →
         last (sent_log c') = Some (CmdSet "k" jsonData (seconds_to_Duration 60)))
    ∧ (EnableL1Cache (config (fresh true true 10)) = true →
       key_survives_Set "k" 0 (fresh true true 10) →
       localCache c' !! "k" = Some (mkCacheItem (VChan 1) (add64 0 60) 0 0 0)).
Proof.
  apply (Set_reports_l2_failure_keeps_l1 go_runtime "k" (VChan 1) 60 0 false
           (fresh true true 10) go_runtime_ok).
  - unfold well_formed. simpl. split_and!; [intros _|..]; by eexists.
  - reflexivity.
Defined.

(** X11.  A [Set] that stays within the cap (or has no cap) changes L1
    at the key alone: the entry is replaced by a fresh one with
    create_time = access_time = now and access_count = 0, and the counter
    grows by one exactly when the key is new.  With L1 disabled L1 is not
    touched. *)
Theorem Set_within_cap_writes_one_key (rt : Runtime) key value (ttl now : Z) ok
  (c : MultiLevelCache)
  (Hrt : RuntimeOk rt)
  (Hwf : well_formed c)
  (Hquiet : l1_consistent c)
  (Hcap : MaxL1Size (config c) ≤ 0
          ∨ match localCache c !! key with
            | Some _ => itemCount c
            | None => itemCount c + 1
            end ≤ MaxL1Size (config c)) :
  ∃ e c',
    Set_ rt key value ttl now ok c = Done (e, c')
    ∧ localCache c'
      = (if EnableL1Cache (config c)
         then <[key := mkCacheItem value (add64 now ttl) now now 0]> (localCache c)
         else localCache c)
    ∧ itemCount c'
      = (if EnableL1Cache (config c)
         then match localCache c !! key with
              | Some _ => itemCount c
              | None => itemCount c + 1
              end
         else itemCount c).
Proof.
  destruct (Set_spec rt key value ttl now ok c Hrt Hwf Hquiet)
    as (c1&c'&Hphase&HSet&_&Hm&Hn&_).
  eexists _, c'. split; [exact HSet|]. rewrite Hm, Hn.
  destruct (EnableL1Cache (config c)); [|by injection Hphase as <-].
  assert (over_cap (l1_store key (mkCacheItem value (add64 now ttl) now now 0)
                      (match localCache c !! key with
                       | Some _ => itemCount c
                       | None => itemCount c + 1
                       end) c) = false) as Hov.
  { unfold over_cap. simpl.
    destruct (Z.ltb_spec 0 (MaxL1Size (config c))); [|done]. simpl.
    apply Z.ltb_ge. lia. }
  rewrite Hov in Hphase. by injection Hphase as <-.
Qed.

Lemma Set_within_cap_writes_one_key_witness :
  ∃ e c',
    Set_ go_runtime "a" (VString "new") 30 9 true cache_a = Done (e, c')
    ∧ localCache c'
      = (if EnableL1Cache (config cache_a)
         then <["a" := mkCacheItem (VString "new") (add64 9 30) 9 9 0]> (localCache cache_a)
         else localCache cache_a)
    ∧ itemCount c'
      = (if EnableL1Cache (config cache_a)
         then match localCache cache_a !! "a" with
              | Some _ => itemCount cache_a
              | None => itemCount cache_a + 1
              end
         else itemCount cache_a).
Proof.
  apply (Set_within_cap_writes_one_key go_runtime "a" (VString "new") 30 9 true cache_a
           go_runtime_ok).
  - unfold well_formed. simpl. split_and!; [done|by eexists..].
  - reflexivity.
  - right. vm_compute. discriminate.
Defined.

(** X12.  A read that hits a live L1 entry returns its value (and
    expire_time - now for [GetWithTTL]), sets access_time to now and adds
    one to access_count, keeps the counter, and does not contact Redis:
    it needs no client and sends no command, whatever Redis would have
    replied. *)
Theorem l1_hit_stays_local (rt : Runtime) key now (c : MultiLevelCache) (item : CacheItem)
  (HL1 : EnableL1Cache (config c) = true)
  (Hentry : localCache c !! key = Some item)
  (Hlive : now < ExpireTime item) :
  let c' := set_localCache
              (<[key := mkCacheItem (Value item) (ExpireTime item) (CreateTime item)
                                    now (add64 (AccessCount item) 1)]> (localCache c)) c in
  (∀ reply, Get rt key now reply c = Done (Some (Value item), c'))
  ∧ (∀ ttl_reply reply,
       GetWithTTL rt key now ttl_reply reply c
       = Done (Some (Value item, sub64 (ExpireTime item) now), c'))
  ∧ itemCount c' = itemCount c ∧ sent_log c' = sent_log c
  ∧ redisClient c' = redisClient c.
Proof.
  intros c'. unfold Get, GetWithTTL, l1_lookup. rewrite HL1, Hentry.
  destruct (Z.ltb_spec now (ExpireTime item)); [|lia]. by split_and!.
Qed.

Lemma l1_hit_stays_local_witness :
  let c' := set_localCache
              (<["a" := mkCacheItem (Value item_a) (ExpireTime item_a) (CreateTime item_a)
                                    7 (add64 (AccessCount item_a) 1)]> (localCache cache_a))
              cache_a in
  (∀ reply, Get go_runtime "a" 7 reply cache_a = Done (Some (Value item_a), c'))
  ∧ (∀ ttl_reply reply,
       GetWithTTL go_runtime "a" 7 ttl_reply reply cache_a
       = Done (Some (Value item_a, sub64 (ExpireTime item_a) 7), c'))
  ∧ itemCount c' = itemCount cache_a ∧ sent_log c' = sent_log cache_a
  ∧ redisClient c' = redisClient cache_a.
Proof.
  apply (l1_hit_stays_local go_runtime "a" 7 cache_a item_a); [reflexivity..|].
  simpl. lia.
Defined.

(** X13.  When L1 misses and Redis answers with a miss, with bytes that
    do not decode, or with an envelope whose expire_time has passed,
    [Get] returns a miss, sends the GET and nothing else (no write-back),
    and leaves L1 as the L1 lookup left it. *)
Theorem Get_l2_miss_writes_nothing (rt : Runtime) key now reply (c : MultiLevelCache)
  (Hwf : well_formed c)
  (HL2 : EnableL2Cache (config c) = true)
  (Hmiss : l1_miss key now c)
  (Hreply : reply = GetNil
            ∨ ∃ p, reply = GetBytes p
                   ∧ (json_Unmarshal p = None
                      ∨ ∃ item, json_Unmarshal p = Some item ∧ ExpireTime item ≤ now)) :
  ∃ c', Get rt key now reply c = Done (None, c')
        ∧ localCache c' = localCache (l1_lookup key now c).2
        ∧ itemCount c' = itemCount (l1_lookup key now c).2
        ∧ sent_log c' = sent_log c ++ [CmdGet key].
Proof.
  unfold l1_miss in Hmiss. unfold Get.
  destruct (l1_lookup key now c) as [r c1] eqn:Hl. simpl in Hmiss. subst r. simpl.
  assert (config c1 = config c ∧ redisClient c1 = redisClient c) as [Hcfg Hrc].
  { revert Hl. unfold l1_lookup. destruct (EnableL1Cache _); [|by intros [= <-]].
    destruct (localCache c !! key) as [item|]; [|by intros [= <-]].
    by destruct (now <? ExpireTime item); intros [= <-]. }
  rewrite Hcfg, HL2.
  destruct (redis_send_log (CmdGet key) c1) as (c2&Hs&(_&Hm&Hn&_)&Hlog).
  { rewrite Hrc. by apply Hwf. }
  rewrite Hs, bind_Done.
  assert (sent_log c2 = sent_log c ++ [CmdGet key]) as Hlog'.
  { rewrite Hlog. unfold sent_log. by rewrite Hrc. }
  destruct Hreply as [->|(p&->&[Hp|(item&Hp&Hexp)])].
  - by exists c2.
  - rewrite Hp. by exists c2.
  - rewrite Hp. destruct (Z.ltb_spec now (ExpireTime item)); [lia|]. by exists c2.
Qed.

Lemma Get_l2_miss_writes_nothing_witness :
  ∃ c', Get go_runtime "k" 10 (GetBytes expired_bytes) (fresh true true 10) = Done (None, c')
        ∧ localCache c' = localCache (l1_lookup "k" 10 (fresh true true 10)).2
        ∧ itemCount c' = itemCount (l1_lookup "k" 10 (fresh true true 10)).2
        ∧ sent_log c' = sent_log (fresh true true 10) ++ [CmdGet "k"].
Proof.
  apply (Get_l2_miss_writes_nothing go_runtime "k" 10 (GetBytes expired_bytes)
           (fresh true true 10)).
  - unfold well_formed. simpl. split_and!; [intros _|..]; by eexists.
  - reflexivity.
  - reflexivity.
  - right. exists expired_bytes. split; [reflexivity|]. right.
    exists expired_envelope. split; [reflexivity|]. simpl. lia.
Defined.

(** X14.  With L1 disabled and L2 enabled, let the value be one that
    encodes (an integer of 64 bits, a finite float64 with an integral
    value, nil, a boolean or a string), and let set_time, set_time + ttl
    and set_time + ttl - now fit in 64 bits.  [Set] sends the encoded
    envelope to Redis and, when Redis hands the same bytes back at
    now < set_time + ttl, [Get] returns the value as JSON gives it back:
    the value itself for nil, a boolean, a string of valid UTF-8 and a
    float64, the nearest float64 for an integer, and a string with its
    invalid bytes replaced by U+FFFD.  Neither call touches L1, and [Get]
    writes the envelope back with access_time = now and
    access_count = 1. *)
Theorem l2_only_write_then_read (rt : Runtime) key value (jv : JValue) (ttl now now' : Z)
  (c : MultiLevelCache)
  (Hwf : well_formed c)
  (HL1 : EnableL1Cache (config c) = false)
  (HL2 : EnableL2Cache (config c) = true)
  (Hvalue : marshal_value value = Some jv)
  (Htyped : GoValue_ok value)
  (Hnow : int64_ok now)
  (Hexpire : int64_ok (now + ttl))
  (Hrest : int64_ok (now + ttl - now'))
  (Hlive : now' < now + ttl) :
  let jsonData := Encoded (mkJsonDoc jv (now + ttl) now now 0) in
  ∃ v' c1 c2,
    unmarshal_value jv = Some v'
    ∧ Set_ rt key value ttl now true c = Done (None, c1)
    ∧ sent_log c1 = sent_log c ++ [CmdSet key jsonData (seconds_to_Duration ttl)]
    ∧ Get rt key now' (GetBytes jsonData) c1 = Done (Some v', c2)
    ∧ (json_native value → v' = value)
    ∧ (∀ n, value = VInt n → v' = VFloat64 (round_float64 n))
    ∧ (∀ s, value = VString s → v' = VString (to_valid_utf8 s))
    ∧ localCache c1 = localCache c ∧ localCache c2 = localCache c
    ∧ sent_log c2
      = sent_log c1
        ++ [CmdGet key;
            CmdSet key
              (marshal_or_empty (mkCacheItem v' (now + ttl) now now' 1))
              (seconds_to_Duration (now + ttl - now'))].
Proof.
  intros jsonData.
  destruct (unmarshal_marshal_value value jv Htyped Hvalue) as (v'&Hv'&Hnat&Hint&Hstr).
  exists v'.
  unfold Set_. rewrite HL1, bind_Done, HL2. unfold json_Marshal. simpl.
  rewrite Hvalue, add64_exact by done. fold jsonData.
  destruct (redis_send_log (CmdSet key jsonData (seconds_to_Duration ttl)) c)
    as (c1&Hs&Hp1&Hlog1); [by apply Hwf|].
  rewrite Hs, bind_Done.
  pose proof (l1_post_wf _ _ _ _ Hwf Hp1) as Hwf1.
  destruct Hp1 as (Hcfg1&Hm1&_).
  exists c1. unfold Get, l1_lookup. rewrite Hcfg1, HL1. simpl. rewrite Hcfg1, HL2.
  destruct (redis_send_log (CmdGet key) c1) as (c2&Hs2&Hp2&Hlog2).
  { apply Hwf1. congruence. }
  rewrite Hs2, bind_Done.
  pose proof (l1_post_wf _ _ _ _ Hwf1 Hp2) as Hwf2.
  destruct Hp2 as (Hcfg2&Hm2&_).
  subst jsonData. unfold json_Unmarshal. simpl.
  assert (int64_ok 0) as H0 by (unfold int64_ok, min_int64, max_int64; lia).
  apply int64_okb_true in Hnow as Hnowb. apply int64_okb_true in Hexpire as Hexpb.
  apply int64_okb_true in H0. rewrite Hnowb, Hexpb, H0, Hv'. simpl.
  destruct (Z.ltb_spec now' (now + ttl)); [|lia].
  unfold promote. rewrite Hcfg2, Hcfg1, HL1, bind_Done.
  unfold touch. simpl. rewrite sub64_exact by done.
  assert (add64 0 1 = 1) as -> by reflexivity.
  destruct (redis_send_log
              (CmdSet key
                 (marshal_or_empty (mkCacheItem v' (now + ttl) now now' 1))
                 (seconds_to_Duration (now + ttl - now'))) c2) as (c3&Hs3&Hp3&Hlog3).
  { apply Hwf2. congruence. }
  rewrite Hs3, bind_Done. destruct Hp3 as (_&Hm3&_).
  exists c3.
  split_and!; try done; try congruence.
  rewrite Hlog3, Hlog2, <- app_assoc. done.
Qed.

Lemma l2_only_write_then_read_witness :
  let jsonData := Encoded (mkJsonDoc (JNumber 42) (0 + 60) 0 0 0) in
  ∃ v' c1 c2,
    unmarshal_value (JNumber 42) = Some v'
    ∧ Set_ go_runtime "k" (VInt 42) 60 0 true (fresh false true 0) = Done (None, c1)
    ∧ sent_log c1
      = sent_log (fresh false true 0) ++ [CmdSet "k" jsonData (seconds_to_Duration 60)]
    ∧ Get go_runtime "k" 30 (GetBytes jsonData) c1 = Done (Some v', c2)
    ∧ (json_native (VInt 42) → v' = VInt 42)
    ∧ (∀ n, VInt 42 = VInt n → v' = VFloat64 (round_float64 n))
    ∧ (∀ s, VInt 42 = VString s → v' = VString (to_valid_utf8 s))
    ∧ localCache c1 = localCache (fresh false true 0)
    ∧ localCache c2 = localCache (fresh false true 0)
    ∧ sent_log c2
      = sent_log c1
        ++ [CmdGet "k";
            CmdSet "k"
              (marshal_or_empty (mkCacheItem v' (0 + 60) 0 30 1))
              (seconds_to_Duration (0 + 60 - 30))].
Proof.
  apply (l2_only_write_then_read go_runtime "k" (VInt 42) (JNumber 42) 60 0 30
           (fresh false true 0)).
  - unfold well_formed. simpl. split_and!; [intros _|..]; by eexists.
  - reflexivity.
  - reflexivity.
  - reflexivity.
  - simpl. unfold int64_ok, min_int64, max_int64. lia.
  - unfold int64_ok, min_int64, max_int64. lia.
  - unfold int64_ok, min_int64, max_int64. lia.
  - unfold int64_ok, min_int64, max_int64. lia.
  - lia.
Defined.

(** X15.  After Set(k, v, ttl) with L1 enabled, the entry not evicted at
    once (there is no cap, the insertion stays within the cap, or some
    other entry was last accessed before set_time), and set_time + ttl
    and set_time + ttl - now both within the 64-bit range, [GetWithTTL]
    of k at now < set_time + ttl returns v together with the remaining
    life set_time + ttl - now, whatever Redis replies. *)
Theorem Set_then_GetWithTTL (rt : Runtime) key value (ttl now now' : Z) ok
  (c : MultiLevelCache)
  (Hrt : RuntimeOk rt)
  (Hwf : well_formed c)
  (Hquiet : l1_consistent c)
  (HL1 : EnableL1Cache (config c) = true)
  (Hexpire : int64_ok (now + ttl))
  (Hrest : int64_ok (now + ttl - now'))
  (Hlive : now' < now + ttl)
  (Hsurv : key_survives_Set key now c) :
  ∃ e c1, Set_ rt key value ttl now ok c = Done (e, c1)
          ∧ ∀ ttl_reply reply, ∃ c2,
              GetWithTTL rt key now' ttl_reply reply c1
              = Done (Some (value, now + ttl - now'), c2).
Proof.
  destruct (Set_l1 rt key value ttl now ok c Hrt Hwf Hquiet HL1 Hsurv)
    as (e&c1&HSet&Hcfg1&_&_&Hk).
  rewrite add64_exact in Hk by done.
  exists e, c1. split; [done|]. intros ttl_reply reply.
  unfold GetWithTTL, l1_lookup. rewrite Hcfg1, HL1, Hk. simpl.
  destruct (Z.ltb_spec now' (now + ttl)); [|lia].
  rewrite sub64_exact by done. by eexists.
Qed.

Lemma Set_then_GetWithTTL_witness :
  ∃ e c1, Set_ go_runtime "b" (VInt 42) 5 0 true (fresh true false 0) = Done (e, c1)
          ∧ ∀ ttl_reply reply, ∃ c2,
              GetWithTTL go_runtime "b" 4 ttl_reply reply c1
              = Done (Some (VInt 42, 0 + 5 - 4), c2).
Proof.
  apply (Set_then_GetWithTTL go_runtime "b" (VInt 42) 5 0 4 true (fresh true false 0)
           go_runtime_ok).
  - unfold well_formed. simpl. split_and!; [done|by eexists..].
  - reflexivity.
  - reflexivity.
  - unfold int64_ok, min_int64, max_int64. lia.
  - unfold int64_ok, min_int64, max_int64. lia.
  - lia.
  - left. simpl. lia.
Defined.

(** X16.  [Set] does not reject a ttl that is zero or negative.  With L1
    enabled, L2 disabled and set_time + ttl within the 64-bit range, every
    [Get] of the key from set_time on misses and leaves nothing under the
    key.  When the size check of this [Set] does not evict the entry
    (there is no cap, the insertion stays within the cap, or some other
    entry was last accessed before set_time), L1 holds after [Set] an
    entry that is expired from the start, and that [Get] removes it and
    lowers the counter by one. *)
Theorem Set_nonpositive_ttl_stores_expired_entry (rt : Runtime) key value (ttl now : Z) ok
  (c : MultiLevelCache)
  (Hrt : RuntimeOk rt)
  (Hwf : well_formed c)
  (Hquiet : l1_consistent c)
  (HL1 : EnableL1Cache (config c) = true)
  (HL2 : EnableL2Cache (config c) = false)
  (Httl : ttl ≤ 0)
  (Hexpire : int64_ok (now + ttl)) :
  ∃ e c1, Set_ rt key value ttl now ok c = Done (e, c1)
          ∧ (key_survives_Set key now c →
             localCache c1 !! key = Some (mkCacheItem value (now + ttl) now now 0))
          ∧ ∀ now' reply, now ≤ now' →
              ∃ c2, Get rt key now' reply c1 = Done (None, c2)
                    ∧ localCache c2 !! key = None
                    ∧ (key_survives_Set key now c → itemCount c2 = itemCount c1 - 1).
Proof.
  destruct (Set_l1_cases rt key value ttl now ok c Hrt Hwf Hquiet)
    as (e&c1&HSet&Hcfg1&Hwf1&Hc1&Hcases).
  rewrite add64_exact in Hcases by done. specialize (Hcases HL1).
  assert (key_survives_Set key now c →
          localCache c1 !! key = Some (mkCacheItem value (now + ttl) now now 0)) as Hk.
  { intros Hsurv.
    destruct (Set_l1 rt key value ttl now ok c Hrt Hwf Hquiet HL1 Hsurv)
      as (e'&c1'&HSet'&_&_&_&Hk).
    rewrite HSet in HSet'. injection HSet' as <- <-.
    by rewrite add64_exact in Hk. }
  exists e, c1. split; [done|]. split; [done|]. intros now' reply Hle.
  unfold Get, l1_lookup. rewrite Hcfg1, HL1.
  destruct Hcases as [Hsome|Hnone].
  - rewrite Hsome. simpl.
    destruct (Z.ltb_spec now' (now + ttl)); [lia|]. simpl. rewrite Hcfg1, HL2.
    eexists. split; [done|]. split; [apply lookup_delete_eq|done].
  - rewrite Hnone. rewrite Hcfg1, HL2.
    eexists. split; [done|]. split; [done|].
    intros Hsurv. rewrite (Hk Hsurv) in Hnone. done.
Qed.

Lemma Set_nonpositive_ttl_stores_expired_entry_witness :
  ∃ e c1, Set_ go_runtime "z" (VString "v") 0 3 true (fresh true false 0) = Done (e, c1)
          ∧ (key_survives_Set "z" 3 (fresh true false 0) →
             localCache c1 !! "z" = Some (mkCacheItem (VString "v") (3 + 0) 3 3 0))
          ∧ ∀ now' reply, 3 ≤ now' →
              ∃ c2, Get go_runtime "z" now' reply c1 = Done (None, c2)
                    ∧ localCache c2 !! "z" = None
                    ∧ (key_survives_Set "z" 3 (fresh true false 0) →
                       itemCount c2 = itemCount c1 - 1).
Proof.
  apply (Set_nonpositive_ttl_stores_expired_entry go_runtime "z" (VString "v") 0 3 true
           (fresh true false 0) go_runtime_ok).
  - unfold well_formed. simpl. split_and!; [done|by eexists..].
  - reflexivity.
  - reflexivity.
  - reflexivity.
  - lia.
  - unfold int64_ok, min_int64, max_int64. lia.
Defined.

(** ** The sweep and the spills (cache.go) *)

Lemma collect_keys_spec (now : Z) (ds : Strategy) (snapshot : list itemWithKey) :
  ∃ keysToDelete keysToDemote,
    collect_keys now (Some ds) snapshot = Done (keysToDelete, keysToDemote)
    ∧ (∀ k, k ∈ keysToDelete
            ↔ ∃ item, (k, item) ∈ snapshot ∧ ExpireTime item ≤ now)
    ∧ (∀ k, k ∈ keysToDemote
            ↔ ∃ item, (k, item) ∈ snapshot ∧ now < ExpireTime item
                      ∧ ShouldDemote ds item now = true).
Proof.
  induction snapshot as [|[k0 item0] rest (kd&km&IH&Hd&Hm)]; simpl.
  - exists [], []. split; [done|]. split; intros k; split.
    + by intros ?%elem_of_nil.
    + by intros (?&?%elem_of_nil&_).
    + by intros ?%elem_of_nil.
    + by intros (?&?%elem_of_nil&_).
  - rewrite IH. destruct (Z.leb_spec (ExpireTime item0) now) as [Hexp|Hexp]; simpl.
    + exists (k0 :: kd), km. split; [done|]. split; intros k.
      * rewrite elem_of_cons, Hd. split.
        -- intros [->|(item&Hin&Hle)]; [exists item0|exists item];
             (split; [|done]); [left|by right].
        -- intros (item&Hin&Hle). apply elem_of_cons in Hin as [[= -> ->]|Hin];
             [by left|right; eauto].
      * rewrite Hm. split.
        -- intros (item&Hin&?). exists item. split; [by right|done].
        -- intros (item&Hin&Hlt&Hdem). apply elem_of_cons in Hin as [[= -> ->]|Hin];
             [lia|eauto].
    + destruct (ShouldDemote ds item0 now) eqn:Hsd.
      * exists kd, (k0 :: km). split; [done|]. split; intros k.
        -- rewrite Hd. split.
           ++ intros (item&Hin&?). exists item. split; [by right|done].
           ++ intros (item&Hin&Hle). apply elem_of_cons in Hin as [[= -> ->]|Hin];
                [lia|eauto].
        -- rewrite elem_of_cons, Hm. split.
           ++ intros [->|(item&Hin&?)]; [exists item0|exists item];
                (split; [|done]); [left|by right].
           ++ intros (item&Hin&Hlt&Hdem). apply elem_of_cons in Hin as [[= -> ->]|Hin];
                [by left|right; eauto].
      * exists kd, km. split; [done|]. split; intros k.
        -- rewrite Hd. split.
           ++ intros (item&Hin&?). exists item. split; [by right|done].
           ++ intros (item&Hin&Hle). apply elem_of_cons in Hin as [[= -> ->]|Hin];
                [lia|eauto].
        -- rewrite Hm. split.
           ++ intros (item&Hin&?). exists item. split; [by right|done].
           ++ intros (item&Hin&Hlt&Hdem). apply elem_of_cons in Hin as [[= -> ->]|Hin];
                [congruence|eauto].
Qed.

Lemma spill_log (now : Z) (k : string) (item : CacheItem) (c : MultiLevelCache) :
  well_formed c →
  ∃ c', spill now k item c = Done c'
        ∧ l1_post c c' (localCache c) (itemCount c)
        ∧ sent_log c' = sent_log c ++ spill_cmds (EnableL2Cache (config c)) now k item.
Proof.
  intros Hwf. unfold spill, spill_cmds.
  destruct (EnableL2Cache (config c)) eqn:E2;
    [|exists c; split_and!; [done|apply l1_post_refl|by rewrite app_nil_r]].
  destruct (json_Marshal item);
    [|exists c; split_and!; [done|apply l1_post_refl|by rewrite app_nil_r]].
  destruct (0 <? sub64 (ExpireTime item) now);
    [|exists c; split_and!; [done|apply l1_post_refl|by rewrite app_nil_r]].
  apply redis_send_log. by apply Hwf.
Qed.

Lemma evict_loop_log (now : Z) (items : list itemWithKey) (c : MultiLevelCache) :
  well_formed c →
  ∃ c', evict_loop now items c = Done c'
        ∧ sent_log c' = sent_log c ++ spilled (EnableL2Cache (config c)) now items.
Proof.
  revert c. induction items as [|[k item] items IH]; intros c Hwf.
  - exists c. split; [done|]. by rewrite app_nil_r.
  - destruct (spill_log now k item c Hwf) as (c1&Hs&Hp&Hlog).
    simpl evict_loop. rewrite Hs, bind_Done.
    pose proof (l1_post_wf _ _ _ _ Hwf Hp) as Hwf1.
    destruct (IH (l1_remove k c1)) as (c'&He&Hlog'); [exact Hwf1|].
    exists c'. split; [done|]. rewrite Hlog'.
    destruct Hp as (Hcfg&_).
    change (sent_log (l1_remove k c1)) with (sent_log c1).
    change (config (l1_remove k c1)) with (config c1).
    rewrite Hlog, Hcfg, <- app_assoc. done.
Qed.

Lemma demote_loop_l1 (now : Z) (keys : list string) (c : MultiLevelCache) :
  well_formed c →
  ∃ c' extra,
    demote_loop now keys c = Done c'
    ∧ localCache c' = delete_keys keys (localCache c)
    ∧ sent_log c' = sent_log c ++ extra
    ∧ ∀ k item cmd, k ∈ keys → localCache c !! k = Some item →
        cmd ∈ spill_cmds (EnableL2Cache (config c)) now k item → cmd ∈ extra.
Proof.
  revert c. induction keys as [|k0 keys IH]; intros c Hwf.
  - exists c, []. split_and!; [done|done|by rewrite app_nil_r|].
    by intros k item cmd ?%elem_of_nil.
  - simpl demote_loop. destruct (localCache c !! k0) as [item0|] eqn:Hk0.
    + destruct (spill_log now k0 item0 c Hwf) as (c1&Hs&Hp&Hlog).
      rewrite Hs, bind_Done.
      pose proof (l1_post_wf _ _ _ _ Hwf Hp) as Hwf1.
      destruct (IH (l1_remove k0 c1)) as (c'&extra&Hd&Hm&Hlog'&Hin); [exact Hwf1|].
      destruct Hp as (Hcfg&Hm1&_).
      exists c', (spill_cmds (EnableL2Cache (config c)) now k0 item0 ++ extra).
      split; [done|]. split; [simpl in Hm; by rewrite Hm, Hm1|].
      split.
      { rewrite Hlog'. change (sent_log (l1_remove k0 c1)) with (sent_log c1).
        by rewrite Hlog, <- app_assoc. }
      intros k item cmd Hk Hitem Hcmd. apply elem_of_app.
      destruct (decide (k = k0)) as [->|Hne].
      * left. rewrite Hk0 in Hitem. by injection Hitem as <-.
      * right. apply (Hin k item cmd).
        -- apply elem_of_cons in Hk as [?|?]; done.
        -- simpl. rewrite Hm1. by rewrite lookup_delete_ne.
        -- simpl. by rewrite Hcfg.
    + destruct (IH c Hwf) as (c'&extra&Hd&Hm&Hlog'&Hin).
      exists c', extra. split; [done|]. split.
      { rewrite Hm. unfold delete_keys. simpl. by rewrite delete_id. }
      split; [done|]. intros k item cmd Hk Hitem Hcmd.
      apply (Hin k item cmd); [|done..].
      apply elem_of_cons in Hk as [->|?]; [congruence|done].
Qed.

Section SweepContents.

Variable rt : Runtime.
Hypothesis rt_ok : RuntimeOk rt.

Lemma Range_lookup (m : gmap string CacheItem) k item :
  (k, item) ∈ Range rt m ↔ m !! k = Some item.
Proof. rewrite (Range_perm _ rt_ok). apply elem_of_map_to_list. Qed.

Lemma sweep_l1 (now : Z) (ds : Strategy) (c : MultiLevelCache) :
  well_formed c → DemotionStrategy (config c) = Some ds →
  ∃ c1 extra,
    sweep rt now c = Done c1
    ∧ (∀ k, localCache c1 !! k
            = match localCache c !! k with
              | Some item => if survives_sweep ds now item then Some item else None
              | None => None
              end)
    ∧ sent_log c1 = sent_log c ++ extra
    ∧ ∀ k item cmd, localCache c !! k = Some item → now < ExpireTime item →
        ShouldDemote ds item now = true →
        cmd ∈ spill_cmds (EnableL2Cache (config c)) now k item → cmd ∈ extra.
Proof.
  intros Hwf Hds. unfold sweep. rewrite Hds.
  destruct (collect_keys_spec now ds (Range rt (localCache c))) as (kd&km&Hcol&Hkd&Hkm).
  rewrite Hcol, bind_Done.
  pose proof (delete_loop_post kd c) as Hp.
  pose proof (l1_post_wf _ _ _ _ Hwf Hp) as Hwf1.
  destruct (demote_loop_l1 now km (delete_loop kd c) Hwf1) as (c1&extra&Hd&Hm&Hlog&Hin).
  destruct Hp as (Hcfg&Hm0&_&_&_&_).
  assert (sent_log (delete_loop kd c) = sent_log c) as Hlog0.
  { clear. revert c. induction kd as [|k kd IH]; intros c; [done|]. simpl. by rewrite IH. }
  exists c1, extra. split; [done|]. split; [|split; [by rewrite Hlog, Hlog0|]].
  - intros k. rewrite Hm, Hm0, !lookup_delete_keys. unfold survives_sweep.
    destruct (localCache c !! k) as [item|] eqn:Hk.
    + destruct (Z.leb_spec (ExpireTime item) now) as [Hexp|Hexp]; simpl.
      * destruct (decide (k ∈ km)); [done|]. rewrite decide_True; [done|].
        apply Hkd. exists item. split; [by apply Range_lookup|done].
      * destruct (ShouldDemote ds item now) eqn:Hsd; simpl.
        -- rewrite decide_True; [done|]. apply Hkm. exists item.
           split; [by apply Range_lookup|done].
        -- rewrite decide_False.
           ++ rewrite decide_False; [done|]. intros (item'&Hin'&Hle)%Hkd.
              apply Range_lookup in Hin'. rewrite Hk in Hin'. injection Hin' as <-. lia.
           ++ intros (item'&Hin'&_&Hsd')%Hkm.
              apply Range_lookup in Hin'. rewrite Hk in Hin'. injection Hin' as <-.
              congruence.
    + by destruct (decide (k ∈ km)), (decide (k ∈ kd)).
  - intros k item cmd Hk Hlive Hsd Hcmd. apply (Hin k item cmd).
    + apply Hkm. exists item. split; [by apply Range_lookup|done].
    + rewrite Hm0, lookup_delete_keys. rewrite decide_False; [done|].
      intros (item'&Hin'&Hle)%Hkd.
      apply Range_lookup in Hin'. rewrite Hk in Hin'. injection Hin' as <-. lia.
    + by rewrite Hcfg.
Qed.

Lemma evictLRU_log (now count : Z) (c : MultiLevelCache) :
  well_formed c → 0 ≤ itemCount c →
  ∃ c', evictLRU rt now count c = Done c'
        ∧ localCache c' = delete_keys (victims rt count (localCache c)).*1 (localCache c)
        ∧ sent_log c'
          = sent_log c ++ spilled (EnableL2Cache (config c)) now
                                  (victims rt count (localCache c)).
Proof.
  intros Hwf Hn.
  destruct (evictLRU_post rt now count c Hwf Hn) as (c'&He&(_&Hm&_)).
  exists c'. split; [done|]. split; [done|].
  revert He. unfold evictLRU. destruct (Z.ltb_spec (itemCount c) 0); [lia|].
  fold (victims rt count (localCache c)).
  destruct (evict_loop_log now (victims rt count (localCache c)) c Hwf) as (c''&He'&Hlog).
  rewrite He'. by intros [= <-].
Qed.

End SweepContents.

(** X17.  After a maintenance tick every entry left in L1 was there
    before, unchanged, is not expired and is not one the demotion policy
    demotes; and if the cache was within its cap (or has none) before the
    tick, every such entry is still there. *)
Theorem tick_purges_expired_and_idle (rt : Runtime) (now : Z) (ds : Strategy)
  (c : MultiLevelCache)
  (Hrt : RuntimeOk rt)
  (Hwf : well_formed c)
  (Hquiet : l1_consistent c)
  (Hds : DemotionStrategy (config c) = Some ds) :
  ∃ c', cleanupExpiredItems rt now c = Done c'
        ∧ (∀ k item, localCache c' !! k = Some item →
             localCache c !! k = Some item ∧ now < ExpireTime item
             ∧ ShouldDemote ds item now = false)
        ∧ (within_cap c →
           ∀ k item, localCache c !! k = Some item → now < ExpireTime item →
             ShouldDemote ds item now = false → localCache c' !! k = Some item).
Proof.
  destruct (sweep_l1 rt Hrt now ds c Hwf Hds) as (c1&extra&Hs&Hlook&_).
  destruct (sweep_post rt Hrt now c Hwf Hquiet) as (c1'&Hs'&Hcfg1&Hwf1&Hc1&Hle).
  rewrite Hs in Hs'. injection Hs' as <-.
  assert (∀ k item, localCache c1 !! k = Some item ↔
            localCache c !! k = Some item ∧ now < ExpireTime item
            ∧ ShouldDemote ds item now = false) as Hiff.
  { intros k item. rewrite Hlook. unfold survives_sweep.
    destruct (localCache c !! k) as [item'|]; [|split; [done|by intros [? _]]].
    destruct (Z.leb_spec (ExpireTime item') now); simpl.
    - split; [done|]. intros ([= ->]&?&_). lia.
    - destruct (ShouldDemote ds item' now) eqn:Hsd; simpl.
      + split; [done|]. intros ([= ->]&_&?). congruence.
      + split; [by intros [= <-]|by intros (?&_)]. }
  unfold cleanupExpiredItems. rewrite Hs, bind_Done.
  destruct (over_cap c1) eqn:Hov.
  - destruct (evictLRU_log rt now (itemCount c1 - MaxL1Size (config c1)) c1 Hwf1)
      as (c'&He&Hm&_).
    { unfold l1_consistent in Hc1. lia. }
    exists c'. split; [done|]. split.
    + intros k item. rewrite Hm, lookup_delete_keys.
      destruct (decide _); [done|]. apply Hiff.
    + intros Hcap. exfalso. unfold over_cap in Hov. unfold within_cap in Hcap.
      apply andb_true_iff in Hov as [H1 H2]. apply Z.ltb_lt in H1, H2.
      rewrite Hcfg1 in H1, H2. specialize (Hcap H1). lia.
  - exists c1. split; [done|]. split.
    + intros k item. apply Hiff.
    + intros _ k item ? ? ?. by apply Hiff.
Qed.

Lemma tick_purges_expired_and_idle_witness :
  ∃ c', cleanupExpiredItems go_runtime 400 cache_a = Done c'
        ∧ (∀ k item, localCache c' !! k = Some item →
             localCache cache_a !! k = Some item ∧ 400 < ExpireTime item
             ∧ ShouldDemote (NewFrequencyBasedStrategy 0 0 300) item 400 = false)
        ∧ (within_cap cache_a →
           ∀ k item, localCache cache_a !! k = Some item → 400 < ExpireTime item →
             ShouldDemote (NewFrequencyBasedStrategy 0 0 300) item 400 = false →
             localCache c' !! k = Some item).
Proof.
  apply (tick_purges_expired_and_idle go_runtime 400 _ cache_a go_runtime_ok).
  - unfold well_formed. simpl. split_and!; [done|by eexists..].
  - reflexivity.
  - reflexivity.
Defined.

(** X18.  Demotion: an entry that is not expired and that the demotion
    policy demotes is gone from L1 after a maintenance tick, and when L2
    is enabled, the entry encodes and its residual life expire_time - now
    fits 64 bits, the SET of its unchanged envelope with that residual
    life as expiration is among the commands the tick sent. *)
Theorem tick_demotes_idle_entry (rt : Runtime) (now : Z) (ds : Strategy)
  (c : MultiLevelCache) (k : string) (item : CacheItem)
  (Hrt : RuntimeOk rt)
  (Hwf : well_formed c)
  (Hquiet : l1_consistent c)
  (Hds : DemotionStrategy (config c) = Some ds)
  (Hentry : localCache c !! k = Some item)
  (Hlive : now < ExpireTime item)
  (Hidle : ShouldDemote ds item now = true) :
  ∃ c' sent_by_tick,
    cleanupExpiredItems rt now c = Done c'
    ∧ localCache c' !! k = None
    ∧ sent_log c' = sent_log c ++ sent_by_tick
    ∧ (EnableL2Cache (config c) = true →
       int64_ok (ExpireTime item - now) →
       ∀ jsonData, json_Marshal item = Some jsonData →
         CmdSet k jsonData (seconds_to_Duration (ExpireTime item - now)) ∈ sent_by_tick).
Proof.
  destruct (sweep_l1 rt Hrt now ds c Hwf Hds) as (c1&extra&Hs&Hlook&Hlog&Hin).
  destruct (sweep_post rt Hrt now c Hwf Hquiet) as (c1'&Hs'&Hcfg1&Hwf1&Hc1&Hle).
  rewrite Hs in Hs'. injection Hs' as <-.
  assert (localCache c1 !! k = None) as Hgone.
  { rewrite Hlook, Hentry. unfold survives_sweep. by rewrite Hidle, andb_false_r. }
  assert (EnableL2Cache (config c) = true → int64_ok (ExpireTime item - now) →
          ∀ jsonData, json_Marshal item = Some jsonData →
            CmdSet k jsonData (seconds_to_Duration (ExpireTime item - now)) ∈ extra)
    as Hcmd.
  { intros E2 Hok data Hdata. apply (Hin k item); try done.
    unfold spill_cmds. rewrite E2, Hdata, sub64_exact by done.
    destruct (Z.ltb_spec 0 (ExpireTime item - now)); [|lia]. by left. }
  unfold cleanupExpiredItems. rewrite Hs, bind_Done.
  destruct (over_cap c1).
  - destruct (evictLRU_log rt now (itemCount c1 - MaxL1Size (config c1)) c1 Hwf1)
      as (c'&He&Hm&Hlog').
    { unfold l1_consistent in Hc1. lia. }
    eexists c', (extra ++ _). split; [done|]. split.
    + rewrite Hm, lookup_delete_keys. by destruct (decide _).
    + split; [by rewrite Hlog', Hlog, <- app_assoc|].
      intros E2 Hok data Hdata. apply elem_of_app. left. by apply Hcmd.
  - exists c1, extra. by split_and!.
Qed.

Lemma tick_demotes_idle_entry_witness :
  ∃ c' sent_by_tick,
    cleanupExpiredItems go_runtime 400
      (l1_store "d" (mkCacheItem (VString "v") 1000 0 0 0) 1 (fresh true true 10)) = Done c'
    ∧ localCache c' !! "d" = None
    ∧ sent_log c'
      = sent_log (l1_store "d" (mkCacheItem (VString "v") 1000 0 0 0) 1 (fresh true true 10))
        ++ sent_by_tick
    ∧ (EnableL2Cache
         (config (l1_store "d" (mkCacheItem (VString "v") 1000 0 0 0) 1 (fresh true true 10)))
       = true →
       int64_ok (ExpireTime (mkCacheItem (VString "v") 1000 0 0 0) - 400) →
       ∀ jsonData, json_Marshal (mkCacheItem (VString "v") 1000 0 0 0) = Some jsonData →
         CmdSet "d" jsonData
           (seconds_to_Duration (ExpireTime (mkCacheItem (VString "v") 1000 0 0 0) - 400))
         ∈ sent_by_tick).
Proof.
  apply (tick_demotes_idle_entry go_runtime 400 (NewFrequencyBasedStrategy 0 0 300)
           (l1_store "d" (mkCacheItem (VString "v") 1000 0 0 0) 1 (fresh true true 10))
           "d" (mkCacheItem (VString "v") 1000 0 0 0) go_runtime_ok).
  - unfold well_formed. simpl. split_and!; [intros _|..]; by eexists.
  - reflexivity.
  - reflexivity.
  - reflexivity.
  - simpl. lia.
  - reflexivity.
Defined.

(** X19.  [evictLRU] sends to Redis exactly the spills of the entries it
    removes, in the order it removes them: for each removed entry that
    encodes and whose expire_time - now is positive, one SET of its
    envelope with that residual life; nothing for an expired or
    unencodable entry, and nothing at all when L2 is disabled. *)
Theorem evictLRU_spills_what_it_removes (rt : Runtime) (now n : Z) (c : MultiLevelCache)
  (Hrt : RuntimeOk rt)
  (Hwf : well_formed c)
  (Hquiet : l1_consistent c) :
  ∃ c', evictLRU rt now n c = Done c'
        ∧ localCache c' = delete_keys (victims rt n (localCache c)).*1 (localCache c)
        ∧ sent_log c'
          = sent_log c
            ++ flat_map
                 (fun x : itemWithKey =>
                    if EnableL2Cache (config c) then
                      match json_Marshal x.2 with
                      | Some jsonData =>
                          if 0 <? sub64 (ExpireTime x.2) now
                          then [CmdSet x.1 jsonData
                                       (seconds_to_Duration (sub64 (ExpireTime x.2) now))]
                          else []
                      | None => []
                      end
                    else [])
                 (victims rt n (localCache c)).
Proof.
  destruct (evictLRU_log rt now n c Hwf) as (c'&He&Hm&Hlog).
  { unfold l1_consistent in Hquiet. lia. }
  by exists c'.
Qed.

Lemma evictLRU_spills_what_it_removes_witness :
  ∃ c', evictLRU go_runtime 5 1 cache_ab = Done c'
        ∧ localCache c'
          = delete_keys (victims go_runtime 1 (localCache cache_ab)).*1 (localCache cache_ab)
        ∧ sent_log c'
          = sent_log cache_ab
            ++ flat_map
                 (fun x : itemWithKey =>
                    if EnableL2Cache (config cache_ab) then
                      match json_Marshal x.2 with
                      | Some jsonData =>
                          if 0 <? sub64 (ExpireTime x.2) 5
                          then [CmdSet x.1 jsonData
                                       (seconds_to_Duration (sub64 (ExpireTime x.2) 5))]
                          else []
                      | None => []
                      end
                    else [])
                 (victims go_runtime 1 (localCache cache_ab)).
Proof.
  apply (evictLRU_spills_what_it_removes go_runtime 5 1 cache_ab go_runtime_ok).
  - unfold well_formed. simpl. split_and!; [done|by eexists..].
  - reflexivity.
Defined.

(** ** Whole runs and repeated round trips *)

(** X20.  No public operation and no maintenance tick panics on a cache
    reached from the constructor by a sequential run: [Set], [Get],
    [GetWithTTL], [SetWithExpiration], [Delete], [Clear] and the tick all
    return, for every reply of Redis; [Close] returns unless the stop
    channel was closed by an earlier [Close]. *)
Theorem reachable_never_panics (c : MultiLevelCache)
  (Hreach : Reachable c) :
  (∀ rt, RuntimeOk rt →
     (∀ key value ttl now ok, ∃ r, Set_ rt key value ttl now ok c = Done r)
     ∧ (∀ key now reply, ∃ r, Get rt key now reply c = Done r)
     ∧ (∀ key now ttl_reply reply, ∃ r, GetWithTTL rt key now ttl_reply reply c = Done r)
     ∧ (∀ key value expiration now ok,
          ∃ r, SetWithExpiration rt key value expiration now ok c = Done r)
     ∧ (∀ now, ∃ c', cleanupExpiredItems rt now c = Done c'))
  ∧ (∀ key ok, ∃ r, Delete key ok c = Done r)
  ∧ (∀ ok, ∃ r, Clear ok c = Done r)
  ∧ (∀ ok, (∃ r, Close ok c = Done r)
           ∨ (cleanupTicker c = true ∧ stopCleanup c = ChanClosed)).
Proof.
  destruct (Reachable_invariant c Hreach) as (Hwf&Hc&_).
  assert (∀ A (r : Outcome (A * MultiLevelCache)), preserves c r → ∃ x, r = Done x)
    as Hdone.
  { intros A r (a&c'&->&_). by eexists. }
  split_and!.
  - intros rt Hrt. split_and!; intros.
    + apply Hdone. by apply Set_preserves.
    + apply Hdone. by apply Get_preserves.
    + apply Hdone. by apply GetWithTTL_preserves.
    + apply Hdone. by apply SetWithExpiration_preserves.
    + destruct (cleanupExpiredItems_post rt Hrt now c Hwf Hc) as (c'&He&_). by exists c'.
  - intros. apply Hdone. by apply Delete_preserves.
  - intros. apply Hdone. by apply Clear_preserves.
  - intros ok. unfold Close. destruct (cleanupTicker c); [destruct (stopCleanup c)|].
    + left. rewrite bind_Done.
      destruct (EnableL2Cache _); [destruct (redisClient _)|]; by eexists.
    + by right.
    + left. rewrite bind_Done.
      destruct (EnableL2Cache _); [destruct (redisClient _)|]; by eexists.
Qed.

Lemma reachable_never_panics_witness :
  (∀ rt, RuntimeOk rt →
     (∀ key value ttl now ok, ∃ r, Set_ rt key value ttl now ok (fresh true true 10) = Done r)
     ∧ (∀ key now reply, ∃ r, Get rt key now reply (fresh true true 10) = Done r)
     ∧ (∀ key now ttl_reply reply,
          ∃ r, GetWithTTL rt key now ttl_reply reply (fresh true true 10) = Done r)
     ∧ (∀ key value expiration now ok,
          ∃ r, SetWithExpiration rt key value expiration now ok (fresh true true 10) = Done r)
     ∧ (∀ now, ∃ c', cleanupExpiredItems rt now (fresh true true 10) = Done c'))
  ∧ (∀ key ok, ∃ r, Delete key ok (fresh true true 10) = Done r)
  ∧ (∀ ok, ∃ r, Clear ok (fresh true true 10) = Done r)
  ∧ (∀ ok, (∃ r, Close ok (fresh true true 10) = Done r)
           ∨ (cleanupTicker (fresh true true 10) = true
              ∧ stopCleanup (fresh true true 10) = ChanClosed)).
Proof.
  apply (reachable_never_panics (fresh true true 10)).
  apply (Reachable_new (config_of true true 10) true). reflexivity.
Defined.

(** X21.  Promotion pays off on the next read: after a [Get] that found
    the envelope in L2 and promoted it (the policy holds on the updated
    envelope and the insertion stays within the cap), a further [Get]
    before expire_time is served from L1: it returns the same value and
    sends nothing to Redis. *)
Theorem promoted_entry_is_served_from_l1 (rt : Runtime) key (now now2 : Z)
  (c : MultiLevelCache) (jsonData : Payload) (item0 : CacheItem) (ps : Strategy)
  (Hrt : RuntimeOk rt)
  (Hwf : well_formed c)
  (Hquiet : l1_consistent c)
  (HL1 : EnableL1Cache (config c) = true)
  (HL2 : EnableL2Cache (config c) = true)
  (Hps : PromotionStrategy (config c) = Some ps)
  (Hmiss : l1_miss key now c)
  (Hdecode : json_Unmarshal jsonData = Some item0)
  (Hlive : now < ExpireTime item0)
  (Hlive2 : now2 < ExpireTime item0)
  (Hhot : ShouldPromote ps (touch now item0) now = true)
  (Hroom : MaxL1Size (config c) ≤ 0
           ∨ itemCount (l1_lookup key now c).2 + 1 ≤ MaxL1Size (config c)) :
  ∃ c',
    Get rt key now (GetBytes jsonData) c = Done (Some (Value item0), c')
    ∧ localCache c' !! key = Some (touch now item0)
    ∧ ∀ reply, ∃ c'',
        Get rt key now2 reply c' = Done (Some (Value item0), c'')
        ∧ sent_log c'' = sent_log c'
        ∧ localCache c'' !! key = Some (touch now2 (touch now item0)).
Proof.
  destruct (Get_l2_hit rt key now c jsonData item0 ps Hrt Hwf Hquiet HL2 Hps Hmiss
              Hdecode Hlive) as (c'&rc&HGet&Hm&_).
  destruct (Get_preserves rt Hrt key now (GetBytes jsonData) c Hwf Hquiet)
    as (a&c2&HGet'&Hcfg&_).
  rewrite HGet in HGet'. injection HGet' as _ <-.
  assert (config (l1_lookup key now c).2 = config c) as Hcfg1.
  { unfold l1_lookup. destruct (EnableL1Cache _); [|done].
    destruct (localCache c !! key) as [it|]; [|done].
    by destruct (now <? ExpireTime it). }
  assert (localCache c' !! key = Some (touch now item0)) as Hk.
  { rewrite Hm, HL1, Hhot. simpl. unfold l1_after_promotion. rewrite Hcfg1.
    replace ((0 <? MaxL1Size (config c))
             && (MaxL1Size (config c) <? itemCount (l1_lookup key now c).2 + 1))
      with false.
    - apply lookup_insert_eq.
    - symmetry. apply andb_false_iff.
      destruct Hroom; [left; apply Z.ltb_ge|right; apply Z.ltb_ge]; lia. }
  exists c'. split; [done|]. split; [done|]. intros reply.
  unfold Get, l1_lookup. rewrite Hcfg, HL1, Hk. simpl.
  destruct (Z.ltb_spec now2 (ExpireTime item0)); [|lia].
  eexists. split; [done|]. split; [done|]. simpl. apply lookup_insert_eq.
Qed.

Lemma promoted_entry_is_served_from_l1_witness :
  ∃ c',
    Get go_runtime "a" 1 (GetBytes scenarioA_bytes) scenarioA_cache
    = Done (Some (Value scenarioA_envelope), c')
    ∧ localCache c' !! "a" = Some (touch 1 scenarioA_envelope)
    ∧ ∀ reply, ∃ c'',
        Get go_runtime "a" 2 reply c' = Done (Some (Value scenarioA_envelope), c'')
        ∧ sent_log c'' = sent_log c'
        ∧ localCache c'' !! "a" = Some (touch 2 (touch 1 scenarioA_envelope)).
Proof.
  apply (promoted_entry_is_served_from_l1 go_runtime "a" 1 2 scenarioA_cache
           scenarioA_bytes scenarioA_envelope (NewFrequencyBasedStrategy 3 60 0)
           go_runtime_ok).
  - unfold well_formed. simpl. split_and!; [intros _|..]; by eexists.
  - reflexivity.
  - reflexivity.
  - reflexivity.
  - reflexivity.
  - reflexivity.
  - reflexivity.
  - simpl. lia.
  - simpl. lia.
  - reflexivity.
  - right. vm_compute. discriminate.
Defined.

(** ** Repeated round trips through JSON *)

(** X22.  An envelope decoded from the bytes of L2 always encodes again,
    so the marshal error that [Get] and [GetWithTTL] drop before writing
    back cannot occur, and the new bytes decode to the very same
    envelope: once a value has been through L2, further round trips
    change none of the five fields. *)
Theorem decoded_envelope_reencodes (p : Payload) (item : CacheItem)
  (Hdecode : json_Unmarshal p = Some item) :
  ∃ p', json_Marshal item = Some p'
        ∧ marshal_or_empty item = p'
        ∧ json_Unmarshal p' = Some item
        ∧ item_int64_ok item.
Proof.
  destruct p as [d|raw]; [|done]. unfold json_Unmarshal in Hdecode.
  destruct (int64_okb (j_expire_time d) && int64_okb (j_create_time d)
            && int64_okb (j_access_time d) && int64_okb (j_access_count d)) eqn:Hok;
    [|done].
  destruct (unmarshal_value (j_value d)) as [v|] eqn:Hv; [|done].
  injection Hdecode as <-.
  assert (∃ jv, marshal_value v = Some jv ∧ unmarshal_value jv = Some v)
    as (jv&Hjv&Hback).
  { destruct (j_value d) as [|b|lit|s]; simpl in Hv.
    - injection Hv as <-. by eexists.
    - injection Hv as <-. by eexists.
    - destruct (float64_finite (round_float64 lit)) eqn:Hfin; [|done].
      injection Hv as <-. eexists. split; [done|]. simpl.
      by rewrite round_float64_idempotent, Hfin.
    - injection Hv as <-. eexists. split; [done|]. simpl.
      by rewrite !to_valid_utf8_idempotent. }
  unfold marshal_or_empty, json_Marshal. simpl. rewrite Hjv.
  eexists. split; [done|]. split; [done|]. split.
  - unfold json_Unmarshal. simpl. by rewrite Hok, Hback.
  - apply andb_true_iff in Hok as [Hok H4]. apply andb_true_iff in Hok as [Hok H3].
    apply andb_true_iff in Hok as [H1 H2].
    unfold item_int64_ok. simpl. by rewrite <- !int64_okb_true.
Qed.

Lemma decoded_envelope_reencodes_witness :
  ∃ p', json_Marshal (mkCacheItem (VFloat64 (2 ^ 53)) 1000 0 0 2) = Some p'
        ∧ marshal_or_empty (mkCacheItem (VFloat64 (2 ^ 53)) 1000 0 0 2) = p'
        ∧ json_Unmarshal p' = Some (mkCacheItem (VFloat64 (2 ^ 53)) 1000 0 0 2)
        ∧ item_int64_ok (mkCacheItem (VFloat64 (2 ^ 53)) 1000 0 0 2).
Proof.
  apply (decoded_envelope_reencodes (Encoded (mkJsonDoc (JNumber (2 ^ 53 + 1)) 1000 0 0 2))).
  vm_compute. reflexivity.
Defined.
